(** * structuredfilereader (package sfr): the streaming parse engine

    A shallow embedding of the Go package: the error types (errors.go), the
    fixed-width record reader (fixedwidth.go), the string field type
    (fieldtypes.go), the schema decoding with its two registries
    (definitions.go, unmarshal helpers) and [Parser.Parse] with the
    records it builds on the heap.

    Conventions of the embedding.
    - A Go [error] value is [option error]: [None] is the nil error.
    - A Go pointer [*Record] is an address into the heap, a list of
      records; [None] is the nil pointer.
    - A Go runtime panic is an outcome of its own ([GoPanic], [Panicked]).
    - Callbacks ([ErrorHandler], [RecordProcessor]) are functions; every
      call the engine makes to one of them is logged in the state, in
      order, so that statements about what was passed to a callback and
      when are statements about that log.
    - Code of the Go standard library (regexp, encoding/json, bufio) is
      not part of the package: [regexp.Match] is a parameter, the line
      scanner is the list of the slices it returns, and JSON documents are
      the values of a small JSON data type. *)

From stdpp Require Import base option list strings gmap pretty.
From Stdlib Require Import ZArith Lia Ascii.
From Stdlib.Strings Require Import Byte.

Open Scope string_scope.
Open Scope list_scope.

(** ** Strings and formatting *)

(** The double-quote character, which the package's messages contain. *)
Definition dquote : string := String (ascii_of_nat 34) EmptyString.

(** The formats of the package's [fmt.Sprintf] calls: a string between
    double quotes for [\"%s\"], the decimal rendering for [%d]. *)
Definition quoted (s : string) : string := dquote +:+ s +:+ dquote.
Definition fmt_d (n : nat) : string := pretty n.

(** ** errors.go *)

Inductive error : Type :=
| errorString (s : string)
| MissingFieldError (Message : string)
| RecordParseError (RecordName Text : string)
| FieldParseError (RecordName FieldName Text : string).

Definition Error (e : error) : string :=
  match e with
  | errorString s => s
  | MissingFieldError m => m
  | RecordParseError rn t => "Record " +:+ quoted rn +:+ ": " +:+ t
  | FieldParseError rn fn t =>
      "Record " +:+ quoted rn +:+ ", Field " +:+ quoted fn +:+ ": " +:+ t
  end.

(** [type ConfigurationError error]: an interface type, so the conversion
    keeps the dynamic value, and the nil error stays nil. *)
Definition ConfigurationError (err : option error) : option error := err.

Global Instance error_eq_dec : EqDecision error.
Proof. solve_decision. Defined.

(** ** Byte slices *)

Global Instance byte_eq_decision : EqDecision byte := Byte.byte_eq_dec.

(** A [[]byte]: the elements below its length, and the elements of the
    backing array between its length and its capacity. *)
Record bytes : Type := Bytes { elems : list byte; spare : list byte }.

Definition len (data : bytes) : nat := length (elems data).
Definition cap (data : bytes) : nat := length (elems data) + length (spare data).

(** A slice holding exactly the bytes of [s], with no spare capacity. *)
Definition bytes_of_string (s : string) : bytes :=
  Bytes (String.list_byte_of_string s) [].

(** Outcome of a Go expression or call that may panic. *)
Inductive Go (A : Type) : Type :=
| Val (a : A)
| GoPanic.
Arguments Val {A} a.
Arguments GoPanic {A}.

(** The slice expression [data[lo:hi]] on a slice: in range when
    [0 <= lo <= hi <= cap(data)], a runtime panic otherwise. *)
Definition slice_expr (data : bytes) (lo hi : Z) : Go (list byte) :=
  if decide (0 ≤ lo ∧ lo ≤ hi ∧ hi ≤ Z.of_nat (cap data))%Z
  then Val (take (Z.to_nat (hi - lo))
                 (drop (Z.to_nat lo) (elems data ++ spare data)))
  else GoPanic.

(** ** RecordReader and fixedwidth.go *)

(** [RecordReader] is an interface with the one method [Read]. *)
Record RecordReader : Type :=
  { Read : bytes → Go (list string * option error) }.

Record FixedWidthFieldCoordinate : Type :=
  Coord { Start : Z; End : Z }.

Record FixedWidthRecordReader : Type :=
  { Coordinates : list FixedWidthFieldCoordinate }.

(** The loop of [Read]: [values[i] = string(data[coord.Start:coord.End])]
    for each coordinate in order. *)
Fixpoint FixedWidth_values (data : bytes) (coords : list FixedWidthFieldCoordinate)
  : Go (list string) :=
  match coords with
  | [] => Val []
  | coord :: rest =>
      match slice_expr data (Start coord) (End coord) with
      | GoPanic => GoPanic
      | Val bs =>
          match FixedWidth_values data rest with
          | GoPanic => GoPanic
          | Val values => Val (String.string_of_list_byte bs :: values)
          end
      end
  end.

Definition FixedWidthRecordReader_Read (fwr : FixedWidthRecordReader) (data : bytes)
  : Go (list string * option error) :=
  match FixedWidth_values data (Coordinates fwr) with
  | GoPanic => GoPanic
  | Val values => Val (values, None)
  end.

Definition FixedWidth (fwr : FixedWidthRecordReader) : RecordReader :=
  {| Read := FixedWidthRecordReader_Read fwr |}.

(** ** FieldType and fieldtypes.go *)

(** The dynamic value of a [Field] ([interface{}]): nil, a string, a
    float64 (by its bits) or a time (by its nanoseconds).  Only the string
    field type is embedded; the number and date types convert with
    [strconv.ParseFloat] and [time.Parse]. *)
Inductive Value : Type :=
| Nil
| StringValue (s : string)
| Float64Value (bits : Z)
| TimeValue (unixNano : Z).

(** [FieldType] is an interface with the one method [GetValue]. *)
Record FieldType : Type :=
  { GetValue : string → Value * option error }.

Definition StringFieldType : FieldType :=
  {| GetValue := fun data => (StringValue data, None) |}.

(** ** Records, fields and definitions *)

(** A [*Record] is an address into the heap. *)
Abbreviation ptr := nat (only parsing).

Record Field : Type :=
  { fld_Name : string; fld_TypeName : string; fld_Value : Value }.

(** [type Record struct]. *)
Record Record_ : Type :=
  { Name : string;
    Fields : list Field;
    Parent : option ptr;
    Children : list ptr;
    isWithinSplit : bool }.

Record FieldDefinition : Type :=
  { fd_Name : string; fd_TypeName : string; fd_FieldType : option FieldType }.

(** [type RecordDefinition struct].  The interface field [RecordReader]
    is [None] when it holds nil. *)
Record RecordDefinition : Type :=
  { rd_Name : string;
    MatchExpression : string;
    ReaderName : string;
    rd_RecordReader : option RecordReader;
    ParentRecordName : string;
    FieldDefinitions : list FieldDefinition }.

(** The heap: the records built so far, by address. *)
Abbreviation Heap := (list Record_) (only parsing).

(** The two callback types.  The processor is given a pointer: it may
    read the heap, which it gets with the pointer. *)
Definition ErrorHandler : Type := option error → option error.
Definition RecordProcessor : Type := Heap → option ptr → option error.

Definition DefaultErrorHandler : ErrorHandler := fun err => err.

(** [type Parser struct].  The pointers of [RecordDefinitions] and the two
    callbacks are taken to be non-nil, as [NewParser] leaves them. *)
Record Parser : Type :=
  { RecordDefinitions : list RecordDefinition;
    SplitOnRecordName : string;
    p_RecordProcessor : RecordProcessor;
    p_ErrorHandler : ErrorHandler }.

(** Field updates of a record on the heap. *)
Definition set_isWithinSplit (r : Record_) : Record_ :=
  {| Name := Name r; Fields := Fields r; Parent := Parent r;
     Children := Children r; isWithinSplit := true |}.

Definition set_Parent (q : option ptr) (r : Record_) : Record_ :=
  {| Name := Name r; Fields := Fields r; Parent := q;
     Children := Children r; isWithinSplit := isWithinSplit r |}.

Definition append_Children (c : ptr) (r : Record_) : Record_ :=
  {| Name := Name r; Fields := Fields r; Parent := Parent r;
     Children := Children r ++ [c]; isWithinSplit := isWithinSplit r |}.

(** ** The state of [Parse] *)

(** A call of the engine to one of its two callbacks, with its argument. *)
Inductive Event : Type :=
| CallErrorHandler (err : option error)
| CallRecordProcessor (record : option ptr).

(** The local variables of [Parse], the heap of the records it has built
    and the log of its callback calls. *)
Record State : Type :=
  { heap : Heap;
    lastRecords : gmap string ptr;
    splitRec : option ptr;
    lineNum : nat;
    calls : list Event }.

Definition initial : State :=
  {| heap := []; lastRecords := ∅; splitRec := None; lineNum := 0; calls := [] |}.

(** How a piece of [Parse] ends: it goes on with a value, [Parse] returns
    an error value, or the goroutine panics. *)
Inductive Result (A : Type) : Type :=
| Next (a : A) (st : State)
| Returned (err : option error) (st : State)
| Panicked (st : State).
Arguments Next {A} a st.
Arguments Returned {A} err st.
Arguments Panicked {A} st.

Definition M (A : Type) : Type := State → Result A.

Definition ret {A} (a : A) : M A := fun st => Next a st.

Definition bind {A B} (k : A → M B) (m : M A) : M B :=
  fun st =>
    match m st with
    | Next a st' => k a st'
    | Returned err st' => Returned err st'
    | Panicked st' => Panicked st'
    end.

(** With these instances the engine is written in stdpp's monad notation:
    [x ← m; k] and [m;; k]. *)
Global Instance M_ret : MRet M := @ret.
Global Instance M_bind : MBind M := @bind.

Definition return_ {A} (err : option error) : M A := fun st => Returned err st.
Definition panic {A} : M A := fun st => Panicked st.
Definition get : M State := fun st => Next st st.

(** Assignments to the variables of the state. *)
Definition with_heap (h : Heap) (st : State) : State :=
  {| heap := h; lastRecords := lastRecords st; splitRec := splitRec st;
     lineNum := lineNum st; calls := calls st |}.

Definition with_lastRecords (m : gmap string ptr) (st : State) : State :=
  {| heap := heap st; lastRecords := m; splitRec := splitRec st;
     lineNum := lineNum st; calls := calls st |}.

Definition with_splitRec (r : option ptr) (st : State) : State :=
  {| heap := heap st; lastRecords := lastRecords st; splitRec := r;
     lineNum := lineNum st; calls := calls st |}.

Definition with_lineNum (n : nat) (st : State) : State :=
  {| heap := heap st; lastRecords := lastRecords st; splitRec := splitRec st;
     lineNum := n; calls := calls st |}.

Definition logged (ev : Event) (st : State) : State :=
  {| heap := heap st; lastRecords := lastRecords st; splitRec := splitRec st;
     lineNum := lineNum st; calls := calls st ++ [ev] |}.

Definition log (ev : Event) : M unit := fun st => Next tt (logged ev st).
Definition set_heap (h : Heap) : M unit := fun st => Next tt (with_heap h st).
Definition set_lastRecords (m : gmap string ptr) : M unit :=
  fun st => Next tt (with_lastRecords m st).
Definition set_splitRec (r : option ptr) : M unit :=
  fun st => Next tt (with_splitRec r st).
Definition incr_lineNum : M unit :=
  fun st => Next tt (with_lineNum (S (lineNum st)) st).

(** [rec := Record{...}] whose address is taken: a fresh heap cell. *)
Definition new_Record (r : Record_) : M ptr :=
  fun st => Next (length (heap st)) (with_heap (heap st ++ [r]) st).

(** An assignment through a pointer; a pointer to no cell cannot be
    followed. *)
Definition update (q : ptr) (f : Record_ → Record_) : M unit :=
  fun st =>
    match heap st !! q with
    | Some r => set_heap (<[q := f r]> (heap st)) st
    | None => Panicked st
    end.

Definition deref (q : ptr) : M Record_ :=
  fun st =>
    match heap st !! q with
    | Some r => Next r st
    | None => Panicked st
    end.

(** ** Relations between states and heaps *)

(** The calls to the record processor in a log, in order. *)
Definition processed (evs : list Event) : list (option ptr) :=
  omap (fun ev => match ev with
                  | CallRecordProcessor r => Some r
                  | CallErrorHandler _ => None
                  end) evs.

(** The errors handed to the error handler in a log, in order. *)
Definition handled (evs : list Event) : list (option error) :=
  omap (fun ev => match ev with
                  | CallErrorHandler e => Some e
                  | CallRecordProcessor _ => None
                  end) evs.

(** The state in which a piece of [Parse] ended. *)
Definition final_state {A} (r : Result A) : State :=
  match r with
  | Next _ st | Returned _ st | Panicked st => st
  end.

(** A relation between the state before and the state in which a piece of
    [Parse] ends, whatever way it ends. *)
Definition respects {A} (R : relation State) (m : M A) : Prop :=
  ∀ st, R st (final_state (m st)).

(** The log of callback calls only grows. *)
Definition log_grows : relation State :=
  fun st st' => calls st `prefix_of` calls st'.

(** The variables of [Parse] and the heap are as before, and the log has
    grown by calls to the error handler only. *)
Definition core_kept : relation State :=
  fun st st' =>
    heap st' = heap st ∧ lastRecords st' = lastRecords st ∧
    splitRec st' = splitRec st ∧ lineNum st' = lineNum st ∧
    ∃ errs, calls st' = calls st ++ (CallErrorHandler <$> errs).

(** The record [build_record] allocates for a definition. *)
Definition built (recDef : RecordDefinition) (fields : list Field) : Record_ :=
  {| Name := rd_Name recDef; Fields := fields; Parent := None; Children := [];
     isWithinSplit := false |}.

(** The names and type names of fields, and of field definitions. *)
Definition field_names (fields : list Field) : list (string * string) :=
  (fun f => (fld_Name f, fld_TypeName f)) <$> fields.

Definition definition_names (fldDefs : list FieldDefinition) : list (string * string) :=
  (fun d => (fd_Name d, fd_TypeName d)) <$> fldDefs.

(** What [build_record] leaves: a fresh cell at the end of the heap, which
    is the last record of its name; before that, calls to the error
    handler only. *)
Definition record_built (recDef : RecordDefinition) (st : State) (r : Result ptr) : Prop :=
  match r with
  | Next rec st1 =>
      rec = length (heap st) ∧
      ∃ fields stm, core_kept st stm ∧
        field_names fields = definition_names (FieldDefinitions recDef) ∧
        st1 = with_lastRecords (<[rd_Name recDef := rec]> (lastRecords stm))
                (with_heap (heap stm ++ [built recDef fields]) stm)
  | Returned _ st1 | Panicked st1 => core_kept st st1
  end.

(** From heap [h] to heap [h']: the same cells under the same names, and
    only cells in [T] written. *)
Definition touched_only (T : ptr → Prop) (h h' : Heap) : Prop :=
  length h' = length h ∧
  ∀ q, Name <$> h' !! q = Name <$> h !! q ∧ (¬ T q → h' !! q = h !! q).

(** The records of the unit rooted at [root]: the root and what is reached
    from it through [Children]. *)
Inductive in_unit (h : Heap) (root : ptr) : ptr → Prop :=
| unit_root : in_unit h root root
| unit_child q r c :
    in_unit h root q → h !! q = Some r → c ∈ Children r → in_unit h root c.

(** Every cell of the heap is still there, with the fields it had. *)
Definition fields_kept : relation State :=
  fun st st' =>
    ∀ q r, heap st !! q = Some r → ∃ r', heap st' !! q = Some r' ∧ Fields r' = Fields r.

(** The error of line 182. *)
Definition no_parent_error (recDef : RecordDefinition) (n : nat) : error :=
  RecordParseError (rd_Name recDef)
    ("No available parent record " +:+ quoted (ParentRecordName recDef)
     +:+ " on line " +:+ fmt_d n).

(** The error of line 127. *)
Definition past_end_error (recDef : RecordDefinition) (n : nat) : error :=
  RecordParseError (rd_Name recDef)
    ("Past the end of available data on line " +:+ fmt_d n).

(** ** [RecordDefinition.Match] (definitions.go) and [Parser.Parse] *)

Section Engine.

(** [regexp.Match(pattern, b)] of the Go standard library. *)
Variable regexp_Match : string → list byte → bool * option error.

(** [Match]: without a match expression every line matches. *)
Definition Match (rd : RecordDefinition) (data : bytes) : bool * option error :=
  if decide (MatchExpression rd = EmptyString) then (true, None)
  else regexp_Match (MatchExpression rd) (elems data).

Variable p : Parser.

(** [p.ErrorHandler(err)], logged. *)
Definition call_ErrorHandler (err : option error) : M (option error) :=
  log (CallErrorHandler err);; mret (p_ErrorHandler p err).

(** [p.RecordProcessor(record)], logged. *)
Definition call_RecordProcessor (record : option ptr) : M (option error) :=
  st ← get;
  log (CallRecordProcessor record);;
  mret (p_RecordProcessor p (heap st) record).

(** [if err = p.ErrorHandler(err); err != nil { return err }]. *)
Definition handle (err : option error) : M unit :=
  err' ← call_ErrorHandler err;
  match err' with
  | Some e => return_ (Some e)
  | None => mret tt
  end.

(** Lines 125 to 149: the loop over the field definitions, at index [i]
    with [fields] built so far.  [recVals[i]] panics out of range, and
    so does a method call on a nil [FieldType]. *)
Fixpoint build_Fields (recDef : RecordDefinition) (recVals : list string)
         (i : nat) (fldDefs : list FieldDefinition) (fields : list Field)
  : M (list Field) :=
  match fldDefs with
  | [] => mret fields
  | fldDef :: rest =>
      st ← get;
      (if decide (Z.of_nat i > Z.of_nat (length recVals) - 1)%Z
       then handle (Some (RecordParseError (rd_Name recDef)
              ("Past the end of available data on line " +:+ fmt_d (lineNum st))))
       else mret tt);;
      match fd_FieldType fldDef, recVals !! i with
      | Some fieldType, Some recVal =>
          let '(fldVal, valerr) := GetValue fieldType recVal in
          match valerr with
          | Some ve =>
              handle (Some (FieldParseError (rd_Name recDef) (fd_Name fldDef)
                ("Error on line " +:+ fmt_d (lineNum st) +:+
                 " getting field value: " +:+ Error ve)))
          | None => mret tt
          end;;
          build_Fields recDef recVals (S i) rest
            (fields ++ [ {| fld_Name := fd_Name fldDef;
                            fld_TypeName := fd_TypeName fldDef;
                            fld_Value := fldVal |} ])
      | _, _ => panic
      end
  end.

(** Lines 152 to 163: a record of the split type sends the split record
    in flight, if any, to the processor and takes its place. *)
Definition install_split (recDef : RecordDefinition) (rec : ptr) : M unit :=
  if decide (rd_Name recDef = SplitOnRecordName p) then
    st ← get;
    match splitRec st with
    | Some r =>
        err ← call_RecordProcessor (Some r);
        match err with
        | Some e => return_ (Some e)
        | None => mret tt
        end
    | None => mret tt
    end;;
    set_splitRec (Some rec);;
    update rec set_isWithinSplit
  else mret tt.

(** Lines 164 to 187: the record is attached to the last record of its
    parent type. *)
Definition attach_parent (recDef : RecordDefinition) (rec : ptr) : M unit :=
  st ← get;
  match lastRecords st !! ParentRecordName recDef with
  | Some parent =>
      parentRec ← deref parent;
      if isWithinSplit parentRec then
        update rec set_isWithinSplit;;
        update parent (append_Children rec)
      else
        update rec (set_Parent (lastRecords st !! ParentRecordName recDef))
  | None =>
      if decide (ParentRecordName recDef ≠ EmptyString) then
        handle (Some (RecordParseError (rd_Name recDef)
          ("No available parent record " +:+ quoted (ParentRecordName recDef)
           +:+ " on line " +:+ fmt_d (lineNum st))))
      else mret tt
  end.

(** Lines 113 to 150: the record reader splits the line, the fields are
    built, and the record becomes the last one of its name. *)
Definition build_record (recDef : RecordDefinition) (data : bytes) : M ptr :=
  match rd_RecordReader recDef with
  | None => panic
  | Some reader =>
      match Read reader data with
      | GoPanic => panic
      | Val (recVals, err) =>
          match err with
          | Some e =>
              handle (Some (RecordParseError (rd_Name recDef)
                ("Error reading from RecordReader: " +:+ Error e)))
          | None => mret tt
          end;;
          fields ← build_Fields recDef recVals 0 (FieldDefinitions recDef) [];
          rec ← new_Record {| Name := rd_Name recDef; Fields := fields;
                              Parent := None; Children := [];
                              isWithinSplit := false |};
          st ← get;
          set_lastRecords (<[rd_Name recDef := rec]> (lastRecords st));;
          mret rec
      end
  end.

(** Lines 113 to 189: what is done with a line once [recDef] matched
    it. *)
Definition process_record (recDef : RecordDefinition) (data : bytes) : M unit :=
  rec ← build_record recDef data;
  install_split recDef rec;;
  attach_parent recDef rec.

(** Lines 104 to 190: the loop over the record definitions for one
    line; [break] after the first definition that matches. *)
Fixpoint scan_definitions (recDefs : list RecordDefinition) (data : bytes) : M unit :=
  match recDefs with
  | [] => mret tt
  | recDef :: rest =>
      let '(matched, err) := Match recDef data in
      handle (ConfigurationError err);;
      if matched then process_record recDef data
      else scan_definitions rest data
  end.

(** One turn of the loop over the lines. *)
Definition scan_line (data : bytes) : M unit :=
  incr_lineNum;; scan_definitions (RecordDefinitions p) data.

(** Lines 102 to 191: [for scanner.Scan()], over the slices that
    [scanner.Bytes()] returns. *)
Fixpoint scan_lines (source : list bytes) : M unit :=
  match source with
  | [] => mret tt
  | data :: rest => scan_line data;; scan_lines rest
  end.

(** Line 193: [return p.ErrorHandler(p.RecordProcessor(splitRec))]. *)
Definition send_last : M unit :=
  st ← get;
  err ← call_RecordProcessor (splitRec st);
  err' ← call_ErrorHandler err;
  return_ err'.

Definition Parse_from (st : State) (source : list bytes) : Result unit :=
  (scan_lines source;; send_last) st.

Definition Parse (source : list bytes) : Result unit :=
  Parse_from initial source.

(** ** What the statements about [Parse] are made of *)

(** The calls that [install_split] adds to the log. *)
Definition handed_over (recDef : RecordDefinition) (st : State) : list Event :=
  if decide (rd_Name recDef = SplitOnRecordName p) then
    match splitRec st with
    | Some r => [CallRecordProcessor (Some r)]
    | None => []
    end
  else [].

(** The records of the split type on a heap, in the order they were
    built. *)
Definition split_records (h : Heap) : list ptr :=
  filter (fun q => Name <$> h !! q = Some (SplitOnRecordName p)) (seq 0 (length h)).

(** What holds between two lines: the last record of each name is a record
    of that name, every record built is the last of its name or was
    followed by one, the split record is the last record of the split name,
    and the records of the split type are those sent to the processor, in
    order and once each, followed by the split record in flight. *)
Record between_lines (st : State) : Prop :=
  { names_right : ∀ k q, lastRecords st !! k = Some q → Name <$> heap st !! q = Some k;
    all_named : ∀ q r, heap st !! q = Some r → is_Some (lastRecords st !! Name r);
    split_last : lastRecords st !! SplitOnRecordName p = splitRec st;
    sent_once : ∃ sent, processed (calls st) = Some <$> sent ∧
                  sent ++ option_list (splitRec st) = split_records (heap st) }.

(** The isolation that is claimed: once [root] was sent, a later line
    leaves every record of its unit as it is. *)
Definition unit_isolated : Prop :=
  ∀ before data st root q,
    scan_lines before initial = Next tt st →
    Some root ∈ processed (calls st) → in_unit (heap st) root q →
    heap (final_state (scan_line data st)) !! q = heap st !! q.

(** The definition is tried on the line and does not match, and the error
    handler lets the parse go on. *)
Definition misses (data : bytes) (recDef : RecordDefinition) : Prop :=
  (Match recDef data).1 = false ∧
  p_ErrorHandler p (ConfigurationError (Match recDef data).2) = None.

(** The definition matches the line, and the error handler lets the parse
    go on. *)
Definition hits (data : bytes) (recDef : RecordDefinition) : Prop :=
  (Match recDef data).1 = true ∧
  p_ErrorHandler p (ConfigurationError (Match recDef data).2) = None.

(** The state after the definitions [recDefs] were tried on the line: the
    error handler was called with the outcome of each match. *)
Definition tried (recDefs : list RecordDefinition) (data : bytes) (st : State) : State :=
  foldl (fun st' recDef =>
           logged (CallErrorHandler
                     (ConfigurationError (Match recDef data).2)) st')
        st recDefs.

(** What is claimed of a line whose definition names a parent type of which
    no record was built on the lines before: the error handler is called
    with the [RecordParseError] that names the parent type and the line. *)
Definition missing_parent_reported : Prop :=
  ∀ before data pre recDef post st rec st1 st2,
    scan_lines before initial = Next tt st →
    RecordDefinitions p = pre ++ recDef :: post →
    Forall (misses data) pre → hits data recDef →
    ParentRecordName recDef ≠ EmptyString →
    (∀ q r, heap st !! q = Some r → Name r ≠ ParentRecordName recDef) →
    build_record recDef data
      (tried (pre ++ [recDef]) data (with_lineNum (S (lineNum st)) st)) = Next rec st1 →
    install_split recDef rec st1 = Next tt st2 →
    calls (final_state (scan_line data st))
      = calls st2 ++ [CallErrorHandler (Some (no_parent_error recDef (S (length before))))].

End Engine.

(** ** An example schema *)

(** Stand-in for [regexp.Match] in the examples: a pattern [^lit] matches
    the lines that start with [lit]; any other pattern does not compile. *)
Definition prefix_Match (pattern : string) (b : list byte) : bool * option error :=
  match pattern with
  | String c lit =>
      if decide (c = ascii_of_nat 94)
      then (bool_decide (String.list_byte_of_string lit `prefix_of` b), None)
      else (false, Some (errorString "error parsing regexp"))
  | EmptyString => (true, None)
  end.

(** The invoice schema of the package's tests, with fixed-width readers
    throughout: headers [010], lines [030], distributions [033]. *)
Definition string_field (name : string) : FieldDefinition :=
  {| fd_Name := name; fd_TypeName := "String"; fd_FieldType := Some StringFieldType |}.

Definition InvoiceHeader : RecordDefinition :=
  {| rd_Name := "InvoiceHeader"; MatchExpression := "^010";
     ReaderName := EmptyString;
     rd_RecordReader := Some (FixedWidth {| Coordinates := [Coord 0 3; Coord 3 8] |});
     ParentRecordName := EmptyString;
     FieldDefinitions := [string_field "RecordID"; string_field "InvoiceNumber"] |}.

Definition InvoiceLine : RecordDefinition :=
  {| rd_Name := "InvoiceLine"; MatchExpression := "^030";
     ReaderName := EmptyString;
     rd_RecordReader := Some (FixedWidth {| Coordinates := [Coord 0 3; Coord 3 7] |});
     ParentRecordName := "InvoiceHeader";
     FieldDefinitions := [string_field "RecordID"; string_field "LineNumber"] |}.

Definition InvoiceLineDist : RecordDefinition :=
  {| rd_Name := "InvoiceLineDist"; MatchExpression := "^033";
     ReaderName := EmptyString;
     rd_RecordReader := Some (FixedWidth {| Coordinates := [Coord 0 3; Coord 3 13] |});
     ParentRecordName := "InvoiceLine";
     FieldDefinitions := [string_field "RecordID"; string_field "Account"] |}.

Definition no_processor : RecordProcessor := fun _ _ => None.

Definition invoices (handler : ErrorHandler) : Parser :=
  {| RecordDefinitions := [InvoiceHeader; InvoiceLine; InvoiceLineDist];
     SplitOnRecordName := "InvoiceHeader";
     p_RecordProcessor := no_processor;
     p_ErrorHandler := handler |}.

Definition lines (l : list string) : list bytes := bytes_of_string <$> l.

(** ** JSON documents *)

(** A decoded JSON text; a [json.RawMessage] holds one. *)
#[warnings="-register-all"] Inductive json : Type :=
| JNull
| JBool (b : bool)
| JNumber (n : Z)
| JString (s : string)
| JArray (items : list json)
| JObject (members : list (string * json)).

(** [json.Unmarshal(data, &m)] for a nil [map[string]json.RawMessage]:
    an object gives its members (of two equal keys the later one stays),
    [null] leaves the map nil, anything else is a type error. *)
Definition Unmarshal_map (data : json) : error + gmap string json :=
  match data with
  | JObject members => inr (list_to_map (reverse members))
  | JNull => inr ∅
  | _ => inl (errorString "json: cannot unmarshal value into Go value of type map[string]json.RawMessage")
  end.

(** [json.Unmarshal(data, target)] for a [*string]: [null] leaves the
    target as it is. *)
Definition Unmarshal_string (data : json) (target : string) : error + string :=
  match data with
  | JString s => inr s
  | JNull => inr target
  | _ => inl (errorString "json: cannot unmarshal value into Go value of type string")
  end.

(** ** Unmarshal helpers *)

Definition mustUnmarshalString (rawMap : gmap string json) (fieldName : string)
           (target : string) : error + string :=
  match rawMap !! fieldName with
  | None => inl (MissingFieldError
             ("Error unmarshalling missing required field " +:+ quoted fieldName))
  | Some rawName => Unmarshal_string rawName target
  end.

Definition unmarshalString (rawMap : gmap string json) (fieldName : string)
           (target : string) : error + string :=
  match mustUnmarshalString rawMap fieldName target with
  | inl (MissingFieldError _) => inr target
  | inl err => inl err
  | inr s => inr s
  end.

(** ** definitions.go: the registries and the decoding of definitions *)

Definition RecordReaderUnmarshalFunc : Type :=
  json → option RecordReader * option error.

(** The argument of a [FieldTypeUnmarshalFunc] is [rawFieldDef["FieldType"]]:
    [None] when the key is missing (the empty raw message). *)
Definition FieldTypeUnmarshalFunc : Type :=
  option json → option FieldType * option error.

(** Decoding an array element by element, up to the first error. *)
Fixpoint Unmarshal_items {A} (f : json → error + A) (items : list json)
  : error + list A :=
  match items with
  | [] => inr []
  | item :: rest =>
      match f item with
      | inl err => inl err
      | inr a =>
          match Unmarshal_items f rest with
          | inl err => inl err
          | inr l => inr (a :: l)
          end
      end
  end.

Section Schema.

(** The two package-level maps, as they are when a schema is loaded. *)
Variable RecordReaderRegistry : gmap string RecordReaderUnmarshalFunc.
Variable FieldTypeRegistry : gmap string FieldTypeUnmarshalFunc.

Definition GetRecordReaderUnmarshalFunc (name : string)
  : error + RecordReaderUnmarshalFunc :=
  match RecordReaderRegistry !! name with
  | None => inl (errorString
             ("No RecordReader named " +:+ quoted name +:+ " exists in registry"))
  | Some readerFunc => inr readerFunc
  end.

Definition GetFieldTypeUnmarshalFunc (name : string)
  : error + FieldTypeUnmarshalFunc :=
  match FieldTypeRegistry !! name with
  | None => inl (errorString
             ("No FieldType named " +:+ quoted name +:+ " exists in registry"))
  | Some typeFunc => inr typeFunc
  end.

(** [FieldDefinition.UnmarshalJSON], on a zero [FieldDefinition]. *)
Definition FieldDefinition_UnmarshalJSON (data : json) : error + FieldDefinition :=
  match Unmarshal_map data with
  | inl err => inl err
  | inr rawFieldDef =>
  match mustUnmarshalString rawFieldDef "Name" EmptyString with
  | inl err => inl err
  | inr name =>
  match mustUnmarshalString rawFieldDef "TypeName" EmptyString with
  | inl err => inl err
  | inr typeName =>
  match GetFieldTypeUnmarshalFunc typeName with
  | inl err => inl (errorString
      ("Error getting field type unmarshal function for FieldType "
       +:+ quoted name +:+ ": " +:+ Error err))
  | inr typeFunc =>
      let '(fieldType, err) := typeFunc (rawFieldDef !! "FieldType") in
      match err with
      | Some e => inl e
      | None => inr {| fd_Name := name; fd_TypeName := typeName;
                       fd_FieldType := fieldType |}
      end
  end end end end.

(** [json.Unmarshal(rawFieldDefinitions, &rd.FieldDefinitions)]. *)
Definition Unmarshal_FieldDefinitions (data : json) : error + list FieldDefinition :=
  match data with
  | JArray items => Unmarshal_items FieldDefinition_UnmarshalJSON items
  | JNull => inr []
  | _ => inl (errorString "json: cannot unmarshal value into Go value of type []sfr.FieldDefinition")
  end.

(** [RecordDefinition.UnmarshalJSON], on a zero [RecordDefinition].  The
    reader name is read into a local variable, and the error of
    [readerFunc] is overwritten by the next assignment to [err]. *)
Definition RecordDefinition_UnmarshalJSON (data : json) : error + RecordDefinition :=
  match Unmarshal_map data with
  | inl err => inl err
  | inr rawRecDef =>
  match mustUnmarshalString rawRecDef "Name" EmptyString with
  | inl err => inl err
  | inr name =>
  match unmarshalString rawRecDef "MatchExpression" EmptyString with
  | inl err => inl err
  | inr matchExpression =>
  match mustUnmarshalString rawRecDef "ReaderName" EmptyString with
  | inl err => inl err
  | inr readerName =>
  match rawRecDef !! "RecordReader" with
  | None => inl (errorString
      ("No RecordReader defined in RecordDefinition " +:+ quoted name))
  | Some rawReader =>
  match Unmarshal_map rawReader with
  | inl err => inl err
  | inr _ =>
  match GetRecordReaderUnmarshalFunc readerName with
  | inl err => inl (errorString
      ("Error getting record reader unmarshal function for RecordDefinition "
       +:+ quoted name +:+ ": " +:+ Error err))
  | inr readerFunc =>
      let '(recordReader, _) := readerFunc rawReader in
  match unmarshalString rawRecDef "ParentRecordName" EmptyString with
  | inl err => inl err
  | inr parentRecordName =>
  match
    match rawRecDef !! "FieldDefinitions" with
    | Some rawFieldDefinitions => Unmarshal_FieldDefinitions rawFieldDefinitions
    | None => inr []
    end
  with
  | inl err => inl err
  | inr fieldDefinitions =>
      inr {| rd_Name := name; MatchExpression := matchExpression;
             ReaderName := EmptyString; rd_RecordReader := recordReader;
             ParentRecordName := parentRecordName;
             FieldDefinitions := fieldDefinitions |}
  end end end end end end end end end.

(** The schema document that [NewParser] decodes into the [Parser]: its
    split name and the elements of its [RecordDefinitions] array, each
    handed to [RecordDefinition.UnmarshalJSON].  (The elements are taken
    to be JSON values other than [null].) *)
Record SchemaDocument : Type :=
  { doc_SplitOnRecordName : string;
    doc_RecordDefinitions : list json }.

(** [NewParser]: a nil processor does nothing, a nil handler is the
    default one. *)
Definition NewParser (config : SchemaDocument)
           (processor : option RecordProcessor) (handler : option ErrorHandler)
  : error + Parser :=
  match Unmarshal_items RecordDefinition_UnmarshalJSON (doc_RecordDefinitions config) with
  | inl err =>
      match ConfigurationError (Some err) with
      | Some e => inl e
      | None => inl err
      end
  | inr recordDefinitions =>
      inr {| RecordDefinitions := recordDefinitions;
             SplitOnRecordName := doc_SplitOnRecordName config;
             p_RecordProcessor :=
               match processor with
               | None => fun _ _ => None
               | Some f => f
               end;
             p_ErrorHandler :=
               match handler with
               | None => DefaultErrorHandler
               | Some h => h
               end |}
  end.

(** A record definition of the document names the reader [name]. *)
Definition names_reader (data : json) (name : string) : Prop :=
  ∃ members, data = JObject members ∧
    (list_to_map (reverse members) : gmap string json) !! "ReaderName"
      = Some (JString name).

(** A field definition of a record definition of the document names the
    field type [name]. *)
Definition names_field_type (data : json) (name : string) : Prop :=
  ∃ members items item fmembers,
    data = JObject members ∧
    (list_to_map (reverse members) : gmap string json) !! "FieldDefinitions"
      = Some (JArray items) ∧
    item ∈ items ∧ item = JObject fmembers ∧
    (list_to_map (reverse fmembers) : gmap string json) !! "TypeName"
      = Some (JString name).

End Schema.

(** The registrations of the package's [init] functions that are
    embedded: the string field type and the fixed-width reader.  The
    reader's configuration is decoded as [encoding/json] decodes the
    struct from an object with the keys [Coordinates], [Start] and [End]. *)
Definition Unmarshal_int (data : option json) : error + Z :=
  match data with
  | Some (JNumber n) => inr n
  | Some JNull | None => inr 0%Z
  | Some _ => inl (errorString "json: cannot unmarshal value into Go value of type int")
  end.

Definition Unmarshal_Coordinate (data : json) : error + FixedWidthFieldCoordinate :=
  match data with
  | JObject members =>
      let m : gmap string json := list_to_map (reverse members) in
      match Unmarshal_int (m !! "Start"), Unmarshal_int (m !! "End") with
      | inr s, inr e => inr (Coord s e)
      | inl err, _ | _, inl err => inl err
      end
  | JNull => inr (Coord 0 0)
  | _ => inl (errorString "json: cannot unmarshal value into Go value of type sfr.FixedWidthFieldCoordinate")
  end.

Definition Unmarshal_FixedWidthRecordReader (data : json)
  : option RecordReader * option error :=
  let failed (err : error) : option RecordReader * option error :=
    (None, Some (errorString
       ("Unmarshalling FixedWidthRecordReader failed: " +:+ Error err))) in
  match data with
  | JObject members =>
      match (list_to_map (reverse members) : gmap string json) !! "Coordinates" with
      | Some (JArray items) =>
          match Unmarshal_items Unmarshal_Coordinate items with
          | inr coords => (Some (FixedWidth {| Coordinates := coords |}), None)
          | inl err => failed err
          end
      | Some JNull | None => (Some (FixedWidth {| Coordinates := [] |}), None)
      | Some _ => failed (errorString "json: cannot unmarshal value into Go value of type []sfr.FixedWidthFieldCoordinate")
      end
  | JNull => (Some (FixedWidth {| Coordinates := [] |}), None)
  | _ => failed (errorString "json: cannot unmarshal value into Go value of type sfr.FixedWidthRecordReader")
  end.

Definition init_RecordReaderRegistry : gmap string RecordReaderUnmarshalFunc :=
  {[ "FixedWidth" := Unmarshal_FixedWidthRecordReader ]}.

Definition init_FieldTypeRegistry : gmap string FieldTypeUnmarshalFunc :=
  {[ "String" := fun _ => (Some StringFieldType, None) ]}.

(** A parser that goes on after every error, over a definition with two
    fields whose reader yields one value. *)
Definition one_of_two : RecordDefinition :=
  {| rd_Name := "Rec"; MatchExpression := EmptyString; ReaderName := EmptyString;
     rd_RecordReader := Some (FixedWidth {| Coordinates := [Coord 0 1] |});
     ParentRecordName := EmptyString;
     FieldDefinitions := [string_field "A"; string_field "B"] |}.

Definition tolerant : Parser :=
  {| RecordDefinitions := [one_of_two]; SplitOnRecordName := "Rec";
     p_RecordProcessor := no_processor; p_ErrorHandler := fun _ => None |}.

Definition is_Panicked {A} (r : Result A) : bool :=
  match r with
  | Panicked _ => true
  | _ => false
  end.

(** A definition that names its own type as its parent type. *)
Definition Node : RecordDefinition :=
  {| rd_Name := "Node"; MatchExpression := EmptyString; ReaderName := EmptyString;
     rd_RecordReader := Some (FixedWidth {| Coordinates := [Coord 0 1] |});
     ParentRecordName := "Node";
     FieldDefinitions := [string_field "Value"] |}.

Definition nodes : Parser :=
  {| RecordDefinitions := [Node]; SplitOnRecordName := "Root";
     p_RecordProcessor := no_processor; p_ErrorHandler := DefaultErrorHandler |}.

(** Two definitions that both match a header line: the header definition,
    and after it a definition without a match expression. *)
Definition overlapping : Parser :=
  {| RecordDefinitions := [InvoiceHeader; Node]; SplitOnRecordName := "InvoiceHeader";
     p_RecordProcessor := no_processor; p_ErrorHandler := DefaultErrorHandler |}.

(** The definition with two fields under the default error handler. *)
Definition strict : Parser :=
  {| RecordDefinitions := [one_of_two]; SplitOnRecordName := "Rec";
     p_RecordProcessor := no_processor; p_ErrorHandler := DefaultErrorHandler |}.

(** A handler that answers every call, also the call with the nil error,
    with an error. *)
Definition always_stop : ErrorHandler := fun _ => Some (errorString "stop").

(** States of the invoice parser: after a header line, after a header, a
    line and a second header, and in the middle of the second header
    line, when its record has been built. *)
Definition after_header : State :=
  final_state (scan_lines prefix_Match (invoices DefaultErrorHandler)
                 (lines ["010INV01"]) initial).

Definition after_second_header : State :=
  final_state (scan_lines prefix_Match (invoices DefaultErrorHandler)
                 (lines ["010INV01"; "0300001"; "010INV02"]) initial).

Definition second_header_built : State :=
  final_state (build_record (invoices DefaultErrorHandler) InvoiceHeader
                 (bytes_of_string "010INV02")
                 (final_state (scan_lines prefix_Match (invoices DefaultErrorHandler)
                                 (lines ["010INV01"; "0300001"]) initial))).

Definition line_built : State :=
  final_state (build_record (invoices DefaultErrorHandler) InvoiceLine
                 (bytes_of_string "0300001") after_header).

Definition orphan_line_built : State :=
  final_state (build_record (invoices DefaultErrorHandler) InvoiceLine
                 (bytes_of_string "0300001")
                 (tried prefix_Match [InvoiceHeader; InvoiceLine]
                    (bytes_of_string "0300001") (with_lineNum 1 initial))).

(** Schema documents that name a reader, and a field type, that no [init]
    function registers. *)
Definition reader_object : json :=
  JObject [("Coordinates", JArray [JObject [("Start", JNumber 0); ("End", JNumber 3)]])].

Definition unknown_reader_document : SchemaDocument :=
  {| doc_SplitOnRecordName := "Rec";
     doc_RecordDefinitions :=
       [JObject [("Name", JString "Rec"); ("ReaderName", JString "Positional");
                 ("RecordReader", reader_object)]] |}.

Definition unknown_type_document : SchemaDocument :=
  {| doc_SplitOnRecordName := "Rec";
     doc_RecordDefinitions :=
       [JObject [("Name", JString "Rec"); ("ReaderName", JString "FixedWidth");
                 ("RecordReader", reader_object);
                 ("FieldDefinitions",
                  JArray [JObject [("Name", JString "A"); ("TypeName", JString "Money")]])]] |}.

(** A definition with one field whose reader yields two values. *)
Definition two_for_one : RecordDefinition :=
  {| rd_Name := "Rec"; MatchExpression := EmptyString; ReaderName := EmptyString;
     rd_RecordReader := Some (FixedWidth {| Coordinates := [Coord 0 1; Coord 1 2] |});
     ParentRecordName := EmptyString;
     FieldDefinitions := [string_field "A"] |}.

Definition surplus : Parser :=
  {| RecordDefinitions := [two_for_one]; SplitOnRecordName := "Rec";
     p_RecordProcessor := no_processor; p_ErrorHandler := DefaultErrorHandler |}.

(** The state of [strict] on the line [a] when the one value there is has
    been made into a field. *)
Definition one_field_built : State :=
  final_state (build_Fields strict one_of_two ["a"] 0 [string_field "A"] []
                 (tried prefix_Match [one_of_two] (bytes_of_string "a")
                    (with_lineNum 1 initial))).

(** A schema document whose names are registered, and the parser loaded
    from it. *)
Definition known_document : SchemaDocument :=
  {| doc_SplitOnRecordName := "Rec";
     doc_RecordDefinitions :=
       [JObject [("Name", JString "Rec"); ("ReaderName", JString "FixedWidth");
                 ("RecordReader", reader_object);
                 ("FieldDefinitions",
                  JArray [JObject [("Name", JString "A"); ("TypeName", JString "String")]])]] |}.

Definition known_parser : Parser :=
  match NewParser init_RecordReaderRegistry init_FieldTypeRegistry known_document
          None None with
  | inr parser => parser
  | inl _ => strict
  end.

(** ** [Record.GetField] and [Record.FindRecord] *)

(** The zero [Field], which [GetField] returns beside an error. *)
Definition zero_Field : Field :=
  {| fld_Name := EmptyString; fld_TypeName := EmptyString; fld_Value := Nil |}.

(** The loop of [GetField]: the first field of that name. *)
Fixpoint find_Field (fields : list Field) (name : string) : option Field :=
  match fields with
  | [] => None
  | fld :: rest =>
      if decide (fld_Name fld = name) then Some fld else find_Field rest name
  end.

Definition GetField (rec : Record_) (name : string) : Field * option error :=
  match find_Field (Fields rec) name with
  | Some fld => (fld, None)
  | None => (zero_Field,
             Some (errorString ("No Field named " +:+ quoted name
                                +:+ " in Record " +:+ quoted (Name rec))))
  end.

(** How the loop over [matches] ends: every field is there and equal, a
    field differs ([break]), or a field is missing ([return nil]). *)
Inductive Keys : Type :=
| KeysMatched
| KeysDiffer
| KeyMissing.

Section Find.

(** [==] on two [interface{}] values, as [fld != match] compares the field
    values. *)
Variable interface_equal : Value → Value → bool.

(** [fld == match] on two [Field] structs. *)
Definition Field_equal (fld match_ : Field) : bool :=
  bool_decide (fld_Name fld = fld_Name match_) &&
  bool_decide (fld_TypeName fld = fld_TypeName match_) &&
  interface_equal (fld_Value fld) (fld_Value match_).

Fixpoint match_keys (rec : Record_) (matches : list Field) : Keys :=
  match matches with
  | [] => KeysMatched
  | match_ :: rest =>
      match GetField rec (fld_Name match_) with
      | (_, Some _) => KeyMissing
      | (fld, None) =>
          if Field_equal fld match_ then match_keys rec rest else KeysDiffer
      end
  end.

(** The loop over the children: the first child for which the search
    returns a record.  [None] is a search that ran out of fuel. *)
Fixpoint first_found (find : ptr → option (Go (option ptr))) (children : list ptr)
  : option (Go (option ptr)) :=
  match children with
  | [] => Some (Val None)
  | child :: rest =>
      match find child with
      | Some (Val None) => first_found find rest
      | other => other
      end
  end.

(** [rec.FindRecord(recordName, matches)] for a non-nil [rec], by the depth
    of recursion allowed.  A pointer to no cell cannot be followed. *)
Fixpoint FindRecord (fuel : nat) (h : Heap) (rec : ptr) (recordName : string)
         (matches : list Field) : option (Go (option ptr)) :=
  match fuel with
  | 0 => None
  | S fuel' =>
      match h !! rec with
      | None => Some GoPanic
      | Some r =>
          let children :=
            first_found (fun child => FindRecord fuel' h child recordName matches)
                        (Children r) in
          if decide (Name r = recordName) then
            match match_keys r matches with
            | KeyMissing => Some (Val None)
            | KeysMatched => Some (Val (Some rec))
            | KeysDiffer => children
            end
          else children
      end
  end.

(** A record that [FindRecord] looks for. *)
Definition wanted (recordName : string) (matches : list Field) (r : Record_) : Prop :=
  Name r = recordName ∧ match_keys r matches = KeysMatched.

End Find.

Global Instance Value_eq_dec : EqDecision Value.
Proof. solve_decision. Defined.

(** Stand-in for [==] on field values in the examples: exact on nil and on
    strings. *)
Definition same_value (v w : Value) : bool := bool_decide (v = w).

(** ** The shape of the heap that [Parse] builds *)

(** The heap after lines 164 to 179, for the record at [n] and the last
    records [lr]. *)
Definition attached (parentName : string) (n : ptr) (h : Heap) (lr : gmap string ptr)
  : Heap :=
  match lr !! parentName with
  | Some q =>
      match h !! q with
      | Some parentRec =>
          if isWithinSplit parentRec
          then alter (append_Children n) q (alter set_isWithinSplit n h)
          else alter (set_Parent (Some q)) n h
      | None => h
      end
  | None => h
  end.

(** The record that lines 120 to 163 leave at the end of the heap. *)
Definition installed (p : Parser) (recDef : RecordDefinition) (fields : list Field)
  : Record_ :=
  {| Name := rd_Name recDef; Fields := fields; Parent := None; Children := [];
     isWithinSplit := bool_decide (rd_Name recDef = SplitOnRecordName p) |}.

(** A record as it is later on: all is as it was but the children, which
    were added to at the end. *)
Definition grown (r r' : Record_) : Prop :=
  Name r' = Name r ∧ Fields r' = Fields r ∧ Parent r' = Parent r ∧
  isWithinSplit r' = isWithinSplit r ∧ Children r `prefix_of` Children r'.

(** Every record of [h] is in [h'], grown. *)
Definition heap_grown (h h' : Heap) : Prop :=
  ∀ q r, h !! q = Some r → ∃ r', h' !! q = Some r' ∧ grown r r'.

(** The shape of a heap: children are records at their parent's address or
    after it; a record with children is within the split, and so are the
    children, which have no parent pointer; a parent pointer leads to a
    record at or before, outside the split; a record is in at most one
    list of children, once; and a record is within the split when it is of
    the split type or somebody's child, and only then. *)
Record shaped (split : string) (h : Heap) : Prop :=
  { children_later : ∀ (q : nat) r (c : nat), h !! q = Some r → c ∈ Children r →
                       (q ≤ c)%nat ∧ (c < length h)%nat;
    children_within : ∀ q r c, h !! q = Some r → c ∈ Children r →
                        isWithinSplit r = true ∧
                        ∃ rc, h !! c = Some rc ∧ isWithinSplit rc = true ∧
                              Parent rc = None;
    parent_outside : ∀ (c : nat) rc (q : nat), h !! c = Some rc → Parent rc = Some q →
                       (q ≤ c)%nat ∧ ∃ rq, h !! q = Some rq ∧ isWithinSplit rq = false;
    one_parent : ∀ q q' r r' c, h !! q = Some r → h !! q' = Some r' →
                   c ∈ Children r → c ∈ Children r' → q = q';
    children_once : ∀ q r, h !! q = Some r → NoDup (Children r);
    within_split : ∀ c rc, h !! c = Some rc →
                     (isWithinSplit rc = true ↔
                      Name rc = split ∨ ∃ q r, h !! q = Some r ∧ c ∈ Children r) }.

(** No definition names its own type as its parent type. *)
Definition no_own_parent (p : Parser) : Prop :=
  Forall (fun recDef => ParentRecordName recDef ≠ rd_Name recDef) (RecordDefinitions p).

(** Children are records after their parent. *)
Definition forward (h : Heap) : Prop :=
  ∀ (q : nat) r (c : nat), h !! q = Some r → c ∈ Children r →
    (q < c)%nat ∧ (c < length h)%nat.

(** From heap [h] to heap [h'] by one record, built as [new] and placed at
    the end: the records of [h] are as they were, but for the one, if any,
    to whose children the new record was appended ([owner]); the new record
    is then within the split and has no parent pointer, and otherwise it
    has no children and at most a parent pointer to a record outside the
    split. *)
Definition one_more (h h' : Heap) (new : Record_) : Prop :=
  length h' = S (length h) ∧
  ∃ (owner : option nat) rn,
    h' !! length h = Some rn ∧ Name rn = Name new ∧ Fields rn = Fields new ∧
    (∀ q r, h !! q = Some r →
       ∃ r', h' !! q = Some r' ∧ Name r' = Name r ∧ Fields r' = Fields r ∧
             Parent r' = Parent r ∧ isWithinSplit r' = isWithinSplit r ∧
             Children r' = Children r ++ (if decide (owner = Some q) then [length h] else [])) ∧
    match owner with
    | Some q0 =>
        (q0 ≤ length h)%nat ∧ isWithinSplit rn = true ∧ Parent rn = None ∧
        Children rn = (if decide (q0 = length h) then [length h] else []) ∧
        ∃ r0, h' !! q0 = Some r0 ∧ isWithinSplit r0 = true
    | None =>
        Children rn = [] ∧ isWithinSplit rn = isWithinSplit new ∧
        (Parent rn = None ∨
         ∃ q0 r0, Parent rn = Some q0 ∧ (q0 ≤ length h)%nat ∧
                  h' !! q0 = Some r0 ∧ isWithinSplit r0 = false)
    end.

(** The records below address [n] are still there, grown. *)
Definition grown_below (n : nat) : relation State :=
  fun st st' => ∀ (q : nat) r, (q < n)%nat → heap st !! q = Some r →
                  ∃ r', heap st' !! q = Some r' ∧ grown r r'.

(** Every record of the heap is still there, grown. *)
Definition records_grown : relation State :=
  fun st st' => heap_grown (heap st) (heap st').

(** Some record definition matches the line. *)
Definition recognized (regexp_Match : string → list byte → bool * option error)
           (p : Parser) (data : bytes) : bool :=
  existsb (fun recDef => (Match regexp_Match recDef data).1) (RecordDefinitions p).

(** Every call to the error handler so far was a call with the nil
    error. *)
Definition quiet (evs : list Event) : Prop :=
  Forall (fun err => err = None) (handled evs).

(** How a piece of [Parse] ends when an error handed to the handler ends
    the parse: the handler was called with nil errors only, or its last
    call, which is the last call of all, was the one with the error that
    is returned. *)
Definition stops_at_first_error {A} (r : Result A) : Prop :=
  match r with
  | Next _ st | Panicked st => quiet (calls st)
  | Returned err st =>
      quiet (calls st) ∨
      ∃ e evs, err = Some e ∧ calls st = evs ++ [CallErrorHandler (Some e)] ∧ quiet evs
  end.

(** From a quiet log, the piece stops at the first error. *)
Definition stopping {A} (m : M A) : Prop :=
  ∀ st, quiet (calls st) → stops_at_first_error (m st).

(** A record of the definition: it has the definition's name, and a
    field for each field definition, in order, under its name and type
    name. *)
Definition follows (recDef : RecordDefinition) (r : Record_) : Prop :=
  Name r = rd_Name recDef ∧
  field_names (Fields r) = definition_names (FieldDefinitions recDef).

(** The heap follows the schema: every record is a record of one of the
    parser's definitions, and a record with a child, or to which a parent
    pointer leads, has the name that the definition of the other record
    gives as its parent type. *)
Record schema_kept (p : Parser) (h : Heap) : Prop :=
  { record_defined : ∀ q r, h !! q = Some r →
      ∃ recDef, recDef ∈ RecordDefinitions p ∧ follows recDef r;
    child_defined : ∀ q r c, h !! q = Some r → c ∈ Children r →
      ∃ rc recDef, h !! c = Some rc ∧ recDef ∈ RecordDefinitions p ∧
                   follows recDef rc ∧ ParentRecordName recDef = Name r;
    parent_defined : ∀ c rc q, h !! c = Some rc → Parent rc = Some q →
      ∃ rq recDef, h !! q = Some rq ∧ recDef ∈ RecordDefinitions p ∧
                   follows recDef rc ∧ ParentRecordName recDef = Name rq }.

(** The ranges follow one another from [lo] to [hi], without a gap and
    without an overlap. *)
Fixpoint tiled (lo : Z) (coords : list FixedWidthFieldCoordinate) (hi : Z) : Prop :=
  match coords with
  | [] => lo = hi
  | coord :: rest => Start coord = lo ∧ (lo ≤ End coord)%Z ∧ tiled (End coord) rest hi
  end.

(** The range is one that [data[Start:End]] accepts. *)
Definition in_capacity (data : bytes) (coord : FixedWidthFieldCoordinate) : Prop :=
  (0 ≤ Start coord ∧ Start coord ≤ End coord ∧ End coord ≤ Z.of_nat (cap data))%Z.

(** The definition can read the line: it has a record reader, which
    returns on this line, and each of its field definitions has a field
    type. *)
Definition reads (recDef : RecordDefinition) (data : bytes) : Prop :=
  (∃ reader, rd_RecordReader recDef = Some reader ∧ Read reader data ≠ GoPanic) ∧
  Forall (fun fldDef => is_Some (fd_FieldType fldDef)) (FieldDefinitions recDef).

(** The schema can read the line: every definition that matches the line
    can read it. *)
Definition readable (regexp_Match : string → list byte → bool * option error)
           (p : Parser) (data : bytes) : Prop :=
  Forall (fun recDef => (Match regexp_Match recDef data).1 = true → reads recDef data)
         (RecordDefinitions p).

(** The reader function that returns the reader of [f] and never an
    error. *)
Definition without_error (f : RecordReaderUnmarshalFunc) : RecordReaderUnmarshalFunc :=
  fun data => ((f data).1, None).

(** ** The date field type (fieldtypes.go) *)

(** [json.Unmarshal(data, &m)] for a raw message that may be empty, as
    [rawFieldDef["FieldType"]] is when the key is missing. *)
Definition Unmarshal_raw_map (data : option json) : error + gmap string json :=
  match data with
  | None => inl (errorString "unexpected end of JSON input")
  | Some d => Unmarshal_map d
  end.

Section Date.

(** [time.Parse(layout, value)] of the Go standard library. *)
Variable time_Parse : string → string → Value * option error.

Definition DateFieldType (format : string) : FieldType :=
  {| GetValue := time_Parse format |}.

(** The function registered under [Date]: the [Format] key is required;
    the struct is returned also when decoding it fails. *)
Definition Unmarshal_DateFieldType (data : option json) : option FieldType * option error :=
  match Unmarshal_raw_map data with
  | inl err =>
      (None, Some (errorString ("Missing FieldType for Date: " +:+ Error err)))
  | inr rawType =>
      match rawType !! "Format" with
      | None => (None, Some (errorString "Format is required for Date FieldTypes"))
      | Some rawFormat =>
          match Unmarshal_string rawFormat EmptyString with
          | inr format => (Some (DateFieldType format), None)
          | inl err => (Some (DateFieldType EmptyString), Some err)
          end
      end
  end.

End Date.

(** ** More examples *)

(** The state of the invoice parser after a header and a line, and the
    two records on its heap. *)
Definition after_line : State :=
  final_state (scan_lines prefix_Match (invoices DefaultErrorHandler)
                 (lines ["010INV01"; "0300001"]) initial).

Definition header_record : Record_ :=
  default (built InvoiceHeader []) (heap after_line !! 0).

Definition line_record : Record_ :=
  default (built InvoiceLine []) (heap after_line !! 1).

(** Fields to match: a line number. *)
Definition line_number (number : string) : Field :=
  {| fld_Name := "LineNumber"; fld_TypeName := "String"; fld_Value := StringValue number |}.

(** The state of the invoice parser after a header, a line that no
    definition matches, and a line. *)
Definition after_noise : State :=
  final_state (scan_lines prefix_Match (invoices DefaultErrorHandler)
                 (lines ["010INV01"; "999"; "0300001"]) initial).

(** A split type that is its own parent type, and the state after its
    first record. *)
Definition Link : RecordDefinition :=
  {| rd_Name := "Link"; MatchExpression := EmptyString; ReaderName := EmptyString;
     rd_RecordReader := Some (FixedWidth {| Coordinates := [Coord 0 1] |});
     ParentRecordName := "Link";
     FieldDefinitions := [string_field "Value"] |}.

Definition chained : Parser :=
  {| RecordDefinitions := [Link]; SplitOnRecordName := "Link";
     p_RecordProcessor := no_processor; p_ErrorHandler := DefaultErrorHandler |}.

Definition linked : State :=
  final_state (process_record chained Link (bytes_of_string "x") initial).

(** A schema document whose reader configuration does not decode: the
    coordinates are a string.  The document is loaded all the same. *)
Definition careless_document : SchemaDocument :=
  {| doc_SplitOnRecordName := "Rec";
     doc_RecordDefinitions :=
       [JObject [("Name", JString "Rec"); ("ReaderName", JString "FixedWidth");
                 ("RecordReader", JObject [("Coordinates", JString "0-3")])]] |}.

Definition careless_parser : Parser :=
  match NewParser init_RecordReaderRegistry init_FieldTypeRegistry careless_document
          None None with
  | inr parser => parser
  | inl _ => strict
  end.

Definition careless_definition : RecordDefinition :=
  default one_of_two (head (RecordDefinitions careless_parser)).

(** Stand-in for [time.Parse] in the examples: the value as it is. *)
Definition verbatim_Parse (layout value : string) : Value * option error :=
  (StringValue value, None).

Definition dated_FieldTypeRegistry : gmap string FieldTypeUnmarshalFunc :=
  <[ "Date" := Unmarshal_DateFieldType verbatim_Parse ]> init_FieldTypeRegistry.

Definition date_field_document : json :=
  JObject [("Name", JString "InvoiceDate"); ("TypeName", JString "Date");
           ("FieldType", JObject [("Format", JString "2006-01-02")])].

Definition date_field : FieldDefinition :=
  {| fd_Name := "InvoiceDate"; fd_TypeName := "Date";
     fd_FieldType := Some (DateFieldType verbatim_Parse "2006-01-02") |}.

(** * Properties *)

(** ** Running the monad *)

Lemma run_bind {A B} (m : M A) (k : A → M B) st :
  (m ≫= k) st =
  match m st with
  | Next a st' => k a st'
  | Returned err st' => Returned err st'
  | Panicked st' => Panicked st'
  end.
Proof. reflexivity. Qed.

Lemma run_bind_Next {A B} (m : M A) (k : A → M B) st a st' :
  m st = Next a st' → (m ≫= k) st = k a st'.
Proof. intros H. rewrite run_bind, H. reflexivity. Qed.

Lemma bind_Next_inv {A B} (m : M A) (k : A → M B) st b st' :
  (m ≫= k) st = Next b st' → ∃ a st0, m st = Next a st0 ∧ k a st0 = Next b st'.
Proof.
  rewrite run_bind. destruct (m st) as [a st0| |]; try discriminate. eauto.
Qed.

Lemma bind_assoc {A B C} (m : M A) (k : A → M B) (k' : B → M C) st :
  ((m ≫= k) ≫= k') st = (m ≫= (fun a => k a ≫= k')) st.
Proof. rewrite !run_bind. destruct (m st); reflexivity. Qed.

Lemma bind_ext {A B} (m : M A) (k k' : A → M B) st :
  (∀ a st', k a st' = k' a st') → (m ≫= k) st = (m ≫= k') st.
Proof. intros H. rewrite !run_bind. destruct (m st); auto. Qed.

Section Respects.
Context (R : relation State) `{!PreOrder R}.

Lemma respects_ret {A} (a : A) : respects R (mret a : M A).
Proof. intros st. simpl. reflexivity. Qed.

Lemma respects_return {A} err : respects R (return_ err : M A).
Proof. intros st. simpl. reflexivity. Qed.

Lemma respects_panic {A} : respects R (panic : M A).
Proof. intros st. simpl. reflexivity. Qed.

Lemma respects_get : respects R get.
Proof. intros st. simpl. reflexivity. Qed.

Lemma respects_bind {A B} (m : M A) (k : A → M B) :
  respects R m → (∀ a, respects R (k a)) → respects R (m ≫= k).
Proof.
  intros Hm Hk st. rewrite run_bind.
  specialize (Hm st). destruct (m st) as [a st'| |]; simpl in *; try assumption.
  etransitivity; [exact Hm | apply Hk].
Qed.

End Respects.

Global Instance log_grows_preorder : PreOrder log_grows.
Proof.
  split.
  - intros st. unfold log_grows. reflexivity.
  - intros a b c. unfold log_grows. intros. etransitivity; eassumption.
Qed.

(** ** The fixed-width reader *)

Lemma slice_expr_within data lo hi :
  (0 ≤ lo)%Z → (lo ≤ hi)%Z → (hi ≤ Z.of_nat (len data))%Z →
  slice_expr data lo hi =
  Val (take (Z.to_nat (hi - lo)) (drop (Z.to_nat lo) (elems data))).
Proof.
  intros Hlo Hle Hhi. unfold slice_expr, cap, len in *.
  rewrite decide_True by lia. f_equal.
  rewrite drop_app_le by lia.
  rewrite take_app_le; [reflexivity|].
  rewrite length_drop. lia.
Qed.

(** Within the line, [Read] returns the bytes of each range, in the order
    of the coordinates, and no error. *)
Lemma FixedWidthRecordReader_Read_within fwr data :
  Forall (fun c => 0 ≤ Start c ∧ Start c ≤ End c ∧ End c ≤ Z.of_nat (len data))%Z
         (Coordinates fwr) →
  FixedWidthRecordReader_Read fwr data =
  Val ((fun c => String.string_of_list_byte
                   (take (Z.to_nat (End c - Start c))
                         (drop (Z.to_nat (Start c)) (elems data))))
         <$> Coordinates fwr, None).
Proof.
  unfold FixedWidthRecordReader_Read. intros H.
  induction H as [|c cs (H0 & H1 & H2) _ IH]; simpl; [reflexivity|].
  rewrite slice_expr_within by assumption.
  destruct (FixedWidth_values data cs); [|discriminate].
  injection IH as ->. reflexivity.
Qed.

(** [Read] has no path that returns an error: it returns values or
    panics. *)
Lemma FixedWidthRecordReader_Read_no_error fwr data values err :
  FixedWidthRecordReader_Read fwr data = Val (values, err) → err = None.
Proof.
  unfold FixedWidthRecordReader_Read.
  destruct (FixedWidth_values data (Coordinates fwr)); congruence.
Qed.

(** A range reaches past the capacity of the line exactly when [Read]
    panics. *)
Lemma FixedWidthRecordReader_Read_panics fwr data :
  FixedWidthRecordReader_Read fwr data = GoPanic ↔
  Exists (fun c => ¬ (0 ≤ Start c ∧ Start c ≤ End c ∧ End c ≤ Z.of_nat (cap data)))%Z
         (Coordinates fwr).
Proof.
  unfold FixedWidthRecordReader_Read.
  induction (Coordinates fwr) as [|c cs IH]; simpl.
  - split; [discriminate | intros H; inversion H].
  - unfold slice_expr at 1. rewrite Exists_cons. case_decide as Hc.
    + destruct (FixedWidth_values data cs).
      * split; [discriminate|]. intros [?|H]; [tauto|].
        apply IH in H. discriminate.
      * split; [|reflexivity]. intros _. right. apply IH. reflexivity.
    + split; [tauto | reflexivity].
Qed.

(** C7.  On the two-byte line [AB] the reader configured with the range
    (0,3) does not return an error: the slice expression panics when the
    slice has no spare capacity, and with spare capacity the value runs
    past the line into the bytes that follow it in the buffer. *)
Theorem C7_FixedWidth_Read_past_line :
  FixedWidthRecordReader_Read {| Coordinates := [Coord 0 3] |}
    (bytes_of_string "AB") = GoPanic
  ∧ FixedWidthRecordReader_Read {| Coordinates := [Coord 0 3] |}
      (Bytes (String.list_byte_of_string "AB") (String.list_byte_of_string "CD"))
    = Val (["ABC"], None).
Proof. split; reflexivity. Qed.

(** ** Going on after an error *)

(** C8.  With a handler that returns nil for every error, a line whose
    reader yields one value for two field definitions is reported as a
    [RecordParseError] and then indexes the values out of range: [Parse]
    panics, and no record is built for the line. *)
Theorem C8_continue_past_end_panics :
  is_Panicked (Parse prefix_Match tolerant (lines ["a"])) = true
  ∧ handled (calls (final_state (Parse prefix_Match tolerant (lines ["a"]))))
    = [None; Some (RecordParseError "Rec" "Past the end of available data on line 1")]
  ∧ heap (final_state (Parse prefix_Match tolerant (lines ["a"]))) = [].
Proof. repeat split; vm_compute; reflexivity. Qed.

(** ** The engine, piece by piece *)

Global Instance core_kept_preorder : PreOrder core_kept.
Proof.
  split.
  - intros st. repeat split. exists []. simpl. by rewrite app_nil_r.
  - intros a b c (h1 & l1 & s1 & n1 & e1 & c1) (h2 & l2 & s2 & n2 & e2 & c2).
    repeat split; try congruence.
    exists (e1 ++ e2). rewrite c2, c1, fmap_app, app_assoc. reflexivity.
Qed.

Lemma core_kept_log_grows st st' : core_kept st st' → log_grows st st'.
Proof.
  intros (_ & _ & _ & _ & errs & Hc). unfold log_grows. rewrite Hc.
  by apply prefix_app_r.
Qed.

Lemma processed_app evs evs' : processed (evs ++ evs') = processed evs ++ processed evs'.
Proof. unfold processed. apply omap_app. Qed.

Lemma processed_handler_calls errs : processed (CallErrorHandler <$> errs) = [].
Proof. induction errs; simpl; auto. Qed.

Lemma core_kept_processed st st' :
  core_kept st st' → processed (calls st') = processed (calls st).
Proof.
  intros (_ & _ & _ & _ & errs & Hc).
  by rewrite Hc, processed_app, processed_handler_calls, app_nil_r.
Qed.

Section EngineProperties.
Context (regexp_Match : string → list byte → bool * option error) (p : Parser).

Lemma handle_run err st :
  handle p err st =
  match p_ErrorHandler p err with
  | Some e => Returned (Some e) (logged (CallErrorHandler err) st)
  | None => Next tt (logged (CallErrorHandler err) st)
  end.
Proof.
  unfold handle, call_ErrorHandler. rewrite !run_bind. simpl.
  destruct (p_ErrorHandler p err); reflexivity.
Qed.

Lemma core_kept_logged err st : core_kept st (logged (CallErrorHandler err) st).
Proof. repeat split. by exists [err]. Qed.

Lemma handle_core_kept err : respects core_kept (handle p err).
Proof.
  intros st. rewrite handle_run.
  destruct (p_ErrorHandler p err); apply core_kept_logged.
Qed.

Lemma build_Fields_core_kept recDef recVals fldDefs i fields :
  respects core_kept (build_Fields p recDef recVals i fldDefs fields).
Proof.
  revert i fields. induction fldDefs as [|fldDef rest IH]; intros i fields; simpl.
  - apply respects_ret; apply _.
  - apply respects_bind; [apply _ | apply respects_get; apply _ | intros st0].
    apply respects_bind; [apply _ | | intros _].
    { case_decide; [apply handle_core_kept | apply respects_ret; apply _]. }
    destruct (fd_FieldType fldDef) as [fieldType|];
      [|apply respects_panic; apply _].
    destruct (recVals !! i) as [recVal|]; [|apply respects_panic; apply _].
    destruct (GetValue fieldType recVal) as [fldVal valerr].
    apply respects_bind; [apply _ | | intros _; apply IH].
    destruct valerr; [apply handle_core_kept | apply respects_ret; apply _].
Qed.

Lemma update_run q f st :
  update q f st =
  match heap st !! q with
  | Some r => Next tt (with_heap (<[q := f r]> (heap st)) st)
  | None => Panicked st
  end.
Proof. reflexivity. Qed.

Lemma call_RecordProcessor_run record st :
  call_RecordProcessor p record st =
  Next (p_RecordProcessor p (heap st) record) (logged (CallRecordProcessor record) st).
Proof. reflexivity. Qed.

(** The loop over the field definitions adds one field for each of them,
    in their order, under their names. *)
Lemma build_Fields_names recDef recVals fldDefs i fields st fields' st' :
  build_Fields p recDef recVals i fldDefs fields st = Next fields' st' →
  field_names fields' = field_names fields ++ definition_names fldDefs.
Proof.
  revert i fields st. induction fldDefs as [|fldDef rest IH]; intros i fields st; simpl.
  - intros [= <- _]. by rewrite app_nil_r.
  - intros E. apply bind_Next_inv in E as (st0 & ? & [= <- <-] & E).
    apply bind_Next_inv in E as ([] & st1 & _ & E).
    destruct (fd_FieldType fldDef) as [fieldType|]; [|discriminate].
    destruct (recVals !! i) as [recVal|]; [|discriminate].
    destruct (GetValue fieldType recVal) as [fldVal valerr].
    apply bind_Next_inv in E as ([] & st2 & _ & E).
    apply IH in E. rewrite E. unfold field_names.
    rewrite fmap_app, <- app_assoc. reflexivity.
Qed.

(** The loop over a list of definitions in two parts. *)
Lemma build_Fields_app recDef recVals fldDefs1 fldDefs2 i fields st :
  build_Fields p recDef recVals i (fldDefs1 ++ fldDefs2) fields st =
  (fields' ← build_Fields p recDef recVals i fldDefs1 fields;
   build_Fields p recDef recVals (i + length fldDefs1) fldDefs2 fields') st.
Proof.
  revert i fields st. induction fldDefs1 as [|fldDef rest IH]; intros i fields st.
  - simpl. rewrite Nat.add_0_r. reflexivity.
  - cbn [app build_Fields length]. rewrite bind_assoc. apply bind_ext. intros st0 s0.
    rewrite bind_assoc. apply bind_ext. intros [] s1.
    destruct (fd_FieldType fldDef) as [fieldType|]; [|reflexivity].
    destruct (recVals !! i) as [recVal|]; [|reflexivity].
    destruct (GetValue fieldType recVal) as [fldVal valerr].
    rewrite bind_assoc. apply bind_ext. intros [] s2.
    rewrite IH. replace (i + S (length rest)) with (S i + length rest) by lia.
    reflexivity.
Qed.

(** Values beyond those that the definitions index are not looked at. *)
Lemma build_Fields_surplus recDef recVals n fldDefs i fields st :
  (i + length fldDefs ≤ n)%nat → (n ≤ length recVals)%nat →
  build_Fields p recDef recVals i fldDefs fields st =
  build_Fields p recDef (take n recVals) i fldDefs fields st.
Proof.
  revert i fields st. induction fldDefs as [|fldDef rest IH]; intros i fields st Hi Hn.
  - reflexivity.
  - cbn [build_Fields length] in *. apply bind_ext. intros st0 s0.
    rewrite length_take_le by assumption.
    rewrite !decide_False by lia.
    apply bind_ext. intros [] s1.
    rewrite lookup_take_lt by lia.
    destruct (fd_FieldType fldDef) as [fieldType|]; [|reflexivity].
    destruct (recVals !! i) as [recVal|]; [|reflexivity].
    destruct (GetValue fieldType recVal) as [fldVal valerr].
    apply bind_ext. intros [] s2. apply IH; lia.
Qed.

(** At an index past the values, the error handler is called with the
    error of line 127; then [Parse] returns what the handler returns, or
    the index is out of range. *)
Lemma build_Fields_past_end recDef recVals fldDef rest i fields st :
  (length recVals ≤ i)%nat →
  let err := RecordParseError (rd_Name recDef)
               ("Past the end of available data on line " +:+ fmt_d (lineNum st)) in
  build_Fields p recDef recVals i (fldDef :: rest) fields st =
  match p_ErrorHandler p (Some err) with
  | Some e => Returned (Some e) (logged (CallErrorHandler (Some err)) st)
  | None => Panicked (logged (CallErrorHandler (Some err)) st)
  end.
Proof.
  intros Hi. cbn [build_Fields]. rewrite run_bind. simpl.
  rewrite decide_True by lia. rewrite run_bind, handle_run.
  destruct (p_ErrorHandler p _); [reflexivity|].
  rewrite (lookup_ge_None_2 recVals i) by assumption.
  destruct (fd_FieldType fldDef); reflexivity.
Qed.

(** After a conversion error that the handler lets pass, the field is built
    with the value that [GetValue] returned. *)
Lemma build_Fields_after_field_error recDef recVals fldDef rest i fields st
      fieldType recVal fldVal ve :
  fd_FieldType fldDef = Some fieldType → recVals !! i = Some recVal →
  GetValue fieldType recVal = (fldVal, Some ve) →
  let err := FieldParseError (rd_Name recDef) (fd_Name fldDef)
               ("Error on line " +:+ fmt_d (lineNum st) +:+
                " getting field value: " +:+ Error ve) in
  p_ErrorHandler p (Some err) = None →
  build_Fields p recDef recVals i (fldDef :: rest) fields st =
  build_Fields p recDef recVals (S i) rest
    (fields ++ [ {| fld_Name := fd_Name fldDef; fld_TypeName := fd_TypeName fldDef;
                    fld_Value := fldVal |} ])
    (logged (CallErrorHandler (Some err)) st).
Proof.
  intros Hft Hval Hget err Hh. cbn [build_Fields]. rewrite run_bind. simpl.
  pose proof (lookup_lt_Some _ _ _ Hval) as Hlt.
  rewrite decide_False by lia. rewrite run_bind. simpl.
  rewrite Hft, Hval, Hget, run_bind, handle_run. fold err. rewrite Hh. reflexivity.
Qed.

Lemma record_built_core_kept recDef st st0 r :
  core_kept st st0 → record_built recDef st0 r → record_built recDef st r.
Proof.
  intros K. destruct r as [rec st1| |]; simpl.
  - intros (-> & fields & stm & K' & Hf & ->). split.
    + destruct K as (-> & _). reflexivity.
    + exists fields, stm. split; [etransitivity; eassumption|].
      split; [exact Hf | reflexivity].
  - intros K'. etransitivity; eassumption.
  - intros K'. etransitivity; eassumption.
Qed.

Lemma build_record_tail recDef recVals st :
  record_built recDef st
    ((fields ← build_Fields p recDef recVals 0 (FieldDefinitions recDef) [];
      rec ← new_Record (built recDef fields);
      st' ← get;
      set_lastRecords (<[rd_Name recDef := rec]> (lastRecords st'));;
      mret rec) st).
Proof.
  rewrite run_bind.
  pose proof (build_Fields_core_kept recDef recVals (FieldDefinitions recDef) 0 [] st) as K.
  destruct (build_Fields p recDef recVals 0 (FieldDefinitions recDef) [] st)
    as [fields stm| |] eqn:EF; simpl in K; try exact K.
  simpl. split.
  - destruct K as (-> & _). reflexivity.
  - exists fields, stm. split; [exact K|].
    split; [exact (build_Fields_names _ _ _ _ _ _ _ _ EF) | reflexivity].
Qed.

Lemma build_record_run recDef data st :
  record_built recDef st (build_record p recDef data st).
Proof.
  unfold build_record.
  destruct (rd_RecordReader recDef) as [reader|]; [|simpl; reflexivity].
  destruct (Read reader data) as [[recVals [e|]]|]; [| |simpl; reflexivity].
  - rewrite run_bind, handle_run.
    destruct (p_ErrorHandler p _); [apply core_kept_logged|].
    eapply record_built_core_kept; [apply core_kept_logged|].
    apply build_record_tail.
  - rewrite run_bind. apply build_record_tail.
Qed.

Lemma install_split_run recDef rec st :
  install_split p recDef rec st =
  if decide (rd_Name recDef = SplitOnRecordName p) then
    match splitRec st with
    | Some r =>
        match p_RecordProcessor p (heap st) (Some r) with
        | Some e => Returned (Some e) (logged (CallRecordProcessor (Some r)) st)
        | None =>
            update rec set_isWithinSplit
              (with_splitRec (Some rec) (logged (CallRecordProcessor (Some r)) st))
        end
    | None => update rec set_isWithinSplit (with_splitRec (Some rec) st)
    end
  else Next tt st.
Proof.
  unfold install_split. case_decide; [|reflexivity].
  rewrite !run_bind. simpl. destruct (splitRec st) as [r|]; [|reflexivity].
  rewrite !run_bind. simpl.
  destruct (p_RecordProcessor p (heap st) (Some r)); reflexivity.
Qed.

Lemma attach_parent_run recDef rec st :
  attach_parent p recDef rec st =
  match lastRecords st !! ParentRecordName recDef with
  | Some parent =>
      match heap st !! parent with
      | Some parentRec =>
          if isWithinSplit parentRec
          then (update rec set_isWithinSplit;; update parent (append_Children rec)) st
          else update rec (set_Parent (Some parent)) st
      | None => Panicked st
      end
  | None =>
      if decide (ParentRecordName recDef ≠ EmptyString)
      then handle p (Some (RecordParseError (rd_Name recDef)
             ("No available parent record " +:+ quoted (ParentRecordName recDef)
              +:+ " on line " +:+ fmt_d (lineNum st)))) st
      else Next tt st
  end.
Proof.
  unfold attach_parent. rewrite run_bind. simpl.
  destruct (lastRecords st !! ParentRecordName recDef) as [parent|] eqn:E;
    [|case_decide; reflexivity].
  rewrite run_bind. unfold deref.
  destruct (heap st !! parent) as [parentRec|]; [|reflexivity].
  destruct (isWithinSplit parentRec); reflexivity.
Qed.

Lemma touched_only_refl T h : touched_only T h h.
Proof. split; [reflexivity | intros q; split; reflexivity]. Qed.

Lemma touched_only_trans T h1 h2 h3 :
  touched_only T h1 h2 → touched_only T h2 h3 → touched_only T h1 h3.
Proof.
  intros [L1 H1] [L2 H2]. split; [congruence|].
  intros q. destruct (H1 q) as [N1 F1], (H2 q) as [N2 F2].
  split; [congruence|]. intros HT. rewrite F2, F1 by assumption. reflexivity.
Qed.

Lemma touched_only_mono (T T' : ptr → Prop) h h' :
  (∀ q, T q → T' q) → touched_only T h h' → touched_only T' h h'.
Proof.
  intros HT [L H]. split; [assumption|]. intros q. destruct (H q) as [N F].
  split; [assumption|]. intros HT'. apply F. intros Hq. apply HT', HT, Hq.
Qed.

Lemma touched_only_insert (T : ptr → Prop) (h : Heap) q r r' :
  h !! q = Some r → Name r' = Name r → T q → touched_only T h (<[q := r']> h).
Proof.
  intros Hq HN HT. split; [apply length_insert|].
  intros q'. destruct (decide (q' = q)) as [->|Hne].
  - split; [|tauto].
    rewrite list_lookup_insert_eq by (eapply lookup_lt_Some; eassumption).
    rewrite Hq. simpl. congruence.
  - rewrite list_lookup_insert_ne by congruence. split; reflexivity.
Qed.

Lemma update_summary (T : ptr → Prop) q f st :
  (∀ r, Name (f r) = Name r) → T q →
  let st' := final_state (update q f st) in
  touched_only T (heap st) (heap st') ∧ lastRecords st' = lastRecords st ∧
  splitRec st' = splitRec st ∧ lineNum st' = lineNum st ∧ calls st' = calls st.
Proof.
  intros Hf HT. rewrite update_run.
  destruct (heap st !! q) as [r|] eqn:E; simpl.
  - repeat split; try reflexivity.
    + apply length_insert.
    + eapply touched_only_insert; eauto.
    + eapply touched_only_insert; eauto.
  - repeat split; try reflexivity.
Qed.

Lemma attach_parent_summary recDef rec st :
  let st' := final_state (attach_parent p recDef rec st) in
  touched_only (fun q => q = rec ∨ lastRecords st !! ParentRecordName recDef = Some q)
               (heap st) (heap st') ∧
  lastRecords st' = lastRecords st ∧ splitRec st' = splitRec st ∧
  lineNum st' = lineNum st ∧
  ∃ errs, calls st' = calls st ++ (CallErrorHandler <$> errs).
Proof.
  rewrite attach_parent_run.
  set (T := fun q => q = rec ∨ lastRecords st !! ParentRecordName recDef = Some q).
  assert (Hrefl : ∀ st0 : State,
    touched_only T (heap st0) (heap st0) ∧ lastRecords st0 = lastRecords st0 ∧
    splitRec st0 = splitRec st0 ∧ lineNum st0 = lineNum st0 ∧
    ∃ errs, calls st0 = calls st0 ++ (CallErrorHandler <$> errs)).
  { intros st0. repeat split; try apply touched_only_refl.
    exists []. simpl. by rewrite app_nil_r. }
  destruct (lastRecords st !! ParentRecordName recDef) as [parent|] eqn:E.
  - destruct (heap st !! parent) as [parentRec|] eqn:Ep; [|apply Hrefl].
    destruct (isWithinSplit parentRec).
    + rewrite run_bind.
      pose proof (update_summary T rec set_isWithinSplit st) as U1.
      destruct (update rec set_isWithinSplit st) as [[] st1| |] eqn:E1;
        simpl in U1 |- *.
      * destruct U1 as (H1 & L1 & S1 & N1 & C1); [reflexivity | by left |].
        pose proof (update_summary T parent (append_Children rec) st1) as U2.
        simpl in U2. destruct U2 as (H2 & L2 & S2 & N2 & C2);
          [reflexivity | by right |].
        repeat split; try congruence.
        -- destruct H1, H2; congruence.
        -- eapply touched_only_trans; eassumption.
        -- eapply touched_only_trans; eassumption.
        -- exists []. simpl. rewrite app_nil_r. congruence.
      * rewrite update_run in E1. destruct (heap st !! rec); discriminate.
      * rewrite update_run in E1. destruct (heap st !! rec); [discriminate|].
        injection E1 as <-. apply Hrefl.
    + pose proof (update_summary T rec (set_Parent (Some parent)) st) as U1.
      simpl in U1. destruct U1 as (H1 & L1 & S1 & N1 & C1); [reflexivity | by left |].
      repeat split; try assumption; try apply H1.
      exists []. simpl. rewrite app_nil_r. congruence.
  - case_decide; [|apply Hrefl].
    pose proof (handle_core_kept (Some (RecordParseError (rd_Name recDef)
      ("No available parent record " +:+ quoted (ParentRecordName recDef)
       +:+ " on line " +:+ fmt_d (lineNum st)))) st) as (Hh & Hl & Hs & Hn & Hc).
    repeat split; try assumption.
    + rewrite Hh. reflexivity.
    + rewrite Hh. reflexivity.
    + rewrite Hh. reflexivity.
Qed.

Lemma install_split_summary recDef rec st recR :
  heap st !! rec = Some recR →
  let r := install_split p recDef rec st in
  let st' := final_state r in
  touched_only (fun q => q = rec) (heap st) (heap st') ∧
  lastRecords st' = lastRecords st ∧ lineNum st' = lineNum st ∧
  calls st' = calls st ++ handed_over p recDef st ∧
  match r with
  | Next _ _ =>
      splitRec st' = (if decide (rd_Name recDef = SplitOnRecordName p)
                      then Some rec else splitRec st)
  | Returned err _ =>
      rd_Name recDef = SplitOnRecordName p ∧ heap st' = heap st ∧
      splitRec st' = splitRec st ∧
      ∃ r0 e, splitRec st = Some r0 ∧ err = Some e ∧
              p_RecordProcessor p (heap st) (Some r0) = Some e
  | Panicked _ => False
  end.
Proof.
  intros Hrec. rewrite install_split_run. unfold handed_over.
  assert (U : ∀ st0 : State, heap st0 = heap st →
    ∃ st1, update rec set_isWithinSplit st0 = Next tt st1 ∧
      touched_only (fun q => q = rec) (heap st) (heap st1) ∧
      lastRecords st1 = lastRecords st0 ∧ splitRec st1 = splitRec st0 ∧
      lineNum st1 = lineNum st0 ∧ calls st1 = calls st0).
  { intros st0 E. rewrite update_run, E, Hrec. eexists. split; [reflexivity|].
    simpl. split; [|repeat split; reflexivity].
    by apply (touched_only_insert (fun q => q = rec) (heap st) rec recR). }
  case_decide as Hsplit.
  - destruct (splitRec st) as [r0|] eqn:Es.
    + destruct (p_RecordProcessor p (heap st) (Some r0)) as [e|] eqn:Ep; simpl.
      * repeat split; try apply touched_only_refl; eauto.
      * destruct (U (with_splitRec (Some rec) (logged (CallRecordProcessor (Some r0)) st)))
          as (st1 & -> & T & L & S & N & C); [reflexivity|].
        simpl. repeat split; try apply T; assumption.
    + destruct (U (with_splitRec (Some rec) st)) as (st1 & -> & T & L & S & N & C);
        [reflexivity|].
      simpl. repeat split; try apply T; try assumption.
      rewrite C. simpl. by rewrite app_nil_r.
  - simpl. repeat split; try apply touched_only_refl. by rewrite app_nil_r.
Qed.

(** What [process_record] does to the state.  In every outcome the cells
    that existed keep their names, and a cell that is not the last record
    of the parent type is not written.  When it completes, one cell has
    been added, under the definition's name. *)
Lemma process_record_summary recDef data st :
  let r := process_record p recDef data st in
  let st' := final_state r in
  let rec := length (heap st) in
  (lineNum st' = lineNum st ∧ log_grows st st') ∧
  (∀ q, q < rec →
     Name <$> heap st' !! q = Name <$> heap st !! q ∧
     (lastRecords st !! ParentRecordName recDef ≠ Some q →
      heap st' !! q = heap st !! q)) ∧
  (∀ u st'', r = Next u st'' →
     length (heap st') = S rec ∧
     Name <$> heap st' !! rec = Some (rd_Name recDef) ∧
     lastRecords st' = <[rd_Name recDef := rec]> (lastRecords st) ∧
     splitRec st' = (if decide (rd_Name recDef = SplitOnRecordName p)
                     then Some rec else splitRec st) ∧
     processed (calls st') = processed (calls st) ++ processed (handed_over p recDef st)).
Proof.
  unfold process_record. rewrite run_bind.
  pose proof (build_record_run recDef data st) as B.
  destruct (build_record p recDef data st) as [rec st1| |]; simpl in B.
  2,3: pose proof (core_kept_log_grows _ _ B) as G;
       destruct B as (Hh & _ & _ & Hn & _); simpl; rewrite Hh;
       split; [split; assumption|];
       split; [intros; split; reflexivity | discriminate].
  destruct B as (-> & fields & stm & K & _ & Est1).
  pose proof (core_kept_processed _ _ K) as Kp.
  pose proof (core_kept_log_grows _ _ K) as Kg.
  destruct K as (Hh & Hl & Hs & Hn & _).
  assert (Hrec : heap st1 !! length (heap st) = Some (built recDef fields)).
  { rewrite Est1. simpl. rewrite Hh. apply list_lookup_middle. reflexivity. }
  assert (Hold : ∀ q, q < length (heap st) → heap st1 !! q = heap st !! q).
  { intros q Hq. rewrite Est1. simpl. rewrite Hh. by apply lookup_app_l. }
  assert (Hlen : length (heap st1) = S (length (heap st))).
  { rewrite Est1. simpl. rewrite length_app, Hh. simpl. lia. }
  assert (Hl1 : lastRecords st1 = <[rd_Name recDef := length (heap st)]> (lastRecords st)).
  { rewrite Est1. simpl. rewrite Hl. reflexivity. }
  assert (Hs1 : splitRec st1 = splitRec st) by (rewrite Est1; exact Hs).
  assert (Hn1 : lineNum st1 = lineNum st) by (rewrite Est1; exact Hn).
  assert (Hg1 : log_grows st st1) by (rewrite Est1; exact Kg).
  assert (Hc1 : processed (calls st1) = processed (calls st)) by (rewrite Est1; exact Kp).
  clear Est1 Hh Hl Hs Hn Kp Kg stm.
  rewrite run_bind.
  pose proof (install_split_summary recDef _ st1 _ Hrec) as I. cbv zeta in I.
  destruct (install_split p recDef (length (heap st)) st1) as [[] st2| |] eqn:EI;
    simpl in I; destruct I as (T1 & L1 & N1 & C1 & S1); [| |contradiction].
  - pose proof (attach_parent_summary recDef (length (heap st)) st2) as A.
    cbv zeta in A. destruct A as (T2 & L2 & S2 & N2 & errs & C2).
    split; [|split].
    + split; [congruence|]. unfold log_grows in *.
      rewrite C2, C1. etransitivity; [exact Hg1|].
      rewrite <- app_assoc. by apply prefix_app_r.
    + intros q Hq. destruct T1 as [_ T1], T2 as [_ T2].
      destruct (T1 q) as [N1q F1], (T2 q) as [N2q F2]. split.
      * rewrite N2q, N1q, Hold by assumption. reflexivity.
      * intros Hp. rewrite F2, F1, Hold; [reflexivity | assumption | lia |].
        intros [->|Hq']; [lia|]. rewrite L1, Hl1 in Hq'.
        rewrite lookup_insert in Hq'. case_decide; [|contradiction].
        injection Hq' as <-. lia.
    + intros _ _ _. destruct T1 as [Len1 T1], T2 as [Len2 T2].
      repeat split.
      * rewrite Len2, Len1. exact Hlen.
      * destruct (T1 (length (heap st))) as [N1q _],
                 (T2 (length (heap st))) as [N2q _].
        rewrite N2q, N1q, Hrec. reflexivity.
      * rewrite L2, L1. exact Hl1.
      * rewrite S2, S1, Hs1. reflexivity.
      * rewrite C2, C1, !processed_app, processed_handler_calls, app_nil_r, Hc1.
        unfold handed_over. rewrite Hs1. reflexivity.
  - simpl. split; [|split; [|discriminate]].
    + split; [congruence|]. unfold log_grows in *. rewrite C1.
      etransitivity; [exact Hg1|]. by apply prefix_app_r.
    + intros q Hq. destruct S1 as (_ & Hhe & _). rewrite Hhe, Hold by assumption.
      split; reflexivity.
Qed.

(** ** The loop over the definitions and over the lines *)

(** Scanning a line ends in one of two ways: no definition was applied and
    only the error handler was called, or one definition that matched was
    applied after calls to the error handler only. *)
Lemma scan_definitions_run recDefs data st :
  let r := scan_definitions regexp_Match p recDefs data st in
  core_kept st (final_state r)
  ∨ ∃ recDef st0, recDef ∈ recDefs ∧ core_kept st st0 ∧
      (Match regexp_Match recDef data).1 = true ∧
      r = process_record p recDef data st0.
Proof.
  revert st. induction recDefs as [|recDef rest IH]; intros st; simpl.
  - left. reflexivity.
  - destruct (Match regexp_Match recDef data) as [matched err] eqn:EM.
    rewrite run_bind, handle_run.
    pose proof (core_kept_logged (ConfigurationError err) st) as K.
    destruct (p_ErrorHandler p (ConfigurationError err)); simpl.
    + left. exact K.
    + destruct matched.
      * right. exists recDef, (logged (CallErrorHandler (ConfigurationError err)) st).
        split; [by left|]. split; [exact K|]. split; [by rewrite EM | reflexivity].
      * destruct (IH (logged (CallErrorHandler (ConfigurationError err)) st))
          as [K'|(d & st0 & Hd & K' & HM & E)].
        -- left. etransitivity; eassumption.
        -- right. exists d, st0. split; [by right|].
           split; [etransitivity; eassumption|]. split; assumption.
Qed.

Lemma filter_agree {A} (P1 P2 : A → Prop)
    `{!∀ x, Decision (P1 x), !∀ x, Decision (P2 x)} (l : list A) :
  (∀ x, x ∈ l → (P1 x ↔ P2 x)) → filter P1 l = filter P2 l.
Proof.
  induction l as [|a l IH]; intros Hiff; [reflexivity|].
  rewrite !filter_cons. rewrite IH by (intros; apply Hiff; by right).
  assert (Ha : P1 a ↔ P2 a) by (apply Hiff; by left).
  destruct (decide (P1 a)), (decide (P2 a)); try reflexivity; tauto.
Qed.

Lemma split_records_snoc (h h' : Heap) :
  length h' = S (length h) →
  (∀ q, q < length h → Name <$> h' !! q = Name <$> h !! q) →
  split_records p h' =
  split_records p h ++
  (if decide (Name <$> h' !! length h = Some (SplitOnRecordName p))
   then [length h] else []).
Proof.
  intros Hlen Hn. unfold split_records. rewrite Hlen, seq_S, filter_app. simpl.
  f_equal. apply filter_agree. intros q Hq. apply elem_of_seq in Hq.
  rewrite Hn by lia. reflexivity.
Qed.

Lemma between_lines_initial : between_lines p initial.
Proof.
  split; simpl.
  - intros k q H. rewrite lookup_empty in H. discriminate.
  - intros q r H. discriminate.
  - apply lookup_empty.
  - exists []. split; reflexivity.
Qed.

Lemma between_lines_core_kept st st' :
  core_kept st st' → between_lines p st → between_lines p st'.
Proof.
  intros K [Hnames Hall Hlast Hsent]. pose proof (core_kept_processed _ _ K) as Kp.
  destruct K as (Hh & Hl & Hs & _).
  split; rewrite ?Hh, ?Hl, ?Hs, ?Kp; assumption.
Qed.

Lemma between_lines_lineNum n st : between_lines p st → between_lines p (with_lineNum n st).
Proof. intros [Hnames Hall Hlast Hsent]. split; assumption. Qed.

Lemma process_record_between_lines recDef data st st' :
  process_record p recDef data st = Next tt st' →
  between_lines p st → between_lines p st'.
Proof.
  intros E [Hnames Hall Hlast (sent & Hp & Hs)].
  pose proof (process_record_summary recDef data st) as (_ & F & C).
  rewrite E in F, C. simpl in F, C.
  destruct (C tt st' eq_refl) as (Hlen & Hnew & Hl & Hsp & Hc). clear C.
  assert (Hsnoc := split_records_snoc (heap st) (heap st') Hlen
                     (fun q Hq => proj1 (F q Hq))).
  rewrite Hnew in Hsnoc.
  split.
  - intros k q. rewrite Hl, lookup_insert.
    destruct (decide (rd_Name recDef = k)) as [Hk|Hk].
    + intros [= <-]. rewrite Hnew. congruence.
    + intros Hq. pose proof (Hnames _ _ Hq) as Hn.
      assert (Hlt : q < length (heap st)).
      { apply lookup_lt_is_Some. destruct (heap st !! q); [eauto | discriminate]. }
      rewrite (proj1 (F q Hlt)). exact Hn.
  - intros q r Hq. rewrite Hl. apply lookup_insert_is_Some'.
    destruct (decide (q = length (heap st))) as [->|Hne].
    + left. rewrite Hq in Hnew. simpl in Hnew. congruence.
    + right. assert (Hlt : q < length (heap st)).
      { apply lookup_lt_Some in Hq. lia. }
      pose proof (proj1 (F q Hlt)) as Hn. rewrite Hq in Hn. simpl in Hn.
      destruct (heap st !! q) as [r0|] eqn:E0; [|discriminate].
      simpl in Hn. injection Hn as Hn. rewrite Hn. eapply Hall. eassumption.
  - rewrite Hl, Hsp, lookup_insert.
    destruct (decide (rd_Name recDef = SplitOnRecordName p)); [reflexivity|].
    exact Hlast.
  - rewrite Hc, Hsp, Hsnoc, Hp, <- Hs. unfold handed_over.
    destruct (decide (rd_Name recDef = SplitOnRecordName p)) as [Hk|Hk].
    + rewrite decide_True by congruence.
      exists (sent ++ option_list (splitRec st)). split.
      * rewrite fmap_app. f_equal. destruct (splitRec st); reflexivity.
      * reflexivity.
    + rewrite decide_False by congruence.
      exists sent. simpl. rewrite !app_nil_r. split; reflexivity.
Qed.

Lemma scan_line_between_lines data st st' :
  scan_line regexp_Match p data st = Next tt st' →
  between_lines p st → between_lines p st'.
Proof.
  unfold scan_line. rewrite run_bind. simpl. intros E I.
  apply (between_lines_lineNum (S (lineNum st))) in I.
  destruct (scan_definitions_run (RecordDefinitions p) data
              (with_lineNum (S (lineNum st)) st)) as [K|(d & st0 & _ & K & _ & E')].
  - rewrite E in K. simpl in K. eapply between_lines_core_kept; eassumption.
  - rewrite E in E'. symmetry in E'.
    eapply process_record_between_lines; [eassumption|].
    eapply between_lines_core_kept; eassumption.
Qed.

Lemma scan_lines_between_lines source st st' :
  scan_lines regexp_Match p source st = Next tt st' →
  between_lines p st → between_lines p st'.
Proof.
  revert st. induction source as [|data rest IH]; intros st; simpl.
  - intros [= ->]. trivial.
  - rewrite run_bind.
    destruct (scan_line regexp_Match p data st) as [[] st1| |] eqn:E; try discriminate.
    intros E' I. eapply IH; [eassumption|].
    eapply scan_line_between_lines; eassumption.
Qed.

(** A record that was sent to the processor is out of the engine's reach:
    it is not the split record and not the last record of any name. *)
Lemma sent_out_of_reach st q :
  between_lines p st → Some q ∈ processed (calls st) →
  q < length (heap st) ∧ splitRec st ≠ Some q ∧ ∀ k, lastRecords st !! k ≠ Some q.
Proof.
  intros [Hnames Hall Hlast (sent & Hp & Hs)] Hq. rewrite Hp in Hq.
  apply list_elem_of_fmap in Hq as (q' & [= <-] & Hq).
  assert (ND : NoDup (sent ++ option_list (splitRec st))).
  { rewrite Hs. apply NoDup_filter, NoDup_seq. }
  assert (Hin : q ∈ split_records p (heap st)).
  { rewrite <- Hs. apply elem_of_app. by left. }
  apply list_elem_of_filter in Hin as [Hname Hlt]. apply elem_of_seq in Hlt.
  apply NoDup_app in ND as (_ & Hdisj & _).
  assert (Hsp : splitRec st ≠ Some q).
  { intros Hsp. apply (Hdisj q Hq). rewrite Hsp. by left. }
  split; [lia|]. split; [exact Hsp|].
  intros k Hk. pose proof (Hnames _ _ Hk) as Hn. rewrite Hname in Hn.
  injection Hn as <-. rewrite Hlast in Hk. contradiction.
Qed.

Lemma processed_log_grows st st' x :
  log_grows st st' → x ∈ processed (calls st) → x ∈ processed (calls st').
Proof.
  intros [k Hk] Hx. rewrite Hk, processed_app. apply elem_of_app. by left.
Qed.

Lemma scan_line_summary data st :
  let st' := final_state (scan_line regexp_Match p data st) in
  lineNum st' = S (lineNum st) ∧ log_grows st st' ∧
  ∀ q, q < length (heap st) → (∀ k, lastRecords st !! k ≠ Some q) →
       heap st' !! q = heap st !! q.
Proof.
  unfold scan_line. rewrite run_bind. simpl.
  destruct (scan_definitions_run (RecordDefinitions p) data
              (with_lineNum (S (lineNum st)) st)) as [K|(d & st0 & _ & K & _ & E)].
  - pose proof (core_kept_log_grows _ _ K) as G.
    destruct K as (Hh & _ & _ & Hn & _). repeat split; try assumption.
    intros q _ _. rewrite Hh. reflexivity.
  - rewrite E. pose proof (process_record_summary d data st0) as ((Hn & G) & F & _).
    pose proof (core_kept_log_grows _ _ K) as G0.
    destruct K as (Hh & Hl & _ & Hn0 & _). simpl in Hh, Hl, Hn0.
    split; [congruence|]. split; [etransitivity; eassumption|].
    intros q Hq Hout. rewrite <- Hh in Hq.
    destruct (F q Hq) as [_ Fq]. rewrite Fq, Hh; [reflexivity|].
    rewrite Hl. apply Hout.
Qed.

Lemma scan_lines_app source1 source2 st :
  scan_lines regexp_Match p (source1 ++ source2) st =
  (scan_lines regexp_Match p source1;; scan_lines regexp_Match p source2) st.
Proof.
  revert st. induction source1 as [|data rest IH]; intros st; simpl.
  - reflexivity.
  - rewrite !run_bind.
    destruct (scan_line regexp_Match p data st) as [[] st1| |]; try reflexivity.
    rewrite IH, run_bind. reflexivity.
Qed.

Lemma scan_lines_lineNum source st st' :
  scan_lines regexp_Match p source st = Next tt st' →
  lineNum st' = lineNum st + length source.
Proof.
  revert st. induction source as [|data rest IH]; intros st; simpl.
  - intros [= ->]. lia.
  - rewrite run_bind. pose proof (scan_line_summary data st) as (Hn & _).
    destruct (scan_line regexp_Match p data st) as [[] st1| |]; try discriminate.
    intros E. apply IH in E. simpl in Hn. lia.
Qed.

Lemma scan_lines_frame source st q :
  between_lines p st → Some q ∈ processed (calls st) →
  heap (final_state (scan_lines regexp_Match p source st)) !! q = heap st !! q.
Proof.
  revert st. induction source as [|data rest IH]; intros st I Hq; simpl.
  - reflexivity.
  - rewrite run_bind.
    destruct (sent_out_of_reach st q I Hq) as (Hlt & _ & Hout).
    pose proof (scan_line_summary data st) as (_ & G & F).
    specialize (F q Hlt Hout).
    destruct (scan_line regexp_Match p data st) as [[] st1| |] eqn:E;
      simpl in F, G |- *; try exact F.
    rewrite IH, F; [reflexivity | |].
    + eapply scan_line_between_lines; eassumption.
    + eapply processed_log_grows; eassumption.
Qed.

Lemma send_last_run st :
  send_last p st =
  Returned (p_ErrorHandler p (p_RecordProcessor p (heap st) (splitRec st)))
    (logged (CallErrorHandler (p_RecordProcessor p (heap st) (splitRec st)))
       (logged (CallRecordProcessor (splitRec st)) st)).
Proof. reflexivity. Qed.

Lemma Parse_from_run source st :
  Parse_from regexp_Match p st source =
  match scan_lines regexp_Match p source st with
  | Next _ st' => send_last p st'
  | Returned err st' => Returned err st'
  | Panicked st' => Panicked st'
  end.
Proof. reflexivity. Qed.

Lemma Parse_app before after st :
  scan_lines regexp_Match p before initial = Next tt st →
  Parse regexp_Match p (before ++ after) = Parse_from regexp_Match p st after.
Proof.
  intros E. unfold Parse. rewrite !Parse_from_run, scan_lines_app, run_bind, E.
  reflexivity.
Qed.

(** ** Sending the split record *)

(** C1.  When a record of the split type has been built while a split
    record [r] is in flight, [install_split] calls the processor with [r],
    and only then makes the new record the split record: if the processor
    returns an error, [Parse] returns it with [r] still in place.  When the
    loop over the lines completes, every record of the split type but the
    last has been sent, once and in order; [Parse] then calls the processor
    once more, with the last one, which is nil when no record of the split
    type was built. *)
Theorem C1_split_record_sent :
  (∀ recDef rec st recR r,
     rd_Name recDef = SplitOnRecordName p → heap st !! rec = Some recR →
     splitRec st = Some r →
     calls (final_state (install_split p recDef rec st))
       = calls st ++ [CallRecordProcessor (Some r)] ∧
     match p_RecordProcessor p (heap st) (Some r) with
     | Some e => ∃ st', install_split p recDef rec st = Returned (Some e) st' ∧
                        splitRec st' = Some r
     | None => ∃ st', install_split p recDef rec st = Next tt st' ∧
                      splitRec st' = Some rec
     end) ∧
  (∀ source st,
     scan_lines regexp_Match p source initial = Next tt st →
     ∃ sent st',
       processed (calls st) = Some <$> sent ∧
       sent ++ option_list (splitRec st) = split_records p (heap st) ∧
       Parse regexp_Match p source
         = Returned (p_ErrorHandler p (p_RecordProcessor p (heap st) (splitRec st))) st' ∧
       heap st' = heap st ∧
       processed (calls st') = processed (calls st) ++ [splitRec st] ∧
       processed (calls st') = match split_records p (heap st) with
                               | [] => [None]
                               | l => Some <$> l
                               end).
Proof.
  split.
  - intros recDef rec st recR r Hname Hrec Hr.
    pose proof (install_split_summary recDef rec st recR Hrec) as (_ & _ & _ & C & _).
    unfold handed_over in C. rewrite decide_True, Hr in C by assumption.
    split; [exact C|].
    rewrite install_split_run, decide_True, Hr by assumption.
    destruct (p_RecordProcessor p (heap st) (Some r)) as [e|].
    + eexists. split; [reflexivity | exact Hr].
    + rewrite update_run. simpl. rewrite Hrec. eexists. split; reflexivity.
  - intros source st E.
    pose proof (scan_lines_between_lines source initial st E between_lines_initial)
      as [Hnames Hall Hlast (sent & Hp & Hs)].
    exists sent. eexists. split; [exact Hp|]. split; [exact Hs|].
    unfold Parse. rewrite Parse_from_run, E, send_last_run.
    split; [reflexivity|]. split; [reflexivity|]. simpl.
    rewrite !processed_app. simpl. rewrite app_nil_r. split; [reflexivity|].
    rewrite Hp, <- Hs. destruct (splitRec st) as [r|] eqn:Er.
    + destruct sent as [|q sent']; [reflexivity|]. simpl. f_equal.
      symmetry. apply (fmap_app Some sent' [r]).
    + destruct sent as [|q sent']; [reflexivity|].
      exfalso. assert (Hq : q ∈ split_records p (heap st)).
      { rewrite <- Hs. by left. }
      apply list_elem_of_filter in Hq as [Hq _].
      destruct (heap st !! q) as [rq|] eqn:Eq; [|discriminate].
      simpl in Hq. injection Hq as Hq.
      destruct (Hall q rq Eq) as [x Hx]. rewrite Hq, Hlast in Hx. discriminate.
Qed.

(** ** After a unit was sent *)

(** C4, as amended.  Once a split record was sent to the processor, the
    engine holds no reference to it (it is neither the split record nor the
    last record of any name), and whatever lines follow, however the run
    ends, that record is as it was. *)
Theorem C4_sent_root_untouched before after st root :
  scan_lines regexp_Match p before initial = Next tt st →
  Some root ∈ processed (calls st) →
  splitRec st ≠ Some root ∧
  (∀ k, lastRecords st !! k ≠ Some root) ∧
  heap (final_state (scan_lines regexp_Match p after st)) !! root = heap st !! root ∧
  heap (final_state (Parse regexp_Match p (before ++ after))) !! root = heap st !! root.
Proof.
  intros E Hsent.
  pose proof (scan_lines_between_lines before initial st E between_lines_initial) as I.
  destruct (sent_out_of_reach st root I Hsent) as (_ & Hs & Hl).
  pose proof (scan_lines_frame after st root I Hsent) as F.
  repeat split; try assumption.
  rewrite (Parse_app before after st E), Parse_from_run.
  destruct (scan_lines regexp_Match p after st) as [[] st1| |]; exact F.
Qed.

(** ** Attaching a record to its parent *)

Lemma installed_record recDef data st rec st1 st2 :
  build_record p recDef data st = Next rec st1 →
  install_split p recDef rec st1 = Next tt st2 →
  lastRecords st2 = <[rd_Name recDef := rec]> (lastRecords st) ∧
  lineNum st2 = lineNum st ∧
  ∃ fields, field_names fields = definition_names (FieldDefinitions recDef) ∧
    heap st2 !! rec =
    Some {| Name := rd_Name recDef; Fields := fields; Parent := None;
            Children := [];
            isWithinSplit := bool_decide (rd_Name recDef = SplitOnRecordName p) |}.
Proof.
  intros EB EI. pose proof (build_record_run recDef data st) as B.
  rewrite EB in B. destruct B as (-> & fields & stm & K & Hnames & ->).
  destruct K as (Hh & Hl & _ & Hn & _).
  assert (Hrec : (heap stm ++ [built recDef fields]) !! length (heap st)
                 = Some (built recDef fields)).
  { rewrite Hh. apply list_lookup_middle. reflexivity. }
  rewrite install_split_run in EI. case_decide as Hsplit.
  - rewrite bool_decide_eq_true_2 by assumption.
    assert (U : ∀ st0 : State, heap st0 = heap stm ++ [built recDef fields] →
              update (length (heap st)) set_isWithinSplit st0 = Next tt st2 →
              heap st2 !! length (heap st) = Some (set_isWithinSplit (built recDef fields))
              ∧ lastRecords st2 = lastRecords st0 ∧ lineNum st2 = lineNum st0).
    { intros st0 E0. rewrite update_run, E0, Hrec. intros [= <-]. simpl.
      rewrite list_lookup_insert_eq; [auto|]. eapply lookup_lt_Some, Hrec. }
    simpl in EI. destruct (splitRec stm) as [r|].
    + destruct (p_RecordProcessor p _ (Some r)); [discriminate|].
      apply U in EI as (-> & -> & ->); [|reflexivity]. simpl.
      rewrite Hl, Hn. eauto.
    + apply U in EI as (-> & -> & ->); [|reflexivity]. simpl.
      rewrite Hl, Hn. eauto.
  - injection EI as <-. simpl. rewrite bool_decide_eq_false_2 by assumption.
    rewrite Hl, Hn, Hrec. eauto.
Qed.

(** C2.  The record built for a line whose definition names a parent type
    has been installed ([st2] is the state at line 164), and [parent] is
    the last record of the parent type.  If the parent is within the split,
    the record is appended to the parent's children and marked as within
    the split, and it has no parent pointer; otherwise it points to the
    parent and the parent's children are as they were. *)
Theorem C2_attach_to_parent recDef data st rec st1 st2 parent parentRec :
  build_record p recDef data st = Next rec st1 →
  install_split p recDef rec st1 = Next tt st2 →
  ParentRecordName recDef ≠ EmptyString →
  lastRecords st2 !! ParentRecordName recDef = Some parent →
  heap st2 !! parent = Some parentRec →
  ∃ st', process_record p recDef data st = Next tt st' ∧
    if isWithinSplit parentRec then
      Children <$> heap st' !! parent = Some (Children parentRec ++ [rec]) ∧
      isWithinSplit <$> heap st' !! rec = Some true ∧
      Parent <$> heap st' !! rec = Some None
    else
      Parent <$> heap st' !! rec = Some (Some parent) ∧
      Children <$> heap st' !! parent = Some (Children parentRec).
Proof.
  intros EB EI _ Hlast Hparent.
  destruct (installed_record _ _ _ _ _ _ EB EI) as (_ & _ & fields & _ & Hrec).
  unfold process_record.
  rewrite (run_bind_Next _ _ _ _ _ EB), (run_bind_Next _ _ _ _ _ EI).
  rewrite attach_parent_run, Hlast, Hparent.
  assert (Hlt : rec < length (heap st2)) by (eapply lookup_lt_Some, Hrec).
  assert (Hltp : parent < length (heap st2)) by (eapply lookup_lt_Some, Hparent).
  destruct (isWithinSplit parentRec) eqn:Ew.
  - rewrite run_bind, update_run, Hrec, update_run. simpl.
    destruct (decide (parent = rec)) as [->|Hne].
    + rewrite list_lookup_insert_eq by assumption.
      eexists. split; [reflexivity|]. simpl.
      rewrite list_lookup_insert_eq by (rewrite length_insert; assumption).
      rewrite Hrec in Hparent. injection Hparent as <-. simpl. auto.
    + rewrite list_lookup_insert_ne, Hparent by congruence.
      eexists. split; [reflexivity|]. simpl.
      rewrite list_lookup_insert_eq by (rewrite length_insert; assumption).
      rewrite list_lookup_insert_ne by congruence.
      rewrite list_lookup_insert_eq by assumption. simpl. auto.
  - rewrite update_run, Hrec. eexists. split; [reflexivity|]. simpl.
    rewrite list_lookup_insert_eq by assumption. simpl. split; [reflexivity|].
    destruct (decide (parent = rec)) as [->|Hne].
    + rewrite list_lookup_insert_eq by assumption.
      rewrite Hrec in Hparent. injection Hparent as <-. reflexivity.
    + rewrite list_lookup_insert_ne, Hparent by congruence. reflexivity.
Qed.

(** ** Recognizing a line *)

Lemma tried_core_kept recDefs data st : core_kept st (tried regexp_Match recDefs data st).
Proof.
  revert st. induction recDefs as [|d rest IH]; intros st; simpl.
  - reflexivity.
  - etransitivity; [apply core_kept_logged | apply IH].
Qed.

Lemma scan_definitions_first_match pre recDef post data st :
  Forall (misses regexp_Match p data) pre → hits regexp_Match p data recDef →
  scan_definitions regexp_Match p (pre ++ recDef :: post) data st =
  process_record p recDef data (tried regexp_Match (pre ++ [recDef]) data st).
Proof.
  intros Hpre [Hm Hh]. revert st.
  induction Hpre as [|d pre [Hdm Hdh] _ IH]; intros st; simpl.
  - destruct (Match regexp_Match recDef data) as [matched err]. simpl in *. subst.
    rewrite run_bind, handle_run, Hh. reflexivity.
  - destruct (Match regexp_Match d data) as [matched err]. simpl in *. subst.
    rewrite run_bind, handle_run, Hdh. apply IH.
Qed.

(** C3.  The definitions before [recDef] do not match the line and
    [recDef] does.  Then the line is processed with [recDef], after one
    call of the error handler for each definition tried, in the declared
    order; the definitions after [recDef] play no part, whether they match
    or not; and the record built for the line is a record of [recDef].  A
    definition without a match expression matches every line. *)
Theorem C3_first_match_wins pre recDef post data st :
  RecordDefinitions p = pre ++ recDef :: post →
  Forall (misses regexp_Match p data) pre → hits regexp_Match p data recDef →
  scan_line regexp_Match p data st
    = process_record p recDef data
        (tried regexp_Match (pre ++ [recDef]) data (with_lineNum (S (lineNum st)) st)) ∧
  (∀ post' st0,
     scan_definitions regexp_Match p (pre ++ recDef :: post') data st0
     = scan_definitions regexp_Match p (pre ++ recDef :: post) data st0) ∧
  (∀ st', scan_line regexp_Match p data st = Next tt st' →
     length (heap st') = S (length (heap st)) ∧
     Name <$> heap st' !! length (heap st) = Some (rd_Name recDef)) ∧
  (∀ d data', MatchExpression d = EmptyString →
     Match regexp_Match d data' = (true, None)).
Proof.
  intros Hdefs Hpre Hhit.
  assert (E : scan_line regexp_Match p data st
    = process_record p recDef data
        (tried regexp_Match (pre ++ [recDef]) data (with_lineNum (S (lineNum st)) st))).
  { unfold scan_line. rewrite run_bind. simpl. rewrite Hdefs.
    by apply scan_definitions_first_match. }
  split; [exact E|]. split; [|split].
  - intros post' st0. by rewrite !scan_definitions_first_match.
  - intros st' E'. rewrite E in E'.
    pose proof (process_record_summary recDef data
      (tried regexp_Match (pre ++ [recDef]) data (with_lineNum (S (lineNum st)) st)))
      as (_ & _ & C).
    rewrite E' in C. destruct (C tt st' eq_refl) as (Hlen & Hname & _).
    destruct (tried_core_kept (pre ++ [recDef]) data
                (with_lineNum (S (lineNum st)) st)) as (Hh & _).
    simpl in Hlen, Hname, Hh. rewrite Hh in Hlen, Hname. auto.
  - intros d data' Hd. unfold Match. by rewrite decide_True.
Qed.

(** ** A record without a parent *)

(** C5, as amended.  The lines [before] were scanned, the line [data] is
    recognized by [recDef], whose parent type is not its own type and has
    no record on the heap, and the record of the line was built and
    installed.  Then the error handler is called with the
    [RecordParseError] that names the parent type and the number of the
    line, and under the default handler [Parse] returns that error at this
    line, whatever lines follow. *)
Theorem C5_missing_parent before data rest pre recDef post st rec st1 st2 :
  scan_lines regexp_Match p before initial = Next tt st →
  RecordDefinitions p = pre ++ recDef :: post →
  Forall (misses regexp_Match p data) pre → hits regexp_Match p data recDef →
  ParentRecordName recDef ≠ EmptyString →
  ParentRecordName recDef ≠ rd_Name recDef →
  (∀ q r, heap st !! q = Some r → Name r ≠ ParentRecordName recDef) →
  build_record p recDef data
    (tried regexp_Match (pre ++ [recDef]) data (with_lineNum (S (lineNum st)) st)) = Next rec st1 →
  install_split p recDef rec st1 = Next tt st2 →
  calls (final_state (scan_line regexp_Match p data st))
    = calls st2 ++ [CallErrorHandler (Some (no_parent_error recDef (S (length before))))] ∧
  (p_ErrorHandler p = DefaultErrorHandler →
   Parse regexp_Match p (before ++ data :: rest)
     = Returned (Some (no_parent_error recDef (S (length before))))
         (logged (CallErrorHandler (Some (no_parent_error recDef (S (length before))))) st2)).
Proof.
  intros E Hdefs Hpre Hhit Hparent Hself Hnone EB EI.
  pose proof (scan_lines_between_lines before initial st E between_lines_initial)
    as [Hnames _ _ _].
  pose proof (scan_lines_lineNum before initial st E) as Hline. simpl in Hline.
  destruct (installed_record _ _ _ _ _ _ EB EI) as (Hl2 & Hn2 & _).
  destruct (tried_core_kept (pre ++ [recDef]) data (with_lineNum (S (lineNum st)) st))
    as (_ & Hl0 & _ & Hn0 & _).
  simpl in Hl0, Hn0. rewrite Hl0 in Hl2. rewrite Hn0, Hline in Hn2.
  assert (Hlook : lastRecords st2 !! ParentRecordName recDef = None).
  { rewrite Hl2, lookup_insert_ne by congruence.
    destruct (lastRecords st !! ParentRecordName recDef) as [q|] eqn:Eq; [|reflexivity].
    apply Hnames in Eq. destruct (heap st !! q) as [r|] eqn:Er; [|discriminate].
    injection Eq as Eq. exfalso. eapply Hnone; eassumption. }
  assert (Eline : scan_line regexp_Match p data st
    = handle p (Some (no_parent_error recDef (S (length before)))) st2).
  { unfold scan_line. rewrite run_bind. simpl. rewrite Hdefs.
    rewrite scan_definitions_first_match by assumption.
    unfold process_record.
    rewrite (run_bind_Next _ _ _ _ _ EB), (run_bind_Next _ _ _ _ _ EI).
    rewrite attach_parent_run, Hlook, decide_True, Hn2 by assumption. reflexivity. }
  split.
  - rewrite Eline, handle_run. destruct (p_ErrorHandler p _); reflexivity.
  - intros Hdefault. rewrite (Parse_app before (data :: rest) st E), Parse_from_run.
    simpl. rewrite run_bind, Eline, handle_run, Hdefault. reflexivity.
Qed.

(** ** The fields of a record *)

Global Instance fields_kept_preorder : PreOrder fields_kept.
Proof.
  split.
  - intros st q r Hq. eauto.
  - intros a b c Hab Hbc q r Hq.
    destruct (Hab q r Hq) as (r' & Hq' & E').
    destruct (Hbc q r' Hq') as (r'' & Hq'' & E''). exists r''. split; congruence.
Qed.

Lemma fields_kept_same_heap st st' : heap st' = heap st → fields_kept st st'.
Proof. intros E q r Hq. rewrite E. eauto. Qed.

Lemma update_fields_kept q f :
  (∀ r, Fields (f r) = Fields r) → respects fields_kept (update q f).
Proof.
  intros Hf st. rewrite update_run.
  destruct (heap st !! q) as [r0|] eqn:E0; simpl; [|reflexivity].
  intros q' r Hq'. simpl. destruct (decide (q' = q)) as [->|Hne].
  - rewrite list_lookup_insert_eq by (eapply lookup_lt_Some; eassumption).
    exists (f r0). split; [reflexivity|]. rewrite Hf. congruence.
  - rewrite list_lookup_insert_ne by congruence. eauto.
Qed.

Lemma handle_fields_kept err : respects fields_kept (handle p err).
Proof.
  intros st. rewrite handle_run.
  destruct (p_ErrorHandler p err); by apply fields_kept_same_heap.
Qed.

Lemma install_split_fields_kept recDef rec :
  respects fields_kept (install_split p recDef rec).
Proof.
  intros st. rewrite install_split_run. case_decide; [|reflexivity].
  assert (U : ∀ st0 : State, heap st0 = heap st →
            fields_kept st (final_state (update rec set_isWithinSplit st0))).
  { intros st0 E. etransitivity; [apply fields_kept_same_heap, E|].
    by apply (update_fields_kept rec set_isWithinSplit). }
  destruct (splitRec st) as [r|]; [|by apply U].
  destruct (p_RecordProcessor p (heap st) (Some r)); [|by apply U].
  by apply fields_kept_same_heap.
Qed.

Lemma attach_parent_fields_kept recDef rec :
  respects fields_kept (attach_parent p recDef rec).
Proof.
  intros st. rewrite attach_parent_run.
  destruct (lastRecords st !! ParentRecordName recDef) as [parent|].
  - destruct (heap st !! parent) as [parentRec|]; [|reflexivity].
    destruct (isWithinSplit parentRec).
    + apply (respects_bind fields_kept); [|intros _];
        by apply update_fields_kept.
    + by apply update_fields_kept.
  - case_decide; [apply handle_fields_kept | reflexivity].
Qed.

(** ** Fewer or more values than field definitions *)

(** C6.  The lines [before] were scanned, the line [data] is recognized
    by [recDef], and its reader returns the values [recVals].  With fewer
    values than field definitions, once the values there are have been
    made into fields, the error handler is called with the
    [RecordParseError] that names the record type and the number of the
    line, counted from 1, and [Parse] returns what the handler makes of
    it.  With at least as many values, the values past the field
    definitions play no part, and the record built has one field for each
    field definition, in their order. *)
Theorem C6_fewer_or_more_values before data rest pre recDef post st reader recVals :
  scan_lines regexp_Match p before initial = Next tt st →
  RecordDefinitions p = pre ++ recDef :: post →
  Forall (misses regexp_Match p data) pre → hits regexp_Match p data recDef →
  rd_RecordReader recDef = Some reader →
  Read reader data = Val (recVals, None) →
  let st0 := tried regexp_Match (pre ++ [recDef]) data (with_lineNum (S (lineNum st)) st) in
  let fldDefs := FieldDefinitions recDef in
  ((length recVals < length fldDefs)%nat →
   ∀ fields st1,
     build_Fields p recDef recVals 0 (take (length recVals) fldDefs) [] st0
       = Next fields st1 →
     calls (final_state (scan_line regexp_Match p data st))
       = calls st1 ++ [CallErrorHandler (Some (past_end_error recDef (S (length before))))] ∧
     ∀ e, p_ErrorHandler p (Some (past_end_error recDef (S (length before)))) = Some e →
       Parse regexp_Match p (before ++ data :: rest)
         = Returned (Some e)
             (logged (CallErrorHandler
                        (Some (past_end_error recDef (S (length before))))) st1)) ∧
  ((length fldDefs ≤ length recVals)%nat →
   build_Fields p recDef recVals 0 fldDefs [] st0
     = build_Fields p recDef (take (length fldDefs) recVals) 0 fldDefs [] st0 ∧
   ∀ st', scan_line regexp_Match p data st = Next tt st' →
     ∃ r, heap st' !! length (heap st) = Some r ∧
          field_names (Fields r) = definition_names fldDefs).
Proof.
  intros E Hdefs Hpre Hhit Hreader Hread st0 fldDefs.
  pose proof (scan_lines_lineNum before initial st E) as Hline. simpl in Hline.
  assert (Eline : scan_line regexp_Match p data st = process_record p recDef data st0).
  { unfold scan_line. rewrite run_bind. simpl. rewrite Hdefs.
    by apply scan_definitions_first_match. }
  assert (Ebuild : ∀ st', build_record p recDef data st' =
    (fields ← build_Fields p recDef recVals 0 fldDefs [];
     rec ← new_Record (built recDef fields);
     st'' ← get;
     set_lastRecords (<[rd_Name recDef := rec]> (lastRecords st''));;
     mret rec) st').
  { intros st'. unfold build_record. rewrite Hreader, Hread. reflexivity. }
  split.
  - intros Hlt fields st1 Htake.
    assert (Hn1 : lineNum st1 = S (length before)).
    { pose proof (build_Fields_core_kept recDef recVals
        (take (length recVals) fldDefs) 0 [] st0) as K.
      rewrite Htake in K. destruct K as (_ & _ & _ & Hn & _). simpl in Hn.
      destruct (tried_core_kept (pre ++ [recDef]) data
                  (with_lineNum (S (lineNum st)) st)) as (_ & _ & _ & Hn0 & _).
      fold st0 in Hn0. simpl in Hn0. lia. }
    assert (EF : build_Fields p recDef recVals 0 fldDefs [] st0 =
      match p_ErrorHandler p (Some (past_end_error recDef (S (length before)))) with
      | Some e => Returned (Some e)
          (logged (CallErrorHandler (Some (past_end_error recDef (S (length before))))) st1)
      | None => Panicked
          (logged (CallErrorHandler (Some (past_end_error recDef (S (length before))))) st1)
      end).
    { rewrite <- (take_drop (length recVals) fldDefs) at 1.
      rewrite build_Fields_app, (run_bind_Next _ _ _ _ _ Htake).
      destruct (drop (length recVals) fldDefs) as [|d rest'] eqn:Ed.
      { apply (f_equal length) in Ed. rewrite length_drop in Ed. simpl in Ed. lia. }
      rewrite build_Fields_past_end by (rewrite length_take_le; lia).
      rewrite Hn1. reflexivity. }
    assert (Eproc : process_record p recDef data st0 =
      match p_ErrorHandler p (Some (past_end_error recDef (S (length before)))) with
      | Some e => Returned (Some e)
          (logged (CallErrorHandler (Some (past_end_error recDef (S (length before))))) st1)
      | None => Panicked
          (logged (CallErrorHandler (Some (past_end_error recDef (S (length before))))) st1)
      end).
    { unfold process_record. rewrite run_bind, Ebuild, run_bind, EF.
      destruct (p_ErrorHandler p _); reflexivity. }
    split.
    + rewrite Eline, Eproc. destruct (p_ErrorHandler p _); reflexivity.
    + intros e He. rewrite (Parse_app before (data :: rest) st E), Parse_from_run.
      simpl. rewrite run_bind, Eline, Eproc, He. reflexivity.
  - intros Hle. split.
    + apply build_Fields_surplus; simpl; lia.
    + intros st' E'. rewrite Eline in E'. unfold process_record in E'.
      apply bind_Next_inv in E' as (rec & st1 & EB & E').
      pose proof (build_record_run recDef data st0) as B. rewrite EB in B.
      destruct B as (-> & fields & stm & K & Hnames & Est1).
      assert (K' : fields_kept st1 st').
      { pose proof (respects_bind fields_kept _ _
          (install_split_fields_kept recDef (length (heap st0)))
          (fun _ => attach_parent_fields_kept recDef (length (heap st0))) st1) as R.
        rewrite E' in R. exact R. }
      destruct K as (Hh & _).
      destruct (tried_core_kept (pre ++ [recDef]) data
                  (with_lineNum (S (lineNum st)) st)) as (Hh0 & _).
      fold st0 in Hh0. simpl in Hh0.
      destruct (K' (length (heap st0)) (built recDef fields)) as (r' & Hr' & Hf).
      { rewrite Est1. simpl. rewrite Hh. apply list_lookup_middle. reflexivity. }
      exists r'. rewrite <- Hh0. split; [exact Hr'|]. rewrite Hf. exact Hnames.
Qed.

(** ** The error handler and the nil error *)

(** C10.  When the match test of a definition on a line returns without
    error, the next call to the error handler is a call with the nil
    error, before anything is done with the line.  So under a handler that
    answers the nil error with an error [e], [Parse] returns [e] at the
    first definition tried on the first line: one call to the handler, no
    record built, no call to the processor. *)
Theorem C10_handler_called_with_nil recDef rest data st matched :
  Match regexp_Match recDef data = (matched, None) →
  (∃ evs, calls (final_state
                   (scan_definitions regexp_Match p (recDef :: rest) data st))
          = calls st ++ CallErrorHandler None :: evs) ∧
  (∀ e source,
     p_ErrorHandler p None = Some e → RecordDefinitions p = recDef :: rest →
     Parse regexp_Match p (data :: source)
       = Returned (Some e) (logged (CallErrorHandler None) (with_lineNum 1 initial))).
Proof.
  intros HM. split.
  - simpl. rewrite HM, run_bind, handle_run. unfold ConfigurationError.
    assert (G : ∀ st' : State, log_grows (logged (CallErrorHandler None) st) st' →
                ∃ evs, calls st' = calls st ++ CallErrorHandler None :: evs).
    { intros st' [k Hk]. exists k. rewrite Hk. simpl. by rewrite <- app_assoc. }
    destruct (p_ErrorHandler p None).
    + exists []. reflexivity.
    + destruct matched.
      * apply G. apply process_record_summary.
      * apply G.
        destruct (scan_definitions_run rest data (logged (CallErrorHandler None) st))
          as [K|(d & st0 & _ & K & _ & ->)].
        -- by apply core_kept_log_grows.
        -- etransitivity; [by apply core_kept_log_grows|].
           apply process_record_summary.
  - intros e source He Hdefs. unfold Parse. rewrite Parse_from_run. simpl.
    rewrite run_bind. unfold scan_line. rewrite run_bind. simpl.
    rewrite Hdefs. simpl. rewrite HM, run_bind, handle_run.
    unfold ConfigurationError. rewrite He. reflexivity.
Qed.

End EngineProperties.

(** C4, as stated, fails on the invoice schema: after the first header
    was sent (at the second header), a distribution line is attached to the
    line record of the first header's unit, which is still the last record
    of its name. *)
Lemma C4_counterexample_child_of_sent_unit :
  ¬ unit_isolated prefix_Match (invoices DefaultErrorHandler).
Proof.
  intros H.
  set (before := lines ["010INV01"; "0300001"; "010INV02"]).
  set (st := final_state (scan_lines prefix_Match (invoices DefaultErrorHandler)
                            before initial)).
  assert (E : scan_lines prefix_Match (invoices DefaultErrorHandler) before initial
              = Next tt st) by (vm_compute; reflexivity).
  specialize (H before (bytes_of_string "033ACCTNUM221") st 0 1 E).
  assert (Hsent : Some 0 ∈ processed (calls st)).
  { apply (bool_decide_unpack _). vm_compute. reflexivity. }
  assert (Hunit : in_unit (heap st) 0 1).
  { eapply unit_child; [apply unit_root | vm_compute; reflexivity |].
    apply (bool_decide_unpack _). vm_compute. reflexivity. }
  specialize (H Hsent Hunit). vm_compute in H. discriminate.
Qed.

(** C5, as stated, fails when a definition names its own type as parent:
    the record of the first line is already the last record of its name
    when its parent is looked up, so it becomes its own parent and no
    error is raised. *)
Lemma C5_counterexample_own_parent :
  ¬ missing_parent_reported prefix_Match nodes.
Proof.
  intros H.
  set (st0 := tried prefix_Match [Node] (bytes_of_string "x") (with_lineNum 1 initial)).
  set (st1 := final_state (build_record nodes Node (bytes_of_string "x") st0)).
  specialize (H [] (bytes_of_string "x") [] Node [] initial 0 st1 st1 eq_refl eq_refl).
  assert (Hexp : ∀ A B : Prop, A → (A → B) → B) by tauto.
  apply Hexp in H; [|constructor].
  apply Hexp in H; [|split; reflexivity].
  apply Hexp in H; [|discriminate].
  apply Hexp in H; [|intros q r Hq; destruct q; discriminate].
  apply Hexp in H; [|vm_compute; reflexivity].
  apply Hexp in H; [|vm_compute; reflexivity].
  vm_compute in H. discriminate.
Qed.

(** ** Loading a schema *)

Lemma Unmarshal_items_fails {A} (f : json → error + A) items item :
  item ∈ items → (∃ e, f item = inl e) → ∃ e, Unmarshal_items f items = inl e.
Proof.
  intros Hin Hf. induction items as [|x items IH]; [inversion Hin|]. simpl.
  apply elem_of_cons in Hin as [->|Hin].
  - destruct Hf as [e ->]. eauto.
  - destruct (f x); [eauto|]. destruct (IH Hin) as [e ->]. eauto.
Qed.

Lemma Unmarshal_items_Forall {A} (f : json → error + A) (P : A → Prop) items l :
  (∀ item a, f item = inr a → P a) →
  Unmarshal_items f items = inr l → Forall P l.
Proof.
  intros Hf. revert l. induction items as [|item items IH]; intros l; simpl.
  - intros [= <-]. constructor.
  - destruct (f item) as [|a] eqn:E; [discriminate|].
    destruct (Unmarshal_items f items) as [|l']; [discriminate|].
    intros [= <-]. constructor; eauto.
Qed.

Section SchemaProperties.
Context (RecordReaderRegistry : gmap string RecordReaderUnmarshalFunc)
        (FieldTypeRegistry : gmap string FieldTypeUnmarshalFunc).

Lemma RecordDefinition_unregistered_reader data name :
  names_reader data name → RecordReaderRegistry !! name = None →
  ∃ e, RecordDefinition_UnmarshalJSON RecordReaderRegistry FieldTypeRegistry data = inl e.
Proof.
  intros (members & -> & Hname) Hreg. unfold RecordDefinition_UnmarshalJSON.
  simpl. unfold mustUnmarshalString at 2. rewrite Hname. simpl.
  unfold GetRecordReaderUnmarshalFunc. rewrite Hreg.
  repeat case_match; eauto.
Qed.

Lemma FieldDefinition_unregistered_type fmembers name :
  (list_to_map (reverse fmembers) : gmap string json) !! "TypeName"
    = Some (JString name) →
  FieldTypeRegistry !! name = None →
  ∃ e, FieldDefinition_UnmarshalJSON FieldTypeRegistry (JObject fmembers) = inl e.
Proof.
  intros Hname Hreg. unfold FieldDefinition_UnmarshalJSON. simpl.
  unfold mustUnmarshalString at 2. rewrite Hname. simpl.
  unfold GetFieldTypeUnmarshalFunc. rewrite Hreg.
  repeat case_match; eauto.
Qed.

Lemma RecordDefinition_unregistered_type data name :
  names_field_type data name → FieldTypeRegistry !! name = None →
  ∃ e, RecordDefinition_UnmarshalJSON RecordReaderRegistry FieldTypeRegistry data = inl e.
Proof.
  intros (members & items & item & fmembers & -> & Hfields & Hin & -> & Hname) Hreg.
  destruct (Unmarshal_items_fails (FieldDefinition_UnmarshalJSON FieldTypeRegistry)
              items (JObject fmembers) Hin) as [e He].
  { by apply (FieldDefinition_unregistered_type fmembers name). }
  unfold RecordDefinition_UnmarshalJSON. simpl. rewrite Hfields. simpl. rewrite He.
  repeat case_match; eauto.
Qed.

Lemma FieldDefinition_registered data fldDef :
  FieldDefinition_UnmarshalJSON FieldTypeRegistry data = inr fldDef →
  is_Some (FieldTypeRegistry !! fd_TypeName fldDef).
Proof.
  unfold FieldDefinition_UnmarshalJSON, GetFieldTypeUnmarshalFunc.
  intros H. repeat case_match; simplify_eq. simpl. eauto.
Qed.

Lemma RecordDefinition_registered data recDef :
  RecordDefinition_UnmarshalJSON RecordReaderRegistry FieldTypeRegistry data = inr recDef →
  Forall (fun fldDef => is_Some (FieldTypeRegistry !! fd_TypeName fldDef))
         (FieldDefinitions recDef).
Proof.
  unfold RecordDefinition_UnmarshalJSON, Unmarshal_FieldDefinitions.
  intros H. repeat case_match; simplify_eq; simpl; try constructor.
  eapply Unmarshal_items_Forall; [|eassumption].
  intros item a. apply FieldDefinition_registered.
Qed.

(** C9.  A schema document with a record definition that names a record
    reader missing from the registry, or with a field definition that names
    a field type missing from the registry, is not loaded: [NewParser]
    returns an error.  [NewParser] takes no lines and [Parse] takes no
    registry: every name is looked up while the schema is loaded, and in a
    parser that was constructed every field type name is a registered
    one. *)
Theorem C9_unregistered_name_fails_loading config processor handler :
  (∀ data name,
     data ∈ doc_RecordDefinitions config → names_reader data name →
     RecordReaderRegistry !! name = None →
     ∃ e, NewParser RecordReaderRegistry FieldTypeRegistry config processor handler
          = inl e) ∧
  (∀ data name,
     data ∈ doc_RecordDefinitions config → names_field_type data name →
     FieldTypeRegistry !! name = None →
     ∃ e, NewParser RecordReaderRegistry FieldTypeRegistry config processor handler
          = inl e) ∧
  (∀ parser,
     NewParser RecordReaderRegistry FieldTypeRegistry config processor handler
       = inr parser →
     Forall (fun recDef =>
               Forall (fun fldDef => is_Some (FieldTypeRegistry !! fd_TypeName fldDef))
                      (FieldDefinitions recDef))
            (RecordDefinitions parser)).
Proof.
  assert (Hfail : ∀ data,
    data ∈ doc_RecordDefinitions config →
    (∃ e, RecordDefinition_UnmarshalJSON RecordReaderRegistry FieldTypeRegistry data
          = inl e) →
    ∃ e, NewParser RecordReaderRegistry FieldTypeRegistry config processor handler
         = inl e).
  { intros data Hin Hf.
    destruct (Unmarshal_items_fails _ _ _ Hin Hf) as [e He].
    exists e. unfold NewParser. rewrite He. reflexivity. }
  split; [|split].
  - intros data name Hin Hname Hreg. apply (Hfail data Hin).
    by apply (RecordDefinition_unregistered_reader data name).
  - intros data name Hin Hname Hreg. apply (Hfail data Hin).
    by apply (RecordDefinition_unregistered_type data name).
  - intros parser. unfold NewParser.
    destruct (Unmarshal_items _ (doc_RecordDefinitions config)) as [e|l] eqn:E;
      [discriminate|].
    intros [= <-]. simpl.
    eapply Unmarshal_items_Forall; [|exact E].
    intros item a. apply RecordDefinition_registered.
Qed.

End SchemaProperties.

(** * The theorems at concrete inputs *)

(** C1 on the invoice schema: at the second header the first one is sent,
    and after a header, a line and a second header the processor has been
    called with the first header; [Parse] then sends the second. *)
Lemma C1_witness :
  (calls (final_state (install_split (invoices DefaultErrorHandler) InvoiceHeader 2
                         second_header_built))
     = calls second_header_built ++ [CallRecordProcessor (Some 0)] ∧
   match p_RecordProcessor (invoices DefaultErrorHandler)
           (heap second_header_built) (Some 0) with
   | Some e => ∃ st', install_split (invoices DefaultErrorHandler) InvoiceHeader 2
                        second_header_built = Returned (Some e) st' ∧
                      splitRec st' = Some 0
   | None => ∃ st', install_split (invoices DefaultErrorHandler) InvoiceHeader 2
                      second_header_built = Next tt st' ∧
                    splitRec st' = Some 2
   end) ∧
  ∃ sent st',
    processed (calls after_second_header) = Some <$> sent ∧
    sent ++ option_list (splitRec after_second_header)
      = split_records (invoices DefaultErrorHandler) (heap after_second_header) ∧
    Parse prefix_Match (invoices DefaultErrorHandler)
      (lines ["010INV01"; "0300001"; "010INV02"])
      = Returned (p_ErrorHandler (invoices DefaultErrorHandler)
                    (p_RecordProcessor (invoices DefaultErrorHandler)
                       (heap after_second_header) (splitRec after_second_header))) st' ∧
    heap st' = heap after_second_header ∧
    processed (calls st') = processed (calls after_second_header)
                            ++ [splitRec after_second_header] ∧
    processed (calls st')
      = match split_records (invoices DefaultErrorHandler) (heap after_second_header) with
        | [] => [None]
        | l => Some <$> l
        end.
Proof.
  split.
  - apply (proj1 (C1_split_record_sent prefix_Match (invoices DefaultErrorHandler))
             InvoiceHeader 2 second_header_built
             (default (built InvoiceHeader []) (heap second_header_built !! 2)) 0).
    + reflexivity.
    + vm_compute. reflexivity.
    + vm_compute. reflexivity.
  - apply (proj2 (C1_split_record_sent prefix_Match (invoices DefaultErrorHandler))).
    vm_compute. reflexivity.
Defined.

(** C2 on the invoice schema: a line after a header is appended to the
    header, which is within the split. *)
Lemma C2_witness :
  ∃ st', process_record (invoices DefaultErrorHandler) InvoiceLine
           (bytes_of_string "0300001") after_header = Next tt st' ∧
    Children <$> heap st' !! 0 = Some [1] ∧
    isWithinSplit <$> heap st' !! 1 = Some true ∧
    Parent <$> heap st' !! 1 = Some None.
Proof.
  destruct (C2_attach_to_parent (invoices DefaultErrorHandler) InvoiceLine
              (bytes_of_string "0300001") after_header 1 line_built line_built 0
              (default (built InvoiceHeader []) (heap line_built !! 0)))
    as (st' & E & H).
  - vm_compute. reflexivity.
  - vm_compute. reflexivity.
  - discriminate.
  - vm_compute. reflexivity.
  - vm_compute. reflexivity.
  - exists st'. split; [exact E | exact H].
Defined.

(** C3 on two definitions that both match a header line: the first one
    makes the record. *)
Lemma C3_witness :
  scan_line prefix_Match overlapping (bytes_of_string "010INV01") initial
    = process_record overlapping InvoiceHeader (bytes_of_string "010INV01")
        (tried prefix_Match ([] ++ [InvoiceHeader]) (bytes_of_string "010INV01")
           (with_lineNum (S (lineNum initial)) initial)) ∧
  (∀ post' st0,
     scan_definitions prefix_Match overlapping ([] ++ InvoiceHeader :: post')
       (bytes_of_string "010INV01") st0
     = scan_definitions prefix_Match overlapping ([] ++ InvoiceHeader :: [Node])
         (bytes_of_string "010INV01") st0) ∧
  (∀ st', scan_line prefix_Match overlapping (bytes_of_string "010INV01") initial
            = Next tt st' →
     length (heap st') = S (length (heap initial)) ∧
     Name <$> heap st' !! length (heap initial) = Some (rd_Name InvoiceHeader)) ∧
  (∀ d data', MatchExpression d = EmptyString →
     Match prefix_Match d data' = (true, None)).
Proof.
  apply (C3_first_match_wins prefix_Match overlapping [] InvoiceHeader [Node]
           (bytes_of_string "010INV01") initial).
  - reflexivity.
  - constructor.
  - split; vm_compute; reflexivity.
Defined.

(** C4 on the invoice schema: the first header, sent at the second, is as
    it was after a distribution line that follows. *)
Lemma C4_witness :
  splitRec after_second_header ≠ Some 0 ∧
  (∀ k, lastRecords after_second_header !! k ≠ Some 0) ∧
  heap (final_state (scan_lines prefix_Match (invoices DefaultErrorHandler)
                       (lines ["033ACCTNUM221"]) after_second_header)) !! 0
    = heap after_second_header !! 0 ∧
  heap (final_state (Parse prefix_Match (invoices DefaultErrorHandler)
                       (lines ["010INV01"; "0300001"; "010INV02"]
                        ++ lines ["033ACCTNUM221"]))) !! 0
    = heap after_second_header !! 0.
Proof.
  apply (C4_sent_root_untouched prefix_Match (invoices DefaultErrorHandler)).
  - vm_compute. reflexivity.
  - apply (bool_decide_unpack _). vm_compute. reflexivity.
Defined.

(** C5 on the invoice schema: a line record as the first line has no
    header to attach to. *)
Lemma C5_witness :
  calls (final_state (scan_line prefix_Match (invoices DefaultErrorHandler)
                        (bytes_of_string "0300001") initial))
    = calls orphan_line_built
      ++ [CallErrorHandler (Some (no_parent_error InvoiceLine (S (length (@nil bytes)))))] ∧
  (p_ErrorHandler (invoices DefaultErrorHandler) = DefaultErrorHandler →
   Parse prefix_Match (invoices DefaultErrorHandler)
     ([] ++ bytes_of_string "0300001" :: lines ["010INV01"])
     = Returned (Some (no_parent_error InvoiceLine (S (length (@nil bytes)))))
         (logged (CallErrorHandler
                    (Some (no_parent_error InvoiceLine (S (length (@nil bytes))))))
            orphan_line_built)).
Proof.
  apply (C5_missing_parent prefix_Match (invoices DefaultErrorHandler)
           [] (bytes_of_string "0300001") (lines ["010INV01"])
           [InvoiceHeader] InvoiceLine [InvoiceLineDist] initial 0
           orphan_line_built orphan_line_built).
  - reflexivity.
  - reflexivity.
  - constructor; [split; vm_compute; reflexivity | constructor].
  - split; vm_compute; reflexivity.
  - discriminate.
  - discriminate.
  - intros q r Hq. destruct q; discriminate.
  - vm_compute. reflexivity.
  - vm_compute. reflexivity.
Defined.

(** C6 on a line with one value for two field definitions, and on a line
    with two values for one field definition. *)
Lemma C6_witness :
  (calls (final_state (scan_line prefix_Match strict (bytes_of_string "a") initial))
     = calls one_field_built
       ++ [CallErrorHandler (Some (past_end_error one_of_two 1))] ∧
   Parse prefix_Match strict ([] ++ bytes_of_string "a" :: lines ["b"])
     = Returned (Some (past_end_error one_of_two 1))
         (logged (CallErrorHandler (Some (past_end_error one_of_two 1)))
            one_field_built)) ∧
  (build_Fields surplus two_for_one ["a"; "b"] 0 [string_field "A"] []
     (tried prefix_Match [two_for_one] (bytes_of_string "ab") (with_lineNum 1 initial))
   = build_Fields surplus two_for_one ["a"] 0 [string_field "A"] []
       (tried prefix_Match [two_for_one] (bytes_of_string "ab") (with_lineNum 1 initial)) ∧
   ∀ st', scan_line prefix_Match surplus (bytes_of_string "ab") initial = Next tt st' →
     ∃ r, heap st' !! 0 = Some r ∧
          field_names (Fields r) = definition_names [string_field "A"]).
Proof.
  split.
  - destruct (proj1 (C6_fewer_or_more_values prefix_Match strict
                       [] (bytes_of_string "a") (lines ["b"]) [] one_of_two []
                       initial (FixedWidth {| Coordinates := [Coord 0 1] |}) ["a"]
                       eq_refl eq_refl (Forall_nil_2 _)
                       (conj eq_refl eq_refl) eq_refl eq_refl))
      with (fields := [ {| fld_Name := "A"; fld_TypeName := "String";
                           fld_Value := StringValue "a" |} ])
           (st1 := one_field_built) as [Hcalls Hparse].
    + simpl. lia.
    + vm_compute. reflexivity.
    + split; [exact Hcalls|]. apply Hparse. reflexivity.
  - apply (proj2 (C6_fewer_or_more_values prefix_Match surplus
                    [] (bytes_of_string "ab") [] [] two_for_one []
                    initial (FixedWidth {| Coordinates := [Coord 0 1; Coord 1 2] |})
                    ["a"; "b"]
                    eq_refl eq_refl (Forall_nil_2 _)
                    (conj eq_refl eq_refl) eq_refl eq_refl)).
    simpl. lia.
Defined.

(** C9 on a document that names the reader [Positional], on a document
    that names the field type [Money], and on a document whose names are
    registered. *)
Lemma C9_witness :
  (∃ e, NewParser init_RecordReaderRegistry init_FieldTypeRegistry
          unknown_reader_document None None = inl e) ∧
  (∃ e, NewParser init_RecordReaderRegistry init_FieldTypeRegistry
          unknown_type_document None None = inl e) ∧
  Forall (fun recDef =>
            Forall (fun fldDef => is_Some (init_FieldTypeRegistry !! fd_TypeName fldDef))
                   (FieldDefinitions recDef))
         (RecordDefinitions known_parser).
Proof.
  split; [|split].
  - eapply (proj1 (C9_unregistered_name_fails_loading init_RecordReaderRegistry
                     init_FieldTypeRegistry unknown_reader_document None None)
              _ "Positional").
    + left.
    + eexists. split; [reflexivity|]. vm_compute. reflexivity.
    + vm_compute. reflexivity.
  - eapply (proj1 (proj2 (C9_unregistered_name_fails_loading init_RecordReaderRegistry
                     init_FieldTypeRegistry unknown_type_document None None))
              _ "Money").
    + left.
    + eexists _, _, _, _. split; [reflexivity|].
      split; [vm_compute; reflexivity|]. split; [left|].
      split; [reflexivity|]. vm_compute. reflexivity.
    + vm_compute. reflexivity.
  - apply (proj2 (proj2 (C9_unregistered_name_fails_loading init_RecordReaderRegistry
                     init_FieldTypeRegistry known_document None None))).
    vm_compute. reflexivity.
Defined.

(** C10 on the invoice schema under a handler that answers the nil error
    with an error: [Parse] returns it at the first line. *)
Lemma C10_witness :
  (∃ evs, calls (final_state
                   (scan_definitions prefix_Match (invoices always_stop)
                      (InvoiceHeader :: [InvoiceLine; InvoiceLineDist])
                      (bytes_of_string "010INV01") initial))
          = calls initial ++ CallErrorHandler None :: evs) ∧
  Parse prefix_Match (invoices always_stop)
    (bytes_of_string "010INV01" :: lines ["0300001"])
    = Returned (Some (errorString "stop"))
        (logged (CallErrorHandler None) (with_lineNum 1 initial)).
Proof.
  destruct (C10_handler_called_with_nil prefix_Match (invoices always_stop)
              InvoiceHeader [InvoiceLine; InvoiceLineDist]
              (bytes_of_string "010INV01") initial true) as [Hcall Hstop].
  - vm_compute. reflexivity.
  - split; [exact Hcall|]. apply Hstop; reflexivity.
Defined.

(** * More of the package *)

(** ** One line of [Parse], exactly *)

Lemma insert_as_alter {A} (f : A → A) (l : list A) i x :
  l !! i = Some x → <[i := f x]> l = alter f i l.
Proof.
  intros Hi. apply list_eq. intros j.
  rewrite list_lookup_alter. destruct (decide (i = j)) as [<-|Hne].
  - rewrite list_lookup_insert_eq by (eapply lookup_lt_Some; eassumption).
    by rewrite Hi.
  - by rewrite list_lookup_insert_ne.
Qed.

Lemma update_alter q f st st' :
  update q f st = Next tt st' → st' = with_heap (alter f q (heap st)) st.
Proof.
  rewrite update_run. destruct (heap st !! q) as [r|] eqn:E; [|discriminate].
  intros [= <-]. by rewrite (insert_as_alter f _ _ _ E).
Qed.

(** What attaching does to a heap with a new record at its end. *)
Lemma attached_one_more parentName (h : Heap) (new : Record_) (lr : gmap string nat) :
  Parent new = None → Children new = [] →
  (∀ q, lr !! parentName = Some q → (q ≤ length h)%nat) →
  one_more h (attached parentName (length h) (h ++ [new]) lr) new.
Proof.
  intros HP HC Hlr. unfold attached.
  assert (Hn : (h ++ [new]) !! length h = Some new)
    by (apply list_lookup_middle; reflexivity).
  assert (Hold : ∀ q r, h !! q = Some r → (h ++ [new]) !! q = Some r ∧ q ≠ length h).
  { intros q r Hq. split; [by apply lookup_app_l_Some|].
    apply lookup_lt_Some in Hq. lia. }
  assert (Hlen : length (h ++ [new]) = S (length h))
    by (rewrite length_app; simpl; lia).
  assert (Hsame : one_more h (h ++ [new]) new).
  { split; [exact Hlen|]. exists None, new. split; [exact Hn|].
    split; [reflexivity|]. split; [reflexivity|]. split.
    - intros q r Hq. exists r. destruct (Hold q r Hq) as [Hq' _].
      rewrite app_nil_r. auto 10.
    - auto. }
  destruct (lr !! parentName) as [q0|] eqn:Elr; [|exact Hsame].
  specialize (Hlr q0 eq_refl).
  destruct ((h ++ [new]) !! q0) as [pr|] eqn:Epr; [|exact Hsame].
  destruct (isWithinSplit pr) eqn:Ew.
  - split; [by rewrite !length_alter|].
    exists (Some q0).
    destruct (decide (q0 = length h)) as [->|Hne].
    + exists (append_Children (length h) (set_isWithinSplit new)).
      split; [by rewrite list_lookup_alter_eq, list_lookup_alter_eq, Hn|].
      split; [reflexivity|]. split; [reflexivity|]. split.
      * intros q r Hq. destruct (Hold q r Hq) as [Hq' Hqn]. exists r.
        rewrite !list_lookup_alter_ne by congruence.
        rewrite decide_False by congruence. rewrite app_nil_r. auto 10.
      * split; [lia|]. split; [reflexivity|]. split; [exact HP|].
        split; [simpl; by rewrite HC|].
        eexists. split; [by rewrite list_lookup_alter_eq, list_lookup_alter_eq, Hn|].
        reflexivity.
    + exists (set_isWithinSplit new).
      split; [by rewrite list_lookup_alter_ne, list_lookup_alter_eq, Hn by congruence|].
      split; [reflexivity|]. split; [reflexivity|]. split.
      * intros q r Hq. destruct (Hold q r Hq) as [Hq' Hqn].
        destruct (decide (q = q0)) as [->|Hq0].
        -- exists (append_Children (length h) r).
           rewrite list_lookup_alter_eq, list_lookup_alter_ne, Hq' by congruence.
           rewrite decide_True by reflexivity. auto 10.
        -- exists r. rewrite !list_lookup_alter_ne, Hq' by congruence.
           rewrite decide_False by congruence. rewrite app_nil_r. auto 10.
      * split; [lia|]. split; [reflexivity|]. split; [exact HP|].
        split; [exact HC|].
        exists (append_Children (length h) pr).
        split; [by rewrite list_lookup_alter_eq, list_lookup_alter_ne, Epr by congruence|].
        exact Ew.
  - split; [by rewrite length_alter|].
    exists None, (set_Parent (Some q0) new).
    split; [by rewrite list_lookup_alter_eq, Hn|].
    split; [reflexivity|]. split; [reflexivity|]. split.
    + intros q r Hq. destruct (Hold q r Hq) as [Hq' Hqn]. exists r.
      rewrite list_lookup_alter_ne, Hq' by congruence.
      rewrite app_nil_r. auto 10.
    + split; [exact HC|]. split; [reflexivity|]. right.
      destruct (decide (q0 = length h)) as [->|Hne].
      * exists (length h), (set_Parent (Some (length h)) new).
        split; [reflexivity|]. split; [lia|].
        split; [by rewrite list_lookup_alter_eq, Hn|].
        rewrite Hn in Epr. injection Epr as <-. exact Ew.
      * exists q0, pr. split; [reflexivity|]. split; [lia|].
        split; [by rewrite list_lookup_alter_ne, Epr by congruence | exact Ew].
Qed.

(** The cells of the heap after one more record, and their children. *)
Lemma one_more_cells (h h' : Heap) new :
  one_more h h' new →
  ∃ (owner : option nat) rn,
    h' !! length h = Some rn ∧
    (∀ q r', h' !! q = Some r' →
       (q = length h ∧ r' = rn) ∨
       (q < length h)%nat ∧ ∃ r, h !! q = Some r ∧ Name r' = Name r ∧
         Parent r' = Parent r ∧ isWithinSplit r' = isWithinSplit r ∧
         Children r' = Children r ++ (if decide (owner = Some q) then [length h] else [])) ∧
    (∀ q r' c, h' !! q = Some r' → c ∈ Children r' →
       (c = length h ∧ owner = Some q) ∨
       (q < length h)%nat ∧ ∃ r, h !! q = Some r ∧ c ∈ Children r).
Proof.
  intros (Hlen & owner & rn & Hn & _ & _ & Hold & Hown).
  exists owner, rn. split; [exact Hn|].
  assert (Hcell : ∀ q r', h' !! q = Some r' →
    (q = length h ∧ r' = rn) ∨
    (q < length h)%nat ∧ ∃ r, h !! q = Some r ∧ Name r' = Name r ∧
      Parent r' = Parent r ∧ isWithinSplit r' = isWithinSplit r ∧
      Children r' = Children r ++ (if decide (owner = Some q) then [length h] else [])).
  { intros q r' Hq. pose proof (lookup_lt_Some _ _ _ Hq) as Hlt. rewrite Hlen in Hlt.
    destruct (decide (q = length h)) as [->|Hne].
    - left. split; [reflexivity | congruence].
    - right. assert (Hq' : (q < length h)%nat) by lia. split; [exact Hq'|].
      destruct (lookup_lt_is_Some_2 h q Hq') as [r Hr].
      destruct (Hold q r Hr) as (r'' & Hr'' & HN & _ & HP & HW & HC).
      exists r. rewrite Hq in Hr''. injection Hr'' as <-. auto. }
  split; [exact Hcell|].
  intros q r' c Hq Hc. destruct (Hcell q r' Hq) as [[-> ->]|(Hlt & r & Hr & _ & _ & _ & HC)].
  - left. destruct owner as [q0|].
    + destruct Hown as (_ & _ & _ & HCn & _). rewrite HCn in Hc.
      destruct (decide (q0 = length h)) as [->|]; [|inversion Hc].
      apply list_elem_of_singleton in Hc. auto.
    + destruct Hown as (HCn & _). rewrite HCn in Hc. inversion Hc.
  - rewrite HC in Hc. apply elem_of_app in Hc as [Hc|Hc].
    + right. eauto.
    + left. destruct (decide (owner = Some q)) as [->|]; [|inversion Hc].
      apply list_elem_of_singleton in Hc. auto.
Qed.

(** One more record keeps the shape of the heap. *)
Lemma one_more_shaped split (h h' : Heap) new :
  shaped split h → one_more h h' new →
  isWithinSplit new = bool_decide (Name new = split) →
  shaped split h'.
Proof.
  intros [Hlater Hwithin Hparent Hone Honce Hchar] Hmore Hflag.
  destruct (one_more_cells h h' new Hmore) as (owner & rn & Hn & Hcell & Hchild).
  destruct Hmore as (Hlen & owner' & rn' & Hn' & HNn & _ & Hold & Hown).
  assert (Hsame : ∀ q r c, h' !! q = Some r → c ∈ Children r →
            (c = length h ∧ ∃ r0, h' !! q = Some r0 ∧ isWithinSplit r0 = true ∧
               (q ≤ length h)%nat ∧ isWithinSplit rn' = true ∧ Parent rn' = None ∧
               owner' = Some q) ∨
            (q < length h)%nat ∧ ∃ r0, h !! q = Some r0 ∧ c ∈ Children r0 ∧
               (c < length h)%nat).
  { intros q r c Hq Hc.
    assert (Hc' : c ∈ Children r) by exact Hc.
    destruct (Hcell q r Hq) as [[-> ->]|(Hlt & r0 & Hr0 & _ & _ & _ & HC)].
    - rewrite Hn' in Hn. injection Hn as <-. left.
      destruct owner' as [q0|].
      + destruct Hown as (Hle & Hw & HP & HCn & r1 & Hr1 & Hw1). rewrite HCn in Hc.
        destruct (decide (q0 = length h)) as [->|]; [|inversion Hc].
        apply list_elem_of_singleton in Hc. split; [exact Hc|].
        exists r1. auto 10.
      + destruct Hown as (HCn & _). rewrite HCn in Hc. inversion Hc.
    - destruct (Hold q r0 Hr0) as (r1 & Hr1 & _ & _ & _ & _ & HC1).
      rewrite Hq in Hr1. injection Hr1 as <-. rewrite HC1 in Hc.
      apply elem_of_app in Hc as [Hc|Hc].
      + right. split; [exact Hlt|]. exists r0. split; [exact Hr0|].
        split; [exact Hc|]. apply (Hlater q r0 c Hr0 Hc).
      + left. destruct (decide (owner' = Some q)) as [->|]; [|inversion Hc].
        apply list_elem_of_singleton in Hc. split; [exact Hc|].
        destruct Hown as (Hle & Hw & HP & _ & r2 & Hr2 & Hw2).
        exists r2. auto 10. }
  assert (Holdcell : ∀ q r, h !! q = Some r →
            ∃ r', h' !! q = Some r' ∧ Name r' = Name r ∧ Parent r' = Parent r ∧
                  isWithinSplit r' = isWithinSplit r ∧
                  ∀ c, c ∈ Children r → c ∈ Children r').
  { intros q r Hq. destruct (Hold q r Hq) as (r' & Hr' & HN & _ & HP & HW & HC).
    exists r'. repeat split; try assumption.
    intros c Hc. rewrite HC. apply elem_of_app. by left. }
  split.
  - intros q r c Hq Hc.
    destruct (Hsame q r c Hq Hc) as [(-> & _ & _ & _ & Hle & _)|(Hlt & r0 & Hr0 & Hc0 & Hclt)].
    + rewrite Hlen. lia.
    + destruct (Hlater q r0 c Hr0 Hc0). rewrite Hlen. lia.
  - intros q r c Hq Hc.
    destruct (Hsame q r c Hq Hc)
      as [(-> & r0 & Hr0 & Hw0 & _ & Hwn & HPn & _)|(Hlt & r0 & Hr0 & Hc0 & Hclt)].
    + rewrite Hq in Hr0. injection Hr0 as <-. split; [exact Hw0|].
      exists rn'. auto.
    + destruct (Hwithin q r0 c Hr0 Hc0) as (Hw0 & rc & Hrc & Hwc & HPc).
      destruct (Holdcell q r0 Hr0) as (r' & Hr' & _ & _ & HW & _).
      rewrite Hq in Hr'. injection Hr' as <-.
      destruct (Holdcell c rc Hrc) as (rc' & Hrc' & _ & HP' & HW' & _).
      split; [congruence|]. exists rc'. split; [exact Hrc'|]. split; congruence.
  - intros c rc q Hc HP.
    destruct (Hcell c rc Hc) as [[-> ->]|(Hlt & r0 & Hr0 & _ & HP0 & _)].
    + rewrite Hn' in Hn. injection Hn as <-.
      destruct owner' as [q0|].
      * destruct Hown as (_ & _ & HPn & _). congruence.
      * destruct Hown as (_ & _ & [HPn|(q0 & r0 & HPn & Hle & Hr0 & Hw0)]); [congruence|].
        rewrite HP in HPn. injection HPn as ->. eauto.
    + rewrite HP0 in HP. destruct (Hparent c r0 q Hr0 HP) as (Hle & rq & Hrq & Hwq).
      split; [exact Hle|].
      destruct (Holdcell q rq Hrq) as (rq' & Hrq' & _ & _ & HW & _).
      exists rq'. split; [exact Hrq' | congruence].
  - intros q q' r r' c Hq Hq' Hc Hc'.
    destruct (Hsame q r c Hq Hc)
      as [(Hcn' & _ & _ & _ & _ & _ & _ & Ho)|(Hlt & r0 & Hr0 & Hc0 & Hclt)];
    destruct (Hsame q' r' c Hq' Hc')
      as [(Hcn & _ & _ & _ & _ & _ & _ & Ho')|(Hlt' & r0' & Hr0' & Hc0' & Hclt')].
    + congruence.
    + lia.
    + lia.
    + eapply Hone; eassumption.
  - intros q r Hq.
    destruct (Hcell q r Hq) as [[-> ->]|(Hlt & r0 & Hr0 & _ & _ & _ & HC)].
    + rewrite Hn' in Hn. injection Hn as <-. destruct owner' as [q0|].
      * destruct Hown as (_ & _ & _ & HCn & _). rewrite HCn.
        destruct (decide (q0 = length h)); [apply NoDup_singleton | apply NoDup_nil_2].
      * destruct Hown as (HCn & _). rewrite HCn. apply NoDup_nil_2.
    + destruct (Hold q r0 Hr0) as (r1 & Hr1 & _ & _ & _ & _ & HC1).
      rewrite Hq in Hr1. injection Hr1 as <-. rewrite HC1.
      apply NoDup_app. split; [by eapply Honce|]. split.
      * intros c Hc Hc'. destruct (Hlater q r0 c Hr0 Hc) as [_ Hclt].
        destruct (decide (owner' = Some q)); [|inversion Hc'].
        apply list_elem_of_singleton in Hc'. lia.
      * destruct (decide (owner' = Some q)); [apply NoDup_singleton | apply NoDup_nil_2].
  - intros c rc Hc.
    destruct (Hcell c rc Hc) as [[-> ->]|(Hlt & r0 & Hr0 & HN0 & _ & HW0 & _)].
    + rewrite Hn' in Hn. injection Hn as <-. destruct owner' as [q0|].
      * destruct Hown as (Hle & Hw & _ & HCn & r1 & Hr1 & Hw1).
        split; [|intros _; exact Hw]. intros _. right.
        destruct (decide (q0 = length h)) as [->|Hne].
        -- exists (length h), rn'. split; [exact Hn'|]. rewrite HCn. by left.
        -- assert (Hq0 : (q0 < length h)%nat) by lia.
           destruct (lookup_lt_is_Some_2 h q0 Hq0) as [r2 Hr2].
           destruct (Hold q0 r2 Hr2) as (r3 & Hr3 & _ & _ & _ & _ & HC3).
           exists q0, r3. split; [exact Hr3|]. rewrite HC3, decide_True by reflexivity.
           apply elem_of_app. right. by left.
      * destruct Hown as (HCn & Hw & _). rewrite Hw, Hflag, HNn.
        rewrite bool_decide_eq_true. split; [auto|].
        intros [Hs|(q & r & Hq & Hcq)]; [exact Hs|].
        destruct (Hsame q r _ Hq Hcq)
          as [(_ & _ & _ & _ & _ & _ & _ & Ho)|(_ & r0 & Hr0 & Hc0 & Hclt)];
          [discriminate | lia].
    + rewrite HW0, HN0, (Hchar c r0 Hr0). split.
      * intros [Hs|(q & r & Hq & Hcq)]; [by left|]. right.
        destruct (Holdcell q r Hq) as (r' & Hr' & _ & _ & _ & Hsub). eauto.
      * intros [Hs|(q & r & Hq & Hcq)]; [by left|]. right.
        destruct (Hsame q r c Hq Hcq)
          as [(-> & _)|(_ & r1 & Hr1 & Hc1 & _)]; [lia | eauto].
Qed.

(** Attaching to a record built before keeps children after their
    parents. *)
Lemma forward_attached parentName (h : Heap) (new : Record_) (lr : gmap string nat) :
  forward h → Children new = [] →
  (∀ q, lr !! parentName = Some q → (q < length h)%nat) →
  forward (attached parentName (length h) (h ++ [new]) lr).
Proof.
  intros Hf HC Hlr.
  assert (Hlen : length (h ++ [new]) = S (length h))
    by (rewrite length_app; simpl; lia).
  assert (Hcell : ∀ q r, (h ++ [new]) !! q = Some r →
            (q = length h ∧ r = new) ∨ ((q < length h)%nat ∧ h !! q = Some r)).
  { intros q r Hq. destruct (decide (q < length h)%nat) as [Hlt|Hge].
    - right. by rewrite lookup_app_l in Hq.
    - left. pose proof (lookup_lt_Some _ _ _ Hq) as Hb. rewrite Hlen in Hb.
      assert (q = length h) as -> by lia.
      rewrite list_lookup_middle in Hq by reflexivity. split; congruence. }
  assert (Hbase : ∀ (q : nat) r (c : nat), (h ++ [new]) !! q = Some r → c ∈ Children r →
            (q < c)%nat ∧ (c < length h)%nat).
  { intros q r c Hq Hc. destruct (Hcell q r Hq) as [[-> ->]|[Hlt Hq']].
    - rewrite HC in Hc. inversion Hc.
    - apply (Hf q r c Hq' Hc). }
  unfold attached, forward.
  destruct (lr !! parentName) as [q0|] eqn:Elr;
    [|intros q r c Hq Hc; rewrite Hlen; destruct (Hbase q r c Hq Hc); lia].
  specialize (Hlr q0 eq_refl).
  destruct ((h ++ [new]) !! q0) as [pr|] eqn:Epr;
    [|intros q r c Hq Hc; rewrite Hlen; destruct (Hbase q r c Hq Hc); lia].
  destruct (isWithinSplit pr).
  - intros q r c Hq Hc. rewrite !length_alter, Hlen.
    destruct (decide (q = q0)) as [->|Hne].
    + rewrite list_lookup_alter_eq, list_lookup_alter_ne, Epr in Hq by lia.
      injection Hq as <-. simpl in Hc. apply elem_of_app in Hc as [Hc|Hc].
      * destruct (Hbase q0 pr c Epr Hc). lia.
      * apply list_elem_of_singleton in Hc. lia.
    + rewrite list_lookup_alter_ne in Hq by congruence.
      destruct (decide (q = length h)) as [->|Hn].
      * rewrite list_lookup_alter_eq, list_lookup_middle in Hq by reflexivity.
        injection Hq as <-. simpl in Hc. rewrite HC in Hc. inversion Hc.
      * rewrite list_lookup_alter_ne in Hq by congruence.
        destruct (Hbase q r c Hq Hc). lia.
  - intros q r c Hq Hc. rewrite length_alter, Hlen.
    destruct (decide (q = length h)) as [->|Hn].
    + rewrite list_lookup_alter_eq, list_lookup_middle in Hq by reflexivity.
      injection Hq as <-. simpl in Hc. rewrite HC in Hc. inversion Hc.
    + rewrite list_lookup_alter_ne in Hq by congruence.
      destruct (Hbase q r c Hq Hc). lia.
Qed.

(** The links of the heap after attaching are those of the heap before
    and the link between the new record and the last record of its parent
    type. *)
Lemma attached_links parentName (h : Heap) (new : Record_) (lr : gmap string nat) :
  Parent new = None → Children new = [] →
  (∀ (q : nat) r (c : nat),
     attached parentName (length h) (h ++ [new]) lr !! q = Some r → c ∈ Children r →
     (∃ r0, h !! q = Some r0 ∧ c ∈ Children r0) ∨
     (c = length h ∧ lr !! parentName = Some q)) ∧
  (∀ (c : nat) rc (q : nat),
     attached parentName (length h) (h ++ [new]) lr !! c = Some rc → Parent rc = Some q →
     (∃ r0, h !! c = Some r0 ∧ Parent r0 = Some q) ∨
     (c = length h ∧ lr !! parentName = Some q)).
Proof.
  intros HP HC.
  assert (Hn : (h ++ [new]) !! length h = Some new)
    by (apply list_lookup_middle; reflexivity).
  assert (Hcell : ∀ q r, (h ++ [new]) !! q = Some r →
            (q = length h ∧ r = new) ∨ h !! q = Some r).
  { intros q r Hq. destruct (decide (q < length h)%nat) as [Hlt|Hge].
    - right. by rewrite lookup_app_l in Hq.
    - left. pose proof (lookup_lt_Some _ _ _ Hq) as Hb.
      rewrite length_app in Hb. simpl in Hb.
      assert (q = length h) as -> by lia. split; congruence. }
  assert (HbC : ∀ q r (c : nat), (h ++ [new]) !! q = Some r → c ∈ Children r →
            ∃ r0, h !! q = Some r0 ∧ c ∈ Children r0).
  { intros q r c Hq Hc. destruct (Hcell q r Hq) as [[-> ->]|Hq']; [|eauto].
    rewrite HC in Hc. inversion Hc. }
  assert (HbP : ∀ q r (q' : nat), (h ++ [new]) !! q = Some r → Parent r = Some q' →
            ∃ r0, h !! q = Some r0 ∧ Parent r0 = Some q').
  { intros q r q' Hq Hp. destruct (Hcell q r Hq) as [[-> ->]|Hq']; [congruence | eauto]. }
  unfold attached.
  destruct (lr !! parentName) as [q0|] eqn:Elr;
    [|split; intros; left; eauto].
  destruct ((h ++ [new]) !! q0) as [pr|] eqn:Epr;
    [|split; intros; left; eauto].
  assert (Hflag : ∀ q r, alter set_isWithinSplit (length h) (h ++ [new]) !! q = Some r →
            ∃ r1, (h ++ [new]) !! q = Some r1 ∧ Children r = Children r1 ∧
                  Parent r = Parent r1).
  { intros q r Hq. destruct (decide (q = length h)) as [->|Hne].
    - rewrite list_lookup_alter_eq, Hn in Hq. injection Hq as <-. eauto.
    - rewrite list_lookup_alter_ne in Hq by congruence. eauto. }
  destruct (isWithinSplit pr).
  - assert (Hboth : ∀ q r,
      alter (append_Children (length h)) q0
        (alter set_isWithinSplit (length h) (h ++ [new])) !! q = Some r →
      ∃ r1, (h ++ [new]) !! q = Some r1 ∧ Parent r = Parent r1 ∧
            Children r = Children r1 ++ (if decide (q = q0) then [length h] else [])).
    { intros q r Hq. destruct (decide (q = q0)) as [->|Hne].
      - rewrite list_lookup_alter_eq in Hq.
        destruct (alter set_isWithinSplit (length h) (h ++ [new]) !! q0) as [r2|] eqn:E2;
          [|discriminate].
        injection Hq as <-. destruct (Hflag q0 r2 E2) as (r1 & Hr1 & HC1 & HP1).
        exists r1. simpl. rewrite HC1. auto.
      - rewrite list_lookup_alter_ne in Hq by congruence.
        destruct (Hflag q r Hq) as (r1 & Hr1 & HC1 & HP1).
        exists r1. rewrite app_nil_r. auto. }
    split.
    + intros q r c Hq Hc. destruct (Hboth q r Hq) as (r1 & Hr1 & _ & HC1).
      rewrite HC1 in Hc. apply elem_of_app in Hc as [Hc|Hc]; [left; eauto|].
      destruct (decide (q = q0)) as [->|]; [|inversion Hc].
      apply list_elem_of_singleton in Hc. right. auto.
    + intros c rc q Hc Hp. destruct (Hboth c rc Hc) as (r1 & Hr1 & HP1 & _).
      left. apply (HbP c r1 q Hr1). congruence.
  - split.
    + intros q r c Hq Hc. left. destruct (decide (q = length h)) as [->|Hne].
      * rewrite list_lookup_alter_eq, Hn in Hq. injection Hq as <-.
        simpl in Hc. rewrite HC in Hc. inversion Hc.
      * rewrite list_lookup_alter_ne in Hq by congruence. eauto.
    + intros c rc q Hc Hp. destruct (decide (c = length h)) as [->|Hne].
      * rewrite list_lookup_alter_eq, Hn in Hc. injection Hc as <-.
        simpl in Hp. injection Hp as <-. right. auto.
      * rewrite list_lookup_alter_ne in Hc by congruence. left. eauto.
Qed.

(** Names and fields after one more record. *)
Lemma one_more_names (h h' : Heap) new :
  one_more h h' new →
  (∀ q r, h !! q = Some r →
     ∃ r', h' !! q = Some r' ∧ Name r' = Name r ∧ Fields r' = Fields r) ∧
  (∀ q r', h' !! q = Some r' →
     (q = length h ∧ Name r' = Name new ∧ Fields r' = Fields new) ∨
     (∃ r, h !! q = Some r ∧ Name r' = Name r ∧ Fields r' = Fields r)).
Proof.
  intros (Hlen & owner & rn & Hn & HN & HF & Hold & _).
  assert (Hfw : ∀ q r, h !! q = Some r →
            ∃ r', h' !! q = Some r' ∧ Name r' = Name r ∧ Fields r' = Fields r).
  { intros q r Hq. destruct (Hold q r Hq) as (r' & Hr' & HN' & HF' & _). eauto. }
  split; [exact Hfw|].
  intros q r' Hq. pose proof (lookup_lt_Some _ _ _ Hq) as Hlt. rewrite Hlen in Hlt.
  destruct (decide (q = length h)) as [->|Hne].
  - left. rewrite Hn in Hq. injection Hq as <-. auto.
  - right. assert (Hq' : (q < length h)%nat) by lia.
    destruct (lookup_lt_is_Some_2 h q Hq') as [r Hr].
    destruct (Hfw q r Hr) as (r'' & Hr'' & HN' & HF').
    exists r. rewrite Hq in Hr''. injection Hr'' as <-. auto.
Qed.

(** ** Records only grow *)

Lemma grown_refl r : grown r r.
Proof. repeat split; reflexivity. Qed.

Lemma grown_trans r1 r2 r3 : grown r1 r2 → grown r2 r3 → grown r1 r3.
Proof.
  intros (N1 & F1 & P1 & W1 & C1) (N2 & F2 & P2 & W2 & C2).
  repeat split; try congruence. by etransitivity.
Qed.

Global Instance grown_below_preorder n : PreOrder (grown_below n).
Proof.
  split.
  - intros st q r _ Hq. exists r. split; [exact Hq | apply grown_refl].
  - intros a b c Hab Hbc q r Hlt Hq.
    destruct (Hab q r Hlt Hq) as (r' & Hq' & G').
    destruct (Hbc q r' Hlt Hq') as (r'' & Hq'' & G'').
    exists r''. split; [exact Hq'' | by eapply grown_trans].
Qed.

Global Instance records_grown_preorder : PreOrder records_grown.
Proof.
  split.
  - intros st q r Hq. exists r. split; [exact Hq | apply grown_refl].
  - intros a b c Hab Hbc q r Hq.
    destruct (Hab q r Hq) as (r' & Hq' & G').
    destruct (Hbc q r' Hq') as (r'' & Hq'' & G'').
    exists r''. split; [exact Hq'' | by eapply grown_trans].
Qed.

Lemma grown_below_same_heap n st st' : heap st' = heap st → grown_below n st st'.
Proof.
  intros E q r _ Hq. rewrite E. exists r. split; [exact Hq | apply grown_refl].
Qed.

Lemma grown_below_all st st' :
  grown_below (length (heap st)) st st' → records_grown st st'.
Proof. intros G q r Hq. apply G; [by eapply lookup_lt_Some | exact Hq]. Qed.

(** An assignment to a record at or after [n]. *)
Lemma update_grown_above n (q : nat) f :
  (n ≤ q)%nat → respects (grown_below n) (update q f).
Proof.
  intros Hle st. rewrite update_run.
  destruct (heap st !! q) as [r0|] eqn:E0; simpl; [|reflexivity].
  intros q' r Hlt Hq'. simpl. rewrite list_lookup_insert_ne by lia.
  exists r. split; [exact Hq' | apply grown_refl].
Qed.

(** An assignment that lets the record grow. *)
Lemma update_grown n (q : nat) f :
  (∀ r, grown r (f r)) → respects (grown_below n) (update q f).
Proof.
  intros Hf st. rewrite update_run.
  destruct (heap st !! q) as [r0|] eqn:E0; simpl; [|reflexivity].
  intros q' r Hlt Hq'. simpl. destruct (decide (q' = q)) as [->|Hne].
  - rewrite list_lookup_insert_eq by (eapply lookup_lt_Some; eassumption).
    exists (f r0). split; [reflexivity|]. rewrite E0 in Hq'. injection Hq' as <-. apply Hf.
  - rewrite list_lookup_insert_ne by congruence.
    exists r. split; [exact Hq' | apply grown_refl].
Qed.

Lemma append_Children_grown c r : grown r (append_Children c r).
Proof. repeat split. simpl. by apply prefix_app_r. Qed.

Section Shape.
Context (regexp_Match : string → list byte → bool * option error) (p : Parser).

(** When [process_record] completes, the heap is the heap before with the
    new record at its end, attached as lines 164 to 179 attach it. *)
Lemma process_record_exact recDef data st st' :
  process_record p recDef data st = Next tt st' →
  ∃ fields,
    field_names fields = definition_names (FieldDefinitions recDef) ∧
    lastRecords st' = <[rd_Name recDef := length (heap st)]> (lastRecords st) ∧
    heap st' = attached (ParentRecordName recDef) (length (heap st))
                 (heap st ++ [installed p recDef fields]) (lastRecords st').
Proof.
  unfold process_record. intros E.
  apply bind_Next_inv in E as (rec & st1 & EB & E).
  apply bind_Next_inv in E as ([] & st2 & EI & EA).
  pose proof (build_record_run p recDef data st) as B. rewrite EB in B.
  destruct B as (-> & fields & stm & K & Hnames & Est1).
  destruct K as (Hh & Hl & _).
  exists fields. split; [exact Hnames|].
  assert (H2 : heap st2 = heap st ++ [installed p recDef fields] ∧
               lastRecords st2 = <[rd_Name recDef := length (heap st)]> (lastRecords st)).
  { rewrite install_split_run in EI. unfold installed.
    destruct (decide (rd_Name recDef = SplitOnRecordName p)) as [Hs|Hs].
    - rewrite bool_decide_eq_true_2 by assumption.
      assert (U : ∀ st0 : State,
        heap st0 = heap st ++ [built recDef fields] →
        lastRecords st0 = <[rd_Name recDef := length (heap st)]> (lastRecords st) →
        update (length (heap st)) set_isWithinSplit st0 = Next tt st2 →
        heap st2 = heap st ++ [set_isWithinSplit (built recDef fields)] ∧
        lastRecords st2 = <[rd_Name recDef := length (heap st)]> (lastRecords st)).
      { intros st0 E0 L0 EU. apply update_alter in EU. subst st2. simpl.
        rewrite E0, L0. split; [|reflexivity].
        rewrite alter_app_r_alt by lia. rewrite Nat.sub_diag. reflexivity. }
      destruct (splitRec st1) as [r|].
      + destruct (p_RecordProcessor p (heap st1) (Some r)); [discriminate|].
        apply U in EI; [exact EI | |]; rewrite Est1; simpl; congruence.
      + apply U in EI; [exact EI | |]; rewrite Est1; simpl; congruence.
    - rewrite bool_decide_eq_false_2 by assumption. injection EI as <-.
      rewrite Est1. simpl. rewrite Hh, Hl. split; reflexivity. }
  destruct H2 as [Hh2 Hl2].
  rewrite attach_parent_run in EA. unfold attached.
  assert (Hfin : ∀ st3 : State, lastRecords st3 = lastRecords st2 →
            lastRecords st3 = <[rd_Name recDef := length (heap st)]> (lastRecords st))
    by (intros; congruence).
  destruct (lastRecords st2 !! ParentRecordName recDef) as [parent|] eqn:Elook.
  - destruct (heap st2 !! parent) as [parentRec|] eqn:Ep; [|discriminate].
    destruct (isWithinSplit parentRec) eqn:Ew.
    + apply bind_Next_inv in EA as ([] & st3 & EU1 & EU2).
      apply update_alter in EU1. apply update_alter in EU2. subst st3 st'. simpl.
      split; [exact Hl2|]. rewrite Hl2, <- Hl2, Elook, <- Hh2, Ep, Ew. reflexivity.
    + apply update_alter in EA. subst st'. simpl.
      split; [exact Hl2|]. rewrite Hl2, <- Hl2, Elook, <- Hh2, Ep, Ew. reflexivity.
  - assert (lastRecords st' = lastRecords st2 ∧ heap st' = heap st2) as [L3 H3].
    { destruct (decide (ParentRecordName recDef ≠ EmptyString)).
      - rewrite handle_run in EA. destruct (p_ErrorHandler p _); [discriminate|].
        injection EA as <-. split; reflexivity.
      - injection EA as <-. split; reflexivity. }
    rewrite L3, H3. split; [exact Hl2|]. rewrite Elook. exact Hh2.
Qed.

(** The last record of a name is a record on the heap. *)
Lemma last_records_built st k (q : nat) :
  between_lines p st → lastRecords st !! k = Some q → (q < length (heap st))%nat.
Proof.
  intros B Hk. pose proof (names_right p st B k q Hk) as Hn.
  destruct (heap st !! q) eqn:E; [|discriminate].
  by apply lookup_lt_Some in E.
Qed.

(** What holds between two lines, with the shape of the heap. *)
Lemma process_record_shaped recDef data st st' :
  process_record p recDef data st = Next tt st' →
  between_lines p st → shaped (SplitOnRecordName p) (heap st) →
  shaped (SplitOnRecordName p) (heap st').
Proof.
  intros E B Hs.
  destruct (process_record_exact recDef data st st' E) as (fields & _ & Hl & Hh).
  rewrite Hh.
  apply (one_more_shaped _ (heap st) _ (installed p recDef fields));
    [exact Hs | | reflexivity].
  apply attached_one_more; [reflexivity | reflexivity |].
  intros q. rewrite Hl. intros Hq.
  destruct (decide (rd_Name recDef = ParentRecordName recDef)) as [Hp|Hp].
  - rewrite <- Hp, lookup_insert_eq in Hq. injection Hq as <-. lia.
  - rewrite lookup_insert_ne in Hq by exact Hp.
    pose proof (last_records_built st _ q B Hq). lia.
Qed.

Lemma process_record_forward recDef data st st' :
  process_record p recDef data st = Next tt st' →
  ParentRecordName recDef ≠ rd_Name recDef →
  between_lines p st → forward (heap st) → forward (heap st').
Proof.
  intros E Hp B Hf.
  destruct (process_record_exact recDef data st st' E) as (fields & _ & Hl & Hh).
  rewrite Hh. apply forward_attached; [exact Hf | reflexivity |].
  intros q. rewrite Hl, lookup_insert_ne by congruence.
  apply last_records_built, B.
Qed.

Lemma scan_line_shaped data st st' :
  scan_line regexp_Match p data st = Next tt st' →
  between_lines p st →
  (shaped (SplitOnRecordName p) (heap st) → shaped (SplitOnRecordName p) (heap st')) ∧
  (no_own_parent p → forward (heap st) → forward (heap st')).
Proof.
  intros E B. unfold scan_line in E.
  apply bind_Next_inv in E as ([] & st0 & E0 & E).
  injection E0 as <-.
  pose proof (between_lines_lineNum p (S (lineNum st)) st B) as B0.
  destruct (scan_definitions_run regexp_Match p (RecordDefinitions p) data
              (with_lineNum (S (lineNum st)) st))
    as [K|(recDef & st1 & Hin & K & _ & Er)].
  - rewrite E in K. destruct K as (Hh & _). simpl in Hh. rewrite Hh. auto.
  - rewrite E in Er. symmetry in Er.
    pose proof (between_lines_core_kept p _ _ K B0) as B1.
    destruct K as (Hh & _). simpl in Hh. rewrite <- Hh. split.
    + by apply (process_record_shaped recDef data).
    + intros Hown. apply (process_record_forward recDef data st1 st' Er); [|exact B1].
      unfold no_own_parent in Hown. rewrite List.Forall_forall in Hown.
      apply Hown. by apply list_elem_of_In.
Qed.

Lemma scan_lines_shaped source st st' :
  scan_lines regexp_Match p source st = Next tt st' →
  between_lines p st →
  (shaped (SplitOnRecordName p) (heap st) → shaped (SplitOnRecordName p) (heap st')) ∧
  (no_own_parent p → forward (heap st) → forward (heap st')).
Proof.
  revert st. induction source as [|data rest IH]; intros st E B.
  - injection E as <-. auto.
  - simpl in E. apply bind_Next_inv in E as ([] & st0 & E0 & E).
    destruct (scan_line_shaped data st st0 E0 B) as [H1 H2].
    destruct (IH st0 E (scan_line_between_lines regexp_Match p data st st0 E0 B))
      as [H3 H4].
    split; [auto | intros Hown Hf; auto].
Qed.

Lemma install_split_grown n recDef (rec : nat) :
  (n ≤ rec)%nat → respects (grown_below n) (install_split p recDef rec).
Proof.
  intros Hle st. rewrite install_split_run.
  destruct (decide (rd_Name recDef = SplitOnRecordName p)); [|reflexivity].
  assert (U : ∀ st0 : State, heap st0 = heap st →
            grown_below n st (final_state (update rec set_isWithinSplit st0))).
  { intros st0 E. etransitivity; [apply grown_below_same_heap, E|].
    by apply update_grown_above. }
  destruct (splitRec st) as [r|]; [|by apply U].
  destruct (p_RecordProcessor p (heap st) (Some r)); [|by apply U].
  by apply grown_below_same_heap.
Qed.

Lemma attach_parent_grown n recDef (rec : nat) :
  (n ≤ rec)%nat → respects (grown_below n) (attach_parent p recDef rec).
Proof.
  intros Hle st. rewrite attach_parent_run.
  destruct (lastRecords st !! ParentRecordName recDef) as [parent|].
  - destruct (heap st !! parent) as [parentRec|]; [|reflexivity].
    destruct (isWithinSplit parentRec).
    + apply (respects_bind (grown_below n)); [|intros _].
      * by apply update_grown_above.
      * apply update_grown, append_Children_grown.
    + by apply update_grown_above.
  - destruct (decide (ParentRecordName recDef ≠ EmptyString)); [|reflexivity].
    rewrite handle_run. destruct (p_ErrorHandler p _); by apply grown_below_same_heap.
Qed.

Lemma process_record_grown recDef data : respects records_grown (process_record p recDef data).
Proof.
  intros st. apply grown_below_all. unfold process_record. rewrite run_bind.
  pose proof (build_record_run p recDef data st) as B.
  destruct (build_record p recDef data st) as [rec st1|err st1|st1]; simpl in B.
  - destruct B as (-> & fields & stm & (Hh & _) & _ & ->).
    etransitivity; cycle 1.
    + apply (respects_bind (grown_below (length (heap st)))).
      * by apply install_split_grown.
      * intros _. by apply attach_parent_grown.
    + intros q r Hlt Hq. simpl. rewrite Hh. exists r.
      split; [by apply lookup_app_l_Some | apply grown_refl].
  - destruct B as (Hh & _). by apply grown_below_same_heap.
  - destruct B as (Hh & _). by apply grown_below_same_heap.
Qed.

Lemma records_grown_same_heap st st' : heap st' = heap st → records_grown st st'.
Proof.
  intros E q r Hq. rewrite E. exists r. split; [exact Hq | apply grown_refl].
Qed.

Lemma scan_line_grown data : respects records_grown (scan_line regexp_Match p data).
Proof.
  intros st. unfold scan_line. rewrite run_bind. simpl.
  destruct (scan_definitions_run regexp_Match p (RecordDefinitions p) data
              (with_lineNum (S (lineNum st)) st))
    as [(Hh & _)|(recDef & st1 & _ & (Hh & _) & _ & Er)].
  - by apply records_grown_same_heap.
  - rewrite Er. etransitivity; [|apply process_record_grown].
    by apply records_grown_same_heap.
Qed.

Lemma scan_lines_grown source : respects records_grown (scan_lines regexp_Match p source).
Proof.
  induction source as [|data rest IH].
  - apply (respects_ret records_grown).
  - simpl. apply (respects_bind records_grown); [apply scan_line_grown | intros _; exact IH].
Qed.

(** ** The heap follows the schema *)

Lemma process_record_schema_kept recDef data st st' :
  process_record p recDef data st = Next tt st' →
  recDef ∈ RecordDefinitions p →
  between_lines p st → schema_kept p (heap st) → schema_kept p (heap st').
Proof.
  intros E Hin B [Hrec Hchild Hparent].
  pose proof (process_record_between_lines p recDef data st st' E B) as B'.
  destruct (process_record_exact recDef data st st' E) as (fields & Hnames & Hl & Hh).
  assert (Hbound : ∀ q : nat, lastRecords st' !! ParentRecordName recDef = Some q →
            (q ≤ length (heap st))%nat).
  { intros q. rewrite Hl. intros Hq.
    destruct (decide (rd_Name recDef = ParentRecordName recDef)) as [Hp|Hp].
    - rewrite <- Hp, lookup_insert_eq in Hq. injection Hq as <-. lia.
    - rewrite lookup_insert_ne in Hq by exact Hp.
      pose proof (last_records_built st _ q B Hq). lia. }
  pose proof (attached_one_more (ParentRecordName recDef) (heap st)
                (installed p recDef fields) (lastRecords st') eq_refl eq_refl Hbound) as Hmore.
  rewrite <- Hh in Hmore.
  destruct (one_more_names _ _ _ Hmore) as [Hfw Hbw].
  destruct (attached_links (ParentRecordName recDef) (heap st)
              (installed p recDef fields) (lastRecords st') eq_refl eq_refl) as [HlC HlP].
  rewrite <- Hh in HlC, HlP.
  assert (Hnew : ∀ r', heap st' !! length (heap st) = Some r' → follows recDef r').
  { intros r' Hr'. destruct (Hbw _ _ Hr') as [(_ & HN & HF)|(r & Hr & _)].
    - split; [exact HN|]. rewrite HF. exact Hnames.
    - apply lookup_lt_Some in Hr. lia. }
  assert (Hkeep : ∀ q r r' d, heap st !! q = Some r → heap st' !! q = Some r' →
            follows d r → follows d r' ∧ Name r' = Name r).
  { intros q r r' d Hq Hq' [HN HF].
    destruct (Hfw q r Hq) as (r'' & Hr'' & HN' & HF').
    rewrite Hq' in Hr''. injection Hr'' as <-.
    split; [split; congruence | exact HN']. }
  assert (Hlast : ∀ q r', lastRecords st' !! ParentRecordName recDef = Some q →
            heap st' !! q = Some r' → ParentRecordName recDef = Name r').
  { intros q r' Hq Hr'. pose proof (names_right p st' B' _ _ Hq) as HN.
    rewrite Hr' in HN. simpl in HN. congruence. }
  assert (Hnewcell : is_Some (heap st' !! length (heap st))).
  { apply lookup_lt_is_Some. destruct Hmore as [Hlen _]. lia. }
  split.
  - intros q r' Hq. destruct (Hbw q r' Hq) as [(-> & _)|(r & Hr & HN & HF)].
    + exists recDef. split; [exact Hin | by apply Hnew].
    + destruct (Hrec q r Hr) as (d & Hd & Hfol). exists d. split; [exact Hd|].
      by apply (Hkeep q r r' d).
  - intros q r' c Hq Hc. destruct (HlC q r' c Hq Hc) as [(r0 & Hr0 & Hc0)|[-> Hlr]].
    + destruct (Hchild q r0 c Hr0 Hc0) as (rc & d & Hrc & Hd & Hfol & Hpn).
      destruct (Hfw c rc Hrc) as (rc' & Hrc' & _).
      exists rc', d. split; [exact Hrc'|]. split; [exact Hd|].
      split; [by apply (Hkeep c rc rc' d)|].
      destruct (Hfw q r0 Hr0) as (r'' & Hr'' & HN' & _).
      rewrite Hq in Hr''. injection Hr'' as <-. congruence.
    + destruct Hnewcell as [rn Hrn]. exists rn, recDef.
      split; [exact Hrn|]. split; [exact Hin|]. split; [by apply Hnew|].
      by apply (Hlast q).
  - intros c rc' q Hc Hp. destruct (HlP c rc' q Hc Hp) as [(r0 & Hr0 & Hp0)|[-> Hlr]].
    + destruct (Hparent c r0 q Hr0 Hp0) as (rq & d & Hrq & Hd & Hfol & Hpn).
      destruct (Hfw q rq Hrq) as (rq' & Hrq' & HN' & _).
      exists rq', d. split; [exact Hrq'|]. split; [exact Hd|].
      split; [by apply (Hkeep c r0 rc' d) | congruence].
    + pose proof (names_right p st' B' _ _ Hlr) as HN.
      destruct (heap st' !! q) as [rq|] eqn:Erq; [|discriminate].
      exists rq, recDef. split; [reflexivity|]. split; [exact Hin|].
      split; [by apply Hnew|]. by apply (Hlast q).
Qed.

Lemma scan_line_schema_kept data st st' :
  scan_line regexp_Match p data st = Next tt st' →
  between_lines p st → schema_kept p (heap st) → schema_kept p (heap st').
Proof.
  intros E B. unfold scan_line in E.
  apply bind_Next_inv in E as ([] & st0 & E0 & E).
  injection E0 as <-.
  pose proof (between_lines_lineNum p (S (lineNum st)) st B) as B0.
  destruct (scan_definitions_run regexp_Match p (RecordDefinitions p) data
              (with_lineNum (S (lineNum st)) st))
    as [K|(recDef & st1 & Hin & K & _ & Er)].
  - rewrite E in K. destruct K as (Hh & _). simpl in Hh. rewrite Hh. auto.
  - rewrite E in Er. symmetry in Er.
    pose proof (between_lines_core_kept p _ _ K B0) as B1.
    destruct K as (Hh & _). simpl in Hh. rewrite <- Hh.
    by apply (process_record_schema_kept recDef data).
Qed.

Lemma scan_lines_schema_kept source st st' :
  scan_lines regexp_Match p source st = Next tt st' →
  between_lines p st → schema_kept p (heap st) → schema_kept p (heap st').
Proof.
  revert st. induction source as [|data rest IH]; intros st E B Hs.
  - by injection E as <-.
  - simpl in E. apply bind_Next_inv in E as ([] & st0 & E0 & E).
    apply (IH st0 E).
    + by apply (scan_line_between_lines regexp_Match p data st).
    + by apply (scan_line_schema_kept data st).
Qed.

(** ** Lines and records *)

Lemma scan_definitions_count recDefs data st st' :
  scan_definitions regexp_Match p recDefs data st = Next tt st' →
  length (heap st') = length (heap st) +
    (if existsb (fun recDef => (Match regexp_Match recDef data).1) recDefs then 1 else 0).
Proof.
  revert st. induction recDefs as [|recDef rest IH]; intros st E; simpl in *.
  - injection E as <-. lia.
  - destruct (Match regexp_Match recDef data) as [matched err] eqn:EM. simpl.
    apply bind_Next_inv in E as ([] & st0 & EH & E).
    rewrite handle_run in EH.
    destruct (p_ErrorHandler p (ConfigurationError err)); [discriminate|].
    injection EH as <-. destruct matched; simpl.
    + pose proof (process_record_summary p recDef data
                    (logged (CallErrorHandler (ConfigurationError err)) st)) as S0.
      cbv zeta in S0. destruct S0 as (_ & _ & S0).
      destruct (S0 tt st' E) as (Hlen & _). rewrite E in Hlen. simpl in Hlen. lia.
    + rewrite (IH _ E). reflexivity.
Qed.

Lemma scan_lines_count source st st' :
  scan_lines regexp_Match p source st = Next tt st' →
  length (heap st') = length (heap st) + length (filter (fun data => recognized regexp_Match p data = true) source).
Proof.
  revert st. induction source as [|data rest IH]; intros st E; simpl in *.
  - injection E as <-. lia.
  - apply bind_Next_inv in E as ([] & st0 & E0 & E).
    unfold scan_line in E0. apply bind_Next_inv in E0 as ([] & st1 & E1 & E0).
    injection E1 as <-. apply scan_definitions_count in E0. simpl in E0.
    rewrite (IH _ E), E0, filter_cons.
    destruct (recognized regexp_Match p data) eqn:ER; unfold recognized in ER; rewrite ER.
    + rewrite decide_True by reflexivity. simpl. lia.
    + rewrite decide_False by discriminate. lia.
Qed.

(** When no definition matches, the definitions are tried one after the
    other until the error handler returns an error. *)
Lemma scan_definitions_unrecognized recDefs data st :
  existsb (fun recDef => (Match regexp_Match recDef data).1) recDefs = false →
  let r := scan_definitions regexp_Match p recDefs data st in
  is_Panicked r = false ∧ core_kept st (final_state r) ∧
  (Forall (fun recDef =>
             p_ErrorHandler p (ConfigurationError (Match regexp_Match recDef data).2) = None)
          recDefs →
   r = Next tt (tried regexp_Match recDefs data st)).
Proof.
  revert st. induction recDefs as [|recDef rest IH]; intros st Hex; simpl in *.
  - split; [reflexivity|]. split; [reflexivity|]. reflexivity.
  - destruct (Match regexp_Match recDef data) as [matched err] eqn:EM. simpl in Hex.
    apply orb_false_iff in Hex as [-> Hex].
    rewrite run_bind, handle_run.
    pose proof (core_kept_logged (ConfigurationError err) st) as K. simpl.
    destruct (p_ErrorHandler p (ConfigurationError err)) eqn:EH; simpl.
    + split; [reflexivity|]. split; [exact K|].
      intros Hall. inversion Hall as [|? ? H0 _]; subst.
      rewrite EM in H0. simpl in H0. congruence.
    + destruct (IH (logged (CallErrorHandler (ConfigurationError err)) st) Hex)
        as (HP & K' & Hall').
      split; [exact HP|]. split; [etransitivity; eassumption|].
      intros Hall. inversion Hall as [|? ? _ Hrest]; subst. auto.
Qed.

(** ** The default error handler *)

Lemma quiet_snoc_processor evs record :
  quiet evs → quiet (evs ++ [CallRecordProcessor record]).
Proof.
  unfold quiet, handled. rewrite omap_app. simpl. by rewrite app_nil_r.
Qed.

Lemma quiet_snoc_nil evs : quiet evs → quiet (evs ++ [CallErrorHandler None]).
Proof.
  unfold quiet, handled. rewrite omap_app. simpl. intros H.
  apply Forall_app. split; [exact H|]. by constructor.
Qed.

Lemma stopping_bind {A B} (m : M A) (k : A → M B) :
  stopping m → (∀ a, stopping (k a)) → stopping (m ≫= k).
Proof.
  intros Hm Hk st Hq. rewrite run_bind. specialize (Hm st Hq).
  destruct (m st) as [a st'| |]; simpl in *; try assumption. by apply Hk.
Qed.

Lemma stopping_ret {A} (a : A) : stopping (mret a : M A).
Proof. intros st Hq. exact Hq. Qed.

Lemma stopping_same_calls {A} (m : M A) :
  (∀ st, calls (final_state (m st)) = calls st) → stopping m.
Proof.
  intros Hm st Hq. specialize (Hm st).
  destruct (m st); simpl in *; rewrite Hm; auto.
Qed.

Lemma stopping_update q f : stopping (update q f).
Proof.
  apply stopping_same_calls. intros st. rewrite update_run.
  destruct (heap st !! q); reflexivity.
Qed.

Section Default.
Hypothesis Hdefault : p_ErrorHandler p = DefaultErrorHandler.

Lemma stopping_handle err : stopping (handle p err).
Proof.
  intros st Hq. rewrite handle_run, Hdefault. unfold DefaultErrorHandler.
  destruct err as [e|]; simpl.
  - right. exists e, (calls st). auto.
  - by apply quiet_snoc_nil.
Qed.

Lemma stopping_build_Fields recDef recVals fldDefs i fields :
  stopping (build_Fields p recDef recVals i fldDefs fields).
Proof.
  revert i fields. induction fldDefs as [|fldDef rest IH]; intros i fields; simpl.
  - apply stopping_ret.
  - apply stopping_bind; [intros st Hq; exact Hq|]. intros st0.
    apply stopping_bind.
    { case_decide; [apply stopping_handle | apply stopping_ret]. }
    intros _. destruct (fd_FieldType fldDef) as [fieldType|]; [|intros st Hq; exact Hq].
    destruct (recVals !! i) as [recVal|]; [|intros st Hq; exact Hq].
    destruct (GetValue fieldType recVal) as [fldVal valerr].
    apply stopping_bind; [|intros _; apply IH].
    destruct valerr; [apply stopping_handle | apply stopping_ret].
Qed.

Lemma stopping_build_record recDef data : stopping (build_record p recDef data).
Proof.
  unfold build_record.
  destruct (rd_RecordReader recDef) as [reader|]; [|intros st Hq; exact Hq].
  destruct (Read reader data) as [[recVals err]|]; [|intros st Hq; exact Hq].
  apply stopping_bind.
  { destruct err; [apply stopping_handle | apply stopping_ret]. }
  intros _. apply stopping_bind; [apply stopping_build_Fields|]. intros fields.
  apply stopping_bind; [intros st Hq; exact Hq|]. intros rec.
  apply stopping_bind; [intros st Hq; exact Hq|]. intros st1.
  apply stopping_bind; [intros st Hq; exact Hq|]. intros _. apply stopping_ret.
Qed.

Lemma stopping_install_split recDef rec : stopping (install_split p recDef rec).
Proof.
  intros st Hq. rewrite install_split_run.
  destruct (decide (rd_Name recDef = SplitOnRecordName p)); [|exact Hq].
  destruct (splitRec st) as [r|].
  - destruct (p_RecordProcessor p (heap st) (Some r)).
    + left. simpl. by apply quiet_snoc_processor.
    + apply stopping_update. simpl. by apply quiet_snoc_processor.
  - by apply stopping_update.
Qed.

Lemma stopping_attach_parent recDef rec : stopping (attach_parent p recDef rec).
Proof.
  intros st Hq. rewrite attach_parent_run.
  destruct (lastRecords st !! ParentRecordName recDef) as [parent|].
  - destruct (heap st !! parent) as [parentRec|]; [|exact Hq].
    destruct (isWithinSplit parentRec).
    + apply stopping_bind; [apply stopping_update | intros _; apply stopping_update | exact Hq].
    + by apply stopping_update.
  - destruct (decide (ParentRecordName recDef ≠ EmptyString)); [|exact Hq].
    by apply stopping_handle.
Qed.

Lemma stopping_scan_definitions recDefs data :
  stopping (scan_definitions regexp_Match p recDefs data).
Proof.
  induction recDefs as [|recDef rest IH]; simpl.
  - apply stopping_ret.
  - destruct (Match regexp_Match recDef data) as [matched err].
    apply stopping_bind; [apply stopping_handle|]. intros _.
    destruct matched; [|exact IH].
    unfold process_record. apply stopping_bind; [apply stopping_build_record|].
    intros rec. apply stopping_bind; [apply stopping_install_split|].
    intros _. apply stopping_attach_parent.
Qed.

Lemma stopping_scan_lines source : stopping (scan_lines regexp_Match p source).
Proof.
  induction source as [|data rest IH]; simpl.
  - apply stopping_ret.
  - apply stopping_bind; [|intros _; exact IH].
    unfold scan_line. apply stopping_bind; [intros st Hq; exact Hq|].
    intros _. apply stopping_scan_definitions.
Qed.

Lemma stopping_send_last : stopping (send_last p).
Proof.
  intros st Hq. rewrite send_last_run, Hdefault. unfold DefaultErrorHandler.
  destruct (p_RecordProcessor p (heap st) (splitRec st)) as [e|]; simpl.
  - right. exists e, (calls st ++ [CallRecordProcessor (splitRec st)]).
    split; [reflexivity|]. split; [reflexivity|]. by apply quiet_snoc_processor.
  - left. by apply quiet_snoc_nil, quiet_snoc_processor.
Qed.

(** *** No panic under the default handler *)

Lemma build_Fields_no_panic recDef recVals fldDefs i fields st :
  Forall (fun fldDef => is_Some (fd_FieldType fldDef)) fldDefs →
  is_Panicked (build_Fields p recDef recVals i fldDefs fields st) = false.
Proof.
  intros Hft. revert i fields st.
  induction Hft as [|fldDef rest [fieldType Hty] _ IH]; intros i fields st; simpl;
    [reflexivity|].
  rewrite run_bind. simpl. rewrite run_bind.
  destruct (decide (Z.of_nat i > Z.of_nat (length recVals) - 1)%Z) as [Hpast|Hin].
  - rewrite handle_run, Hdefault. reflexivity.
  - simpl. rewrite Hty.
    destruct (lookup_lt_is_Some_2 recVals i) as [recVal Hval]; [lia|]. rewrite Hval.
    destruct (GetValue fieldType recVal) as [fldVal [ve|]]; rewrite run_bind.
    + rewrite handle_run, Hdefault. reflexivity.
    + simpl. apply IH.
Qed.

Lemma build_record_no_panic recDef data st reader :
  rd_RecordReader recDef = Some reader → Read reader data ≠ GoPanic →
  Forall (fun fldDef => is_Some (fd_FieldType fldDef)) (FieldDefinitions recDef) →
  is_Panicked (build_record p recDef data st) = false.
Proof.
  intros Hr Hread Hft. unfold build_record. rewrite Hr.
  destruct (Read reader data) as [[recVals err]|]; [|congruence].
  rewrite run_bind.
  assert (Hrest : ∀ st0 : State,
    is_Panicked
      ((fields ← build_Fields p recDef recVals 0 (FieldDefinitions recDef) [];
        rec ← new_Record {| Name := rd_Name recDef; Fields := fields; Parent := None;
                            Children := []; isWithinSplit := false |};
        st1 ← get;
        set_lastRecords (<[rd_Name recDef := rec]> (lastRecords st1));;
        mret rec) st0) = false).
  { intros st0. rewrite run_bind.
    pose proof (build_Fields_no_panic recDef recVals (FieldDefinitions recDef) 0 [] st0 Hft)
      as Hb.
    destruct (build_Fields p recDef recVals 0 (FieldDefinitions recDef) [] st0);
      [reflexivity | reflexivity | discriminate]. }
  destruct err as [e|].
  - rewrite handle_run, Hdefault. reflexivity.
  - simpl. apply Hrest.
Qed.

Lemma process_record_no_panic recDef data st reader :
  rd_RecordReader recDef = Some reader → Read reader data ≠ GoPanic →
  Forall (fun fldDef => is_Some (fd_FieldType fldDef)) (FieldDefinitions recDef) →
  between_lines p st →
  is_Panicked (process_record p recDef data st) = false.
Proof.
  intros Hr Hread Hft B. unfold process_record. rewrite run_bind.
  pose proof (build_record_run p recDef data st) as Hb.
  pose proof (build_record_no_panic recDef data st reader Hr Hread Hft) as Hnp.
  destruct (build_record p recDef data st) as [rec st1|err st1|st1];
    [|reflexivity|discriminate].
  simpl in Hb. destruct Hb as (-> & fields & stm & (Hh & Hl & _) & _ & Est1).
  assert (Hrec : heap st1 !! length (heap st) = Some (built recDef fields)).
  { rewrite Est1. simpl. rewrite Hh. apply list_lookup_middle. reflexivity. }
  assert (Hlen1 : length (heap st1) = S (length (heap st))).
  { rewrite Est1. simpl. rewrite length_app, Hh. simpl. lia. }
  assert (Hl1 : lastRecords st1 = <[rd_Name recDef := length (heap st)]> (lastRecords st)).
  { rewrite Est1. simpl. rewrite Hl. reflexivity. }
  rewrite run_bind.
  pose proof (install_split_summary p recDef _ st1 _ Hrec) as I. cbv zeta in I.
  destruct (install_split p recDef (length (heap st)) st1) as [[] st2| |];
    simpl in I; destruct I as ([Hlen2 _] & L2 & _ & _ & I); [|reflexivity|contradiction].
  rewrite attach_parent_run.
  destruct (lastRecords st2 !! ParentRecordName recDef) as [parent|] eqn:Ep.
  - assert (Hparent : (parent < length (heap st2))%nat).
    { rewrite L2, Hl1 in Ep. rewrite Hlen2, Hlen1.
      destruct (decide (rd_Name recDef = ParentRecordName recDef)) as [E|E].
      - rewrite <- E, lookup_insert_eq in Ep. injection Ep as <-. lia.
      - rewrite lookup_insert_ne in Ep by exact E.
        pose proof (last_records_built st _ parent B Ep). lia. }
    destruct (lookup_lt_is_Some_2 _ _ Hparent) as [parentRec Hpr]. rewrite Hpr.
    assert (Hnew : (length (heap st) < length (heap st2))%nat) by lia.
    destruct (lookup_lt_is_Some_2 _ _ Hnew) as [recR HrecR].
    destruct (isWithinSplit parentRec).
    + rewrite run_bind, update_run, HrecR. simpl. rewrite update_run. simpl.
      destruct (lookup_lt_is_Some_2 (<[length (heap st) := set_isWithinSplit recR]> (heap st2))
                  parent) as [r' Hr']; [by rewrite length_insert|].
      rewrite Hr'. reflexivity.
    + rewrite update_run, HrecR. reflexivity.
  - destruct (decide (ParentRecordName recDef ≠ EmptyString)); [|reflexivity].
    rewrite handle_run, Hdefault. reflexivity.
Qed.

Lemma scan_definitions_no_panic recDefs data st :
  Forall (fun recDef => (Match regexp_Match recDef data).1 = true → reads recDef data)
         recDefs →
  between_lines p st →
  is_Panicked (scan_definitions regexp_Match p recDefs data st) = false.
Proof.
  intros Hall. revert st.
  induction Hall as [|recDef rest Hreads _ IH]; intros st B; simpl; [reflexivity|].
  destruct (Match regexp_Match recDef data) as [matched err].
  rewrite run_bind, handle_run.
  destruct (p_ErrorHandler p (ConfigurationError err)); [reflexivity|].
  assert (B' : between_lines p (logged (CallErrorHandler (ConfigurationError err)) st)).
  { eapply between_lines_core_kept; [apply core_kept_logged | exact B]. }
  destruct matched.
  - destruct (Hreads eq_refl) as [(reader & Hr & Hread) Hft].
    by apply (process_record_no_panic recDef data _ reader).
  - by apply IH.
Qed.

Lemma scan_lines_no_panic source st :
  Forall (readable regexp_Match p) source → between_lines p st →
  is_Panicked (scan_lines regexp_Match p source st) = false.
Proof.
  intros Hall. revert st. induction Hall as [|data rest Hd _ IH]; intros st B; simpl;
    [reflexivity|].
  rewrite run_bind.
  pose proof (scan_definitions_no_panic (RecordDefinitions p) data
                (with_lineNum (S (lineNum st)) st) Hd
                (between_lines_lineNum p _ st B)) as Hnp.
  destruct (scan_line regexp_Match p data st) as [[] st'| |] eqn:E.
  - apply IH. by apply (scan_line_between_lines regexp_Match p data st).
  - reflexivity.
  - unfold scan_line in E. rewrite run_bind in E. simpl in E. rewrite E in Hnp.
    discriminate.
Qed.

End Default.

End Shape.

(** ** [GetField] and [FindRecord] *)

Lemma find_Field_Some fields name fld :
  find_Field fields name = Some fld →
  fld_Name fld = name ∧
  ∃ i : nat, fields !! i = Some fld ∧
    ∀ (j : nat) f, (j < i)%nat → fields !! j = Some f → fld_Name f ≠ name.
Proof.
  induction fields as [|f0 rest IH]; simpl; [discriminate|].
  destruct (decide (fld_Name f0 = name)) as [E|E].
  - intros [= <-]. split; [exact E|]. exists 0%nat. split; [reflexivity|]. intros; lia.
  - intros H. destruct (IH H) as (HN & i & Hi & Hfirst). split; [exact HN|].
    exists (S i). split; [exact Hi|]. intros [|j] f Hj Hf.
    + simpl in Hf. congruence.
    + simpl in Hf. apply (Hfirst j f); [lia | exact Hf].
Qed.

Lemma find_Field_None fields name :
  find_Field fields name = None ↔ name ∉ fld_Name <$> fields.
Proof.
  induction fields as [|f0 rest IH]; simpl.
  - split; [intros _ H; inversion H | reflexivity].
  - destruct (decide (fld_Name f0 = name)) as [E|E].
    + split; [discriminate|]. intros H. exfalso. apply H. rewrite E. by left.
    + rewrite IH. rewrite not_elem_of_cons. split; [auto | tauto].
Qed.

(** A record whose fields carry the names of field definitions has a field
    for the name of each of them. *)
Lemma find_Field_defined fields fldDefs d :
  field_names fields = definition_names fldDefs → d ∈ fldDefs →
  ∃ fld, find_Field fields (fd_Name d) = Some fld.
Proof.
  intros Hn Hd. destruct (find_Field fields (fd_Name d)) as [fld|] eqn:E; [eauto|].
  exfalso. apply find_Field_None in E. apply E.
  assert (Hfst : fld_Name <$> fields = fd_Name <$> fldDefs).
  { unfold field_names, definition_names in Hn.
    apply (f_equal (fmap fst)) in Hn. rewrite <- !list_fmap_compose in Hn. exact Hn. }
  rewrite Hfst. apply list_elem_of_fmap. eauto.
Qed.

Lemma in_unit_front h root r c q :
  h !! root = Some r → c ∈ Children r → in_unit h c q → in_unit h root q.
Proof.
  intros Hr Hc H. induction H as [|q0 r0 c0 _ IH Hq0 Hc0].
  - eapply unit_child; [apply unit_root | exact Hr | exact Hc].
  - eapply unit_child; [exact IH | exact Hq0 | exact Hc0].
Qed.

Lemma in_unit_front_inv h root q :
  in_unit h root q →
  q = root ∨ ∃ r c, h !! root = Some r ∧ c ∈ Children r ∧ in_unit h c q.
Proof.
  intros H. induction H as [|q0 r0 c0 H0 IH Hq0 Hc0]; [by left|]. right.
  destruct IH as [->|(r & c & Hr & Hc & Hu)].
  - exists r0, c0. split; [exact Hq0|]. split; [exact Hc0 | apply unit_root].
  - exists r, c. split; [exact Hr|]. split; [exact Hc|].
    eapply unit_child; eassumption.
Qed.

Lemma first_found_Some find children (q : nat) :
  first_found find children = Some (Val (Some q)) →
  ∃ child, child ∈ children ∧ find child = Some (Val (Some q)).
Proof.
  induction children as [|c rest IH]; simpl; [discriminate|].
  destruct (find c) as [[[q'|]|]|] eqn:E; try discriminate.
  - intros [= ->]. exists c. split; [by left | exact E].
  - intros H. destruct (IH H) as (child & Hin & Hf). exists child. split; [by right | exact Hf].
Qed.

Lemma first_found_nil find children :
  first_found find children = Some (Val None) →
  ∀ child, child ∈ children → find child = Some (Val None).
Proof.
  induction children as [|c rest IH]; simpl; [intros _ child H; inversion H|].
  destruct (find c) as [[[q'|]|]|] eqn:E; try discriminate.
  intros H child Hin. apply elem_of_cons in Hin as [->|Hin]; [exact E | by apply IH].
Qed.

Lemma first_found_total find children :
  (∀ child, child ∈ children → ∃ v, find child = Some (Val v)) →
  ∃ v, first_found find children = Some (Val v).
Proof.
  induction children as [|c rest IH]; simpl; intros H; [eauto|].
  destruct (H c) as [v Hv]; [by left|]. rewrite Hv.
  destruct v as [q|]; [eauto|]. apply IH. intros child Hin. apply H. by right.
Qed.

Lemma first_found_ext find find' children :
  (∀ child, child ∈ children → find child = find' child) →
  first_found find children = first_found find' children.
Proof.
  induction children as [|c rest IH]; simpl; intros H; [reflexivity|].
  rewrite <- (H c) by (by left).
  destruct (find c) as [[[q'|]|]|]; try reflexivity.
  apply IH. intros child Hin. apply H. by right.
Qed.

Section FindProperties.
Context (interface_equal : Value → Value → bool).

Lemma match_keys_Matched rec matches :
  match_keys interface_equal rec matches = KeysMatched ↔
  Forall (fun match_ => ∃ fld, GetField rec (fld_Name match_) = (fld, None) ∧
                               Field_equal interface_equal fld match_ = true) matches.
Proof.
  induction matches as [|m rest IH]; simpl.
  - split; [constructor | reflexivity].
  - rewrite Forall_cons. destruct (GetField rec (fld_Name m)) as [fld [e|]].
    + split; [discriminate|]. intros [(f & [=] & _) _].
    + destruct (Field_equal interface_equal fld m) eqn:E.
      * rewrite IH. split; [intros H; split; eauto | tauto].
      * split; [discriminate|]. intros [(f & [= <-] & Hf) _]. congruence.
Qed.

(** A key that is missing when the keys before it are there and equal. *)
Lemma match_keys_Missing rec pre match_ post :
  Forall (fun m => ∃ fld, GetField rec (fld_Name m) = (fld, None) ∧
                          Field_equal interface_equal fld m = true) pre →
  fld_Name match_ ∉ fld_Name <$> Fields rec →
  match_keys interface_equal rec (pre ++ match_ :: post) = KeyMissing.
Proof.
  intros Hpre Hmiss. induction Hpre as [|m pre (fld & Hg & He) _ IH]; simpl.
  - unfold GetField. apply find_Field_None in Hmiss. rewrite Hmiss. reflexivity.
  - rewrite Hg, He. exact IH.
Qed.

Lemma FindRecord_found fuel (h : Heap) (rec : nat) recordName matches (q : nat) :
  FindRecord interface_equal fuel h rec recordName matches = Some (Val (Some q)) →
  in_unit h rec q ∧ ∃ r, h !! q = Some r ∧ wanted interface_equal recordName matches r.
Proof.
  revert rec. induction fuel as [|fuel IH]; intros rec; simpl; [discriminate|].
  destruct (h !! rec) as [r|] eqn:Er; [|discriminate].
  assert (Hchildren :
    first_found (fun child => FindRecord interface_equal fuel h child recordName matches)
                (Children r) = Some (Val (Some q)) →
    in_unit h rec q ∧ ∃ r, h !! q = Some r ∧ wanted interface_equal recordName matches r).
  { intros H. apply first_found_Some in H as (child & Hin & Hf).
    destruct (IH child Hf) as (Hu & Hw). split; [|exact Hw].
    by apply (in_unit_front h rec r child). }
  destruct (decide (Name r = recordName)) as [HN|HN]; [|exact Hchildren].
  destruct (match_keys interface_equal r matches) eqn:Ek.
  - intros [= <-]. split; [apply unit_root|]. exists r. split; [exact Er|]. by split.
  - exact Hchildren.
  - discriminate.
Qed.

Lemma FindRecord_fuel fuel fuel' (h : Heap) (rec : nat) recordName matches x :
  FindRecord interface_equal fuel h rec recordName matches = Some x →
  (fuel ≤ fuel')%nat →
  FindRecord interface_equal fuel' h rec recordName matches = Some x.
Proof.
  revert fuel' rec x. induction fuel as [|fuel IH]; intros fuel' rec x; simpl; [discriminate|].
  intros H Hle. destruct fuel' as [|fuel']; [lia|]. simpl.
  destruct (h !! rec) as [r|] eqn:Er; [|exact H].
  assert (Hchildren : ∀ y,
    first_found (fun child => FindRecord interface_equal fuel h child recordName matches)
                (Children r) = Some y →
    first_found (fun child => FindRecord interface_equal fuel' h child recordName matches)
                (Children r) = Some y).
  { clear H. induction (Children r) as [|c rest IHc]; simpl; [auto|]. intros y.
    destruct (FindRecord interface_equal fuel h c recordName matches) as [o|] eqn:Ec;
      [|discriminate].
    rewrite (IH fuel' c o Ec) by lia.
    destruct o as [[q'|]|]; auto. }
  destruct (decide (Name r = recordName)); [|by apply Hchildren].
  destruct (match_keys interface_equal r matches); [exact H | by apply Hchildren | exact H].
Qed.

Lemma FindRecord_total fuel (h : Heap) (rec : nat) recordName matches :
  forward h → (rec < length h)%nat → (length h - rec ≤ fuel)%nat →
  ∃ v, FindRecord interface_equal fuel h rec recordName matches = Some (Val v).
Proof.
  intros Hf. revert rec. induction fuel as [|fuel IH]; intros rec Hlt Hfuel; [lia|].
  simpl. destruct (lookup_lt_is_Some_2 h rec Hlt) as [r Er]. rewrite Er.
  assert (Hchildren : ∃ v,
    first_found (fun child => FindRecord interface_equal fuel h child recordName matches)
                (Children r) = Some (Val v)).
  { apply first_found_total. intros child Hin.
    destruct (Hf rec r child Er Hin) as [H1 H2]. apply IH; lia. }
  destruct (decide (Name r = recordName)); [|exact Hchildren].
  destruct (match_keys interface_equal r matches); eauto.
Qed.

Lemma FindRecord_none fuel (h : Heap) (rec : nat) recordName matches :
  FindRecord interface_equal fuel h rec recordName matches = Some (Val None) →
  (∀ q r, in_unit h rec q → h !! q = Some r → Name r = recordName →
          match_keys interface_equal r matches ≠ KeyMissing) →
  ∀ q r, in_unit h rec q → h !! q = Some r →
         ¬ wanted interface_equal recordName matches r.
Proof.
  revert rec. induction fuel as [|fuel IH]; intros rec; simpl; [discriminate|].
  destruct (h !! rec) as [r0|] eqn:Er; [|discriminate].
  intros H Hkeys q r Hu Hq [HN HK].
  assert (Hchildren :
    first_found (fun child => FindRecord interface_equal fuel h child recordName matches)
                (Children r0) = Some (Val None) →
    q ≠ rec → False).
  { intros Hc Hne. apply in_unit_front_inv in Hu as [->|(r1 & c & Hr1 & Hc1 & Hu)];
      [congruence|].
    rewrite Er in Hr1. injection Hr1 as <-.
    apply (IH c (first_found_nil _ _ Hc c Hc1)) with (q := q) (r := r);
      [|exact Hu | exact Hq | by split].
    intros q' r' Hu' Hq' HN'. apply (Hkeys q' r'); [|exact Hq' | exact HN'].
    by apply (in_unit_front h rec r0 c). }
  destruct (decide (q = rec)) as [->|Hne].
  - rewrite Er in Hq. injection Hq as ->.
    rewrite decide_True in H by exact HN. rewrite HK in H. discriminate.
  - destruct (decide (Name r0 = recordName)) as [HN0|HN0]; [|by apply Hchildren].
    destruct (match_keys interface_equal r0 matches) eqn:Ek.
    + discriminate.
    + by apply Hchildren.
    + apply (Hkeys rec r0); [apply unit_root | exact Er | exact HN0 | exact Ek].
Qed.

(** A record that is the first of its own children: the search for a
    record of another name does not end. *)
Lemma FindRecord_own_child fuel (h : Heap) (rec : nat) r rest recordName matches :
  h !! rec = Some r → Children r = rec :: rest → Name r ≠ recordName →
  FindRecord interface_equal fuel h rec recordName matches = None.
Proof.
  intros Hr HC HN. induction fuel as [|fuel IH]; simpl; [reflexivity|].
  rewrite Hr, decide_False by exact HN. rewrite HC. simpl. rewrite IH. reflexivity.
Qed.

End FindProperties.

(** ** More on the fixed-width reader *)

Lemma FixedWidth_values_returns data coords values :
  FixedWidth_values data coords = Val values →
  Forall2 (fun coord value =>
             in_capacity data coord ∧
             String.list_byte_of_string value
             = take (Z.to_nat (End coord - Start coord))
                    (drop (Z.to_nat (Start coord)) (elems data ++ spare data)))
          coords values.
Proof.
  revert values. induction coords as [|c cs IH]; intros values; simpl.
  - intros [= <-]. constructor.
  - unfold slice_expr. destruct (decide _) as [Hc|Hc]; [|discriminate].
    destruct (FixedWidth_values data cs) as [vs|]; [|discriminate].
    intros [= <-]. constructor; [|by apply IH].
    split; [exact Hc|]. apply String.list_byte_of_string_of_list_byte.
Qed.

Lemma FixedWidth_values_in_capacity data coords :
  Forall (in_capacity data) coords →
  ∃ values, FixedWidth_values data coords = Val values.
Proof.
  induction 1 as [|c cs Hc _ [values IH]]; simpl; [eauto|].
  unfold slice_expr. rewrite decide_True by exact Hc. rewrite IH. eauto.
Qed.

Lemma tiled_le lo coords hi : tiled lo coords hi → (lo ≤ hi)%Z.
Proof.
  revert lo. induction coords as [|c cs IH]; intros lo; simpl.
  - intros ->. lia.
  - intros (_ & Hle & Ht). apply IH in Ht. lia.
Qed.

Lemma FixedWidth_values_tiled data lo coords hi :
  (0 ≤ lo)%Z → tiled lo coords hi → (hi ≤ Z.of_nat (len data))%Z →
  ∃ values, FixedWidth_values data coords = Val values ∧
    mjoin (String.list_byte_of_string <$> values)
    = take (Z.to_nat (hi - lo)) (drop (Z.to_nat lo) (elems data)).
Proof.
  revert lo. induction coords as [|c cs IH]; intros lo Hlo Ht Hhi; simpl in *.
  - subst hi. exists []. split; [reflexivity|]. by rewrite Z.sub_diag.
  - destruct Ht as (Hs & Hle & Ht). pose proof (tiled_le _ _ _ Ht) as Hle'.
    rewrite slice_expr_within by lia.
    destruct (IH (End c)) as (values & -> & Hj); [lia | exact Ht | exact Hhi |].
    eexists. split; [reflexivity|]. rewrite fmap_cons.
    change (mjoin (?x :: ?l)) with (x ++ mjoin l).
    rewrite String.list_byte_of_string_of_list_byte, Hj, Hs.
    replace (Z.to_nat (End c)) with (Z.to_nat lo + Z.to_nat (End c - lo))%nat by lia.
    rewrite <- drop_drop, take_take_drop. f_equal. lia.
Qed.

(** ** More on loading a schema *)

Lemma Unmarshal_items_ext {A} (f g : json → error + A) items :
  (∀ item, f item = g item) → Unmarshal_items f items = Unmarshal_items g items.
Proof.
  intros H. induction items as [|item items IH]; simpl; [reflexivity|].
  rewrite H, IH. reflexivity.
Qed.

Lemma Unmarshal_items_Forall2 {A} (f : json → error + A) items l :
  Unmarshal_items f items = inr l → Forall2 (fun item a => f item = inr a) items l.
Proof.
  revert l. induction items as [|item items IH]; intros l; simpl.
  - intros [= <-]. constructor.
  - destruct (f item) as [|a] eqn:E; [discriminate|].
    destruct (Unmarshal_items f items) as [|l']; [discriminate|].
    intros [= <-]. constructor; auto.
Qed.

Lemma Unmarshal_string_not_missing data target msg :
  Unmarshal_string data target ≠ inl (MissingFieldError msg).
Proof. destruct data; discriminate. Qed.

Lemma RecordDefinition_reader_error_dropped
      (R : gmap string RecordReaderUnmarshalFunc) (F : gmap string FieldTypeUnmarshalFunc)
      name f data :
  RecordDefinition_UnmarshalJSON (<[name := f]> R) F data
  = RecordDefinition_UnmarshalJSON (<[name := without_error f]> R) F data.
Proof.
  unfold RecordDefinition_UnmarshalJSON, GetRecordReaderUnmarshalFunc.
  destruct (Unmarshal_map data) as [|rawRecDef]; [reflexivity|].
  destruct (mustUnmarshalString rawRecDef "Name" EmptyString) as [|recName]; [reflexivity|].
  destruct (unmarshalString rawRecDef "MatchExpression" EmptyString); [reflexivity|].
  destruct (mustUnmarshalString rawRecDef "ReaderName" EmptyString) as [|readerName];
    [reflexivity|].
  destruct (rawRecDef !! "RecordReader") as [rawReader|]; [|reflexivity].
  destruct (Unmarshal_map rawReader); [reflexivity|].
  destruct (decide (name = readerName)) as [->|Hne].
  - rewrite !lookup_insert_eq. unfold without_error.
    destruct (f rawReader) as [recordReader err]. reflexivity.
  - rewrite !lookup_insert_ne by exact Hne. reflexivity.
Qed.

Section Loading.
Context (RecordReaderRegistry : gmap string RecordReaderUnmarshalFunc)
        (FieldTypeRegistry : gmap string FieldTypeUnmarshalFunc).

Lemma FieldDefinition_type_returned data fldDef :
  FieldDefinition_UnmarshalJSON FieldTypeRegistry data = inr fldDef →
  ∃ rawFieldDef typeFunc,
    Unmarshal_map data = inr rawFieldDef ∧
    is_Some (rawFieldDef !! "Name") ∧ is_Some (rawFieldDef !! "TypeName") ∧
    FieldTypeRegistry !! fd_TypeName fldDef = Some typeFunc ∧
    typeFunc (rawFieldDef !! "FieldType") = (fd_FieldType fldDef, None).
Proof.
  unfold FieldDefinition_UnmarshalJSON, GetFieldTypeUnmarshalFunc.
  destruct (Unmarshal_map data) as [|rawFieldDef]; [discriminate|].
  unfold mustUnmarshalString.
  destruct (rawFieldDef !! "Name") as [rawName|] eqn:EN; [|discriminate].
  destruct (Unmarshal_string rawName EmptyString) as [|name]; [discriminate|].
  destruct (rawFieldDef !! "TypeName") as [rawTypeName|] eqn:ET; [|discriminate].
  destruct (Unmarshal_string rawTypeName EmptyString) as [|typeName]; [discriminate|].
  destruct (FieldTypeRegistry !! typeName) as [typeFunc|] eqn:Ereg; [|discriminate].
  destruct (typeFunc (rawFieldDef !! "FieldType")) as [fieldType [e|]] eqn:Ef;
    [discriminate|].
  intros [= <-]. simpl. exists rawFieldDef, typeFunc. rewrite EN, ET. eauto 10.
Qed.

Lemma RecordDefinition_fields_loaded data recDef :
  RecordDefinition_UnmarshalJSON RecordReaderRegistry FieldTypeRegistry data = inr recDef →
  Forall (fun fldDef => ∃ item, FieldDefinition_UnmarshalJSON FieldTypeRegistry item
                                = inr fldDef)
         (FieldDefinitions recDef).
Proof.
  unfold RecordDefinition_UnmarshalJSON.
  destruct (Unmarshal_map data) as [|rawRecDef]; [discriminate|].
  destruct (mustUnmarshalString rawRecDef "Name" EmptyString); [discriminate|].
  destruct (unmarshalString rawRecDef "MatchExpression" EmptyString); [discriminate|].
  destruct (mustUnmarshalString rawRecDef "ReaderName" EmptyString) as [|readerName];
    [discriminate|].
  destruct (rawRecDef !! "RecordReader") as [rawReader|]; [|discriminate].
  destruct (Unmarshal_map rawReader); [discriminate|].
  destruct (GetRecordReaderUnmarshalFunc RecordReaderRegistry readerName) as [|readerFunc];
    [discriminate|].
  destruct (readerFunc rawReader) as [recordReader err].
  destruct (unmarshalString rawRecDef "ParentRecordName" EmptyString); [discriminate|].
  destruct (rawRecDef !! "FieldDefinitions") as [rawFieldDefinitions|];
    [|intros [= <-]; constructor].
  unfold Unmarshal_FieldDefinitions.
  destruct rawFieldDefinitions as [| | | |items|]; try discriminate;
    [intros [= <-]; constructor|].
  destruct (Unmarshal_items (FieldDefinition_UnmarshalJSON FieldTypeRegistry) items)
    as [|fldDefs] eqn:Ei; [discriminate|].
  intros [= <-]. simpl. apply Unmarshal_items_Forall2 in Ei.
  clear -Ei. induction Ei; constructor; eauto.
Qed.

Lemma RecordDefinition_required data recDef :
  RecordDefinition_UnmarshalJSON RecordReaderRegistry FieldTypeRegistry data = inr recDef →
  ∃ rawRecDef readerName rawReader readerFunc,
    Unmarshal_map data = inr rawRecDef ∧
    is_Some (rawRecDef !! "Name") ∧
    mustUnmarshalString rawRecDef "ReaderName" EmptyString = inr readerName ∧
    rawRecDef !! "RecordReader" = Some rawReader ∧
    RecordReaderRegistry !! readerName = Some readerFunc ∧
    rd_RecordReader recDef = (readerFunc rawReader).1 ∧
    ReaderName recDef = EmptyString.
Proof.
  unfold RecordDefinition_UnmarshalJSON, GetRecordReaderUnmarshalFunc.
  destruct (Unmarshal_map data) as [|rawRecDef]; [discriminate|].
  destruct (mustUnmarshalString rawRecDef "Name" EmptyString) as [|recName] eqn:EN;
    [discriminate|].
  destruct (unmarshalString rawRecDef "MatchExpression" EmptyString); [discriminate|].
  destruct (mustUnmarshalString rawRecDef "ReaderName" EmptyString) as [|readerName] eqn:ER;
    [discriminate|].
  destruct (rawRecDef !! "RecordReader") as [rawReader|] eqn:ERR; [|discriminate].
  destruct (Unmarshal_map rawReader); [discriminate|].
  destruct (RecordReaderRegistry !! readerName) as [readerFunc|] eqn:Ereg; [|discriminate].
  destruct (readerFunc rawReader) as [recordReader err] eqn:Ef.
  destruct (unmarshalString rawRecDef "ParentRecordName" EmptyString); [discriminate|].
  intros H. exists rawRecDef, readerName, rawReader, readerFunc.
  split; [reflexivity|]. split.
  { unfold mustUnmarshalString in EN. destruct (rawRecDef !! "Name"); [eauto | discriminate]. }
  split; [exact ER|]. split; [exact ERR|]. split; [exact Ereg|].
  rewrite Ef. simpl.
  destruct (match rawRecDef !! "FieldDefinitions" with
            | Some rawFieldDefinitions =>
                Unmarshal_FieldDefinitions FieldTypeRegistry rawFieldDefinitions
            | None => inr []
            end); [discriminate|].
  injection H as <-. auto.
Qed.

End Loading.

(** * What the package does beyond the claims *)

(** ** The fixed-width reader *)

(** X1.  Whenever [Read] returns, it returns no error and one value for
    each coordinate, in the order of the coordinates; each range is one
    that the slice expression accepts, and the value is made of the bytes
    of that range, taken from the line and, past its length, from the
    spare capacity of the slice. *)
Theorem X1_FixedWidth_Read_returns fwr data values err :
  FixedWidthRecordReader_Read fwr data = Val (values, err) →
  err = None ∧ length values = length (Coordinates fwr) ∧
  Forall2 (fun coord value =>
             in_capacity data coord ∧
             String.list_byte_of_string value
             = take (Z.to_nat (End coord - Start coord))
                    (drop (Z.to_nat (Start coord)) (elems data ++ spare data)))
          (Coordinates fwr) values.
Proof.
  unfold FixedWidthRecordReader_Read.
  destruct (FixedWidth_values data (Coordinates fwr)) as [vs|] eqn:E; [|discriminate].
  intros [= <- <-]. apply FixedWidth_values_returns in E.
  split; [reflexivity|]. split; [|exact E].
  symmetry. by eapply Forall2_length.
Qed.

(** X2.  [Read] panics exactly when some range is not within the capacity
    of the slice, wherever in the list of coordinates it stands, and it
    returns values exactly when every range is within the capacity. *)
Theorem X2_FixedWidth_Read_panics_or_returns fwr data :
  (FixedWidthRecordReader_Read fwr data = GoPanic ↔
   Exists (fun coord => ¬ in_capacity data coord) (Coordinates fwr)) ∧
  (Forall (in_capacity data) (Coordinates fwr) ↔
   ∃ values, FixedWidthRecordReader_Read fwr data = Val (values, None)).
Proof.
  split; [apply FixedWidthRecordReader_Read_panics|].
  unfold FixedWidthRecordReader_Read. split.
  - intros H. destruct (FixedWidth_values_in_capacity data _ H) as [values ->]. eauto.
  - intros [values H].
    destruct (FixedWidth_values data (Coordinates fwr)) as [vs|] eqn:E; [|discriminate].
    apply FixedWidth_values_returns in E.
    clear -E. induction E as [|c v cs vs [Hc _] _ IH]; constructor; assumption.
Qed.

(** X3.  When the ranges follow one another from the start of the line to
    its end, the values that [Read] returns, put one after the other, are
    the line. *)
Theorem X3_FixedWidth_Read_tiling fwr data :
  tiled 0 (Coordinates fwr) (Z.of_nat (len data)) →
  ∃ values, FixedWidthRecordReader_Read fwr data = Val (values, None) ∧
    mjoin (String.list_byte_of_string <$> values) = elems data.
Proof.
  intros Ht.
  destruct (FixedWidth_values_tiled data 0 (Coordinates fwr) (Z.of_nat (len data)))
    as (values & E & Hj); [lia | exact Ht | lia |].
  exists values. unfold FixedWidthRecordReader_Read. rewrite E. split; [reflexivity|].
  rewrite Hj. simpl. rewrite Z.sub_0_r, Nat2Z.id. apply firstn_all.
Qed.

(** ** [GetField] and [FindRecord] *)

(** X4.  [GetField] returns the first field of the record that has the
    name; when the record has no field of that name it returns the zero
    field and the error that says so. *)
Theorem X4_GetField_first_of_name rec name :
  match GetField rec name with
  | (fld, None) =>
      fld_Name fld = name ∧
      ∃ i : nat, Fields rec !! i = Some fld ∧
        ∀ (j : nat) f, (j < i)%nat → Fields rec !! j = Some f → fld_Name f ≠ name
  | (fld, Some e) =>
      fld = zero_Field ∧ (name ∉ fld_Name <$> Fields rec) ∧
      Error e = ("No Field named " +:+ quoted name +:+ " in Record " +:+ quoted (Name rec))
  end.
Proof.
  unfold GetField. destruct (find_Field (Fields rec) name) as [fld|] eqn:E.
  - by apply find_Field_Some.
  - split; [reflexivity|]. split; [by apply find_Field_None | reflexivity].
Qed.

Section FindTheorems.
Context (interface_equal : Value → Value → bool).

(** X5.  A record that [FindRecord] returns is the record the search
    started at or a record reached from it through [Children]; it has the
    name asked for, and for each of the fields to match it has a field of
    that name which is equal to it. *)
Theorem X5_FindRecord_sound fuel (h : Heap) (rec : nat) recordName matches (q : nat) :
  FindRecord interface_equal fuel h rec recordName matches = Some (Val (Some q)) →
  in_unit h rec q ∧
  ∃ r, h !! q = Some r ∧ Name r = recordName ∧
    Forall (fun match_ => ∃ fld, GetField r (fld_Name match_) = (fld, None) ∧
                                 Field_equal interface_equal fld match_ = true) matches.
Proof.
  intros H. destruct (FindRecord_found interface_equal _ _ _ _ _ _ H)
    as (Hu & r & Hr & HN & HK).
  split; [exact Hu|]. exists r. split; [exact Hr|]. split; [exact HN|].
  by apply match_keys_Matched.
Qed.

(** X6.  When [FindRecord] returns nil, and no record of the name asked
    for that can be reached lacks one of the fields to match, then no
    record that can be reached has the name and the fields asked for. *)
Theorem X6_FindRecord_nil fuel (h : Heap) (rec : nat) recordName matches :
  FindRecord interface_equal fuel h rec recordName matches = Some (Val None) →
  (∀ q r, in_unit h rec q → h !! q = Some r → Name r = recordName →
          match_keys interface_equal r matches ≠ KeyMissing) →
  ∀ q r, in_unit h rec q → h !! q = Some r →
         ¬ wanted interface_equal recordName matches r.
Proof. apply FindRecord_none. Qed.

(** X7.  A record of the name asked for that lacks one of the fields to
    match, the fields to match before it being there and equal, ends the
    search with nil: its children are not searched. *)
Theorem X7_FindRecord_missing_key fuel (h : Heap) (rec : nat) r recordName pre match_ post :
  h !! rec = Some r → Name r = recordName →
  Forall (fun m => ∃ fld, GetField r (fld_Name m) = (fld, None) ∧
                          Field_equal interface_equal fld m = true) pre →
  fld_Name match_ ∉ fld_Name <$> Fields r →
  FindRecord interface_equal (S fuel) h rec recordName (pre ++ match_ :: post)
  = Some (Val None).
Proof.
  intros Hr HN Hpre Hmiss. simpl. rewrite Hr, decide_True by exact HN.
  by rewrite (match_keys_Missing interface_equal r pre match_ post Hpre Hmiss).
Qed.

End FindTheorems.

(** ** [Parse] *)

Lemma shaped_nil split : shaped split [].
Proof. split; intros; by rewrite ?lookup_nil in *. Qed.

Lemma schema_kept_nil p : schema_kept p [].
Proof. split; intros; by rewrite ?lookup_nil in *. Qed.

Section ParseTheorems.
Context (regexp_Match : string → list byte → bool * option error) (p : Parser)
        (interface_equal : Value → Value → bool).

(** X8.  When no definition names its own type as its parent type, the
    children of a record that [Parse] has built were built after it, and
    [FindRecord], started at any of the records, ends and does not panic:
    it returns a record or nil, the same for every depth of recursion from
    the number of records on. *)
Theorem X8_FindRecord_ends_after_Parse source st (rec : nat) recordName matches :
  scan_lines regexp_Match p source initial = Next tt st →
  no_own_parent p → (rec < length (heap st))%nat →
  forward (heap st) ∧
  ∃ v, ∀ fuel, (length (heap st) - rec ≤ fuel)%nat →
    FindRecord interface_equal fuel (heap st) rec recordName matches = Some (Val v).
Proof.
  intros E Hown Hrec.
  assert (Hf : forward (heap st)).
  { apply (scan_lines_shaped regexp_Match p source initial st E
             (between_lines_initial p)); [exact Hown|].
    intros q r c Hq. simpl in Hq. by rewrite lookup_nil in Hq. }
  split; [exact Hf|].
  destruct (FindRecord_total interface_equal (length (heap st) - rec) (heap st) rec
              recordName matches Hf Hrec) as [v Hv]; [lia|].
  exists v. intros fuel Hfuel. by apply (FindRecord_fuel interface_equal _ fuel _ _ _ _ _ Hv).
Qed.

(** X9.  A record of the split type whose definition names the split type
    as its parent type is appended to its own children; [FindRecord],
    started at it for another name, does not end at any depth. *)
Theorem X9_own_parent_within_split recDef data st st' :
  process_record p recDef data st = Next tt st' →
  rd_Name recDef = SplitOnRecordName p → ParentRecordName recDef = rd_Name recDef →
  Children <$> heap st' !! length (heap st) = Some [length (heap st)] ∧
  ∀ fuel recordName matches, recordName ≠ rd_Name recDef →
    FindRecord interface_equal fuel (heap st') (length (heap st)) recordName matches = None.
Proof.
  intros E Hsplit Hparent.
  destruct (process_record_exact p recDef data st st' E) as (fields & _ & Hl & Hh).
  assert (Hcell : heap st' !! length (heap st)
                  = Some (append_Children (length (heap st))
                            (set_isWithinSplit (installed p recDef fields)))).
  { rewrite Hh. unfold attached. rewrite Hl, Hparent, lookup_insert_eq.
    rewrite list_lookup_middle by reflexivity. simpl.
    rewrite bool_decide_eq_true_2 by exact Hsplit.
    rewrite !list_lookup_alter_eq, list_lookup_middle by reflexivity. reflexivity. }
  split; [by rewrite Hcell|].
  intros fuel recordName matches Hne.
  eapply FindRecord_own_child; [exact Hcell | reflexivity | simpl; congruence].
Qed.

(** X10.  Between two lines, and so when [Parse] makes its last call to
    the record processor, the heap has the shape of units that fan out from
    the records of the split type: a record is in at most one list of
    children, and once; a record with children is within the split, and
    its children are within the split and have no parent pointer; a parent
    pointer leads to a record outside the split; and a record is within
    the split exactly when it is of the split type or a child. *)
Theorem X10_Parse_heap_shaped source st :
  scan_lines regexp_Match p source initial = Next tt st →
  shaped (SplitOnRecordName p) (heap st) ∧
  heap (final_state (Parse regexp_Match p source)) = heap st.
Proof.
  intros E. split.
  - apply (scan_lines_shaped regexp_Match p source initial st E (between_lines_initial p)).
    apply shaped_nil.
  - unfold Parse. rewrite Parse_from_run, E. reflexivity.
Qed.

(** X11.  However [Parse] ends, and from whatever state it goes on, every
    record that was on the heap is still there with the name, the fields,
    the parent pointer and the mark of the split that it had, and with the
    children it had at the head of its children. *)
Theorem X11_records_only_grow source st :
  heap_grown (heap st) (heap (final_state (Parse_from regexp_Match p st source))).
Proof.
  rewrite Parse_from_run. pose proof (scan_lines_grown regexp_Match p source st) as G.
  destruct (scan_lines regexp_Match p source st) as [[] st'| |]; exact G.
Qed.

(** X12.  Between two lines every record on the heap is a record of one of
    the parser's definitions, with a field for each of its field
    definitions, so that [GetField] finds a field for the name of each; and
    the definition of a child, and of a record with a parent pointer, names
    the type of the parent as its parent type. *)
Theorem X12_heap_follows_schema source st :
  scan_lines regexp_Match p source initial = Next tt st →
  schema_kept p (heap st) ∧
  ∀ q r, heap st !! q = Some r →
    ∃ recDef, recDef ∈ RecordDefinitions p ∧ Name r = rd_Name recDef ∧
      ∀ fldDef, fldDef ∈ FieldDefinitions recDef →
        ∃ fld, GetField r (fd_Name fldDef) = (fld, None) ∧ fld_Name fld = fd_Name fldDef.
Proof.
  intros E.
  assert (Hs : schema_kept p (heap st)).
  { apply (scan_lines_schema_kept regexp_Match p source initial st E
             (between_lines_initial p)), schema_kept_nil. }
  split; [exact Hs|]. intros q r Hq.
  destruct (record_defined p _ Hs q r Hq) as (recDef & Hin & HN & HF).
  exists recDef. split; [exact Hin|]. split; [exact HN|].
  intros fldDef Hd. destruct (find_Field_defined _ _ _ HF Hd) as [fld Hfld].
  exists fld. unfold GetField. rewrite Hfld. split; [reflexivity|].
  by apply find_Field_Some in Hfld as [? _].
Qed.

(** X13.  When the loop over the lines completes, the line number is the
    number of lines, and the heap holds one record for each line that some
    definition matches, and no other. *)
Theorem X13_one_record_per_recognized_line source st :
  scan_lines regexp_Match p source initial = Next tt st →
  lineNum st = length source ∧
  length (heap st)
  = length (filter (fun data => recognized regexp_Match p data = true) source).
Proof.
  intros E. split.
  - by rewrite (scan_lines_lineNum regexp_Match p source initial st E).
  - by rewrite (scan_lines_count regexp_Match p source initial st E).
Qed.

(** X14.  A line that no definition matches is passed over: no record is
    built, the records and the variables of [Parse] other than the line
    number stay as they are, the record processor is not called, and
    [Parse] does not panic; the error handler is called with the outcome
    of each match, and when it returns nil for each, the next line is
    read. *)
Theorem X14_unrecognized_line_skipped data st :
  recognized regexp_Match p data = false →
  is_Panicked (scan_line regexp_Match p data st) = false ∧
  heap (final_state (scan_line regexp_Match p data st)) = heap st ∧
  lastRecords (final_state (scan_line regexp_Match p data st)) = lastRecords st ∧
  splitRec (final_state (scan_line regexp_Match p data st)) = splitRec st ∧
  lineNum (final_state (scan_line regexp_Match p data st)) = S (lineNum st) ∧
  processed (calls (final_state (scan_line regexp_Match p data st)))
  = processed (calls st) ∧
  (Forall (fun recDef =>
             p_ErrorHandler p (ConfigurationError (Match regexp_Match recDef data).2) = None)
          (RecordDefinitions p) →
   scan_line regexp_Match p data st
   = Next tt (tried regexp_Match (RecordDefinitions p) data
                (with_lineNum (S (lineNum st)) st))).
Proof.
  intros Hrec. unfold scan_line. rewrite run_bind. simpl.
  destruct (scan_definitions_unrecognized regexp_Match p (RecordDefinitions p) data
              (with_lineNum (S (lineNum st)) st) Hrec) as (HP & K & Hall).
  pose proof (core_kept_processed _ _ K) as Hproc.
  destruct K as (Hh & Hl & Hs & Hn & _). auto 10.
Qed.

(** X15.  Under the default error handler [Parse] stops at the first
    error: the error handler is called with the nil error only, or its one
    call with an error is the last call that [Parse] makes, and [Parse]
    returns that error. *)
Theorem X15_default_handler_first_error source :
  p_ErrorHandler p = DefaultErrorHandler →
  stops_at_first_error (Parse regexp_Match p source).
Proof.
  intros Hdefault. unfold Parse, Parse_from.
  apply stopping_bind.
  - by apply stopping_scan_lines.
  - intros _. by apply stopping_send_last.
  - constructor.
Qed.

(** X16.  Under the default error handler, [Parse] does not panic on lines
    that the schema can read, that is, when every definition that matches
    a line has a record reader that returns on the line and a field type
    for each of its field definitions: [Parse] returns. *)
Theorem X16_default_handler_no_panic source :
  p_ErrorHandler p = DefaultErrorHandler →
  Forall (readable regexp_Match p) source →
  ∃ err st, Parse regexp_Match p source = Returned err st.
Proof.
  intros Hdefault Hall. unfold Parse. rewrite Parse_from_run.
  pose proof (scan_lines_no_panic regexp_Match p Hdefault source initial Hall
                (between_lines_initial p)) as Hnp.
  destruct (scan_lines regexp_Match p source initial) as [[] st'|err st'|st'].
  - rewrite send_last_run. eauto.
  - eauto.
  - discriminate.
Qed.

(** X17.  A line recognized by a definition that has no record reader, or
    whose record reader panics on the line, makes [Parse] panic, whatever
    the error handler, before any record is built for the line. *)
Theorem X17_reader_panic_panics pre recDef post data rest st :
  RecordDefinitions p = pre ++ recDef :: post →
  Forall (misses regexp_Match p data) pre → hits regexp_Match p data recDef →
  (rd_RecordReader recDef = None ∨
   ∃ reader, rd_RecordReader recDef = Some reader ∧ Read reader data = GoPanic) →
  scan_line regexp_Match p data st
  = Panicked (tried regexp_Match (pre ++ [recDef]) data (with_lineNum (S (lineNum st)) st)) ∧
  is_Panicked (Parse_from regexp_Match p st (data :: rest)) = true.
Proof.
  intros Hdefs Hpre Hhit Hreader.
  assert (E : scan_line regexp_Match p data st
              = Panicked (tried regexp_Match (pre ++ [recDef]) data
                            (with_lineNum (S (lineNum st)) st))).
  { unfold scan_line. rewrite run_bind. simpl.
    rewrite Hdefs, (scan_definitions_first_match regexp_Match p pre recDef post data _
                      Hpre Hhit).
    unfold process_record, build_record. rewrite run_bind.
    destruct Hreader as [->|(reader & -> & ->)]; reflexivity. }
  split; [exact E|]. rewrite Parse_from_run. simpl. rewrite run_bind, E. reflexivity.
Qed.

End ParseTheorems.

(** ** Loading a schema *)

Section LoadingTheorems.
Context (RecordReaderRegistry : gmap string RecordReaderUnmarshalFunc)
        (FieldTypeRegistry : gmap string FieldTypeUnmarshalFunc).

(** X18.  The error that a registered reader function returns plays no
    part in loading a schema: [NewParser] returns what it returns with the
    reader function that returns the same reader and no error. *)
Theorem X18_reader_error_dropped name f config processor handler :
  NewParser (<[name := f]> RecordReaderRegistry) FieldTypeRegistry config processor handler
  = NewParser (<[name := without_error f]> RecordReaderRegistry) FieldTypeRegistry
      config processor handler.
Proof.
  unfold NewParser.
  rewrite (Unmarshal_items_ext
             (RecordDefinition_UnmarshalJSON (<[name := f]> RecordReaderRegistry)
                FieldTypeRegistry)
             (RecordDefinition_UnmarshalJSON
                (<[name := without_error f]> RecordReaderRegistry) FieldTypeRegistry));
    [reflexivity|].
  intros item. apply RecordDefinition_reader_error_dropped.
Qed.

(** X19.  A parser that [NewParser] returns has one record definition for
    each element of the document, in the order of the document; each was
    decoded from an object with the keys [Name], [ReaderName] and
    [RecordReader], its record reader is the one returned by the reader
    function registered under the reader name, whatever error came with
    it, and its [ReaderName] is left empty.  A nil processor stands for
    the one that does nothing, a nil handler for the default handler. *)
Theorem X19_NewParser_loaded config processor handler parser :
  NewParser RecordReaderRegistry FieldTypeRegistry config processor handler = inr parser →
  SplitOnRecordName parser = doc_SplitOnRecordName config ∧
  Forall2 (fun item recDef =>
             ∃ rawRecDef readerName rawReader readerFunc,
               Unmarshal_map item = inr rawRecDef ∧
               is_Some (rawRecDef !! "Name") ∧
               mustUnmarshalString rawRecDef "ReaderName" EmptyString = inr readerName ∧
               rawRecDef !! "RecordReader" = Some rawReader ∧
               RecordReaderRegistry !! readerName = Some readerFunc ∧
               rd_RecordReader recDef = (readerFunc rawReader).1 ∧
               ReaderName recDef = EmptyString)
          (doc_RecordDefinitions config) (RecordDefinitions parser) ∧
  (processor = None → ∀ h record, p_RecordProcessor parser h record = None) ∧
  (handler = None → p_ErrorHandler parser = DefaultErrorHandler).
Proof.
  unfold NewParser.
  destruct (Unmarshal_items _ (doc_RecordDefinitions config)) as [|recDefs] eqn:E.
  - destruct (ConfigurationError (Some e)); discriminate.
  - intros [= <-]. simpl. split; [reflexivity|]. split.
    + apply Unmarshal_items_Forall2 in E.
      clear -E. induction E as [|item recDef items recDefs H _ IH]; constructor; [|exact IH].
      by apply (RecordDefinition_required RecordReaderRegistry FieldTypeRegistry).
    + split; intros ->; reflexivity.
Qed.

(** X20.  In a parser that [NewParser] returns, the field type of every
    field definition is the one that the function registered under its
    type name returned, and that function returned no error: unlike the
    error of a reader function, the error of a field type function fails
    the loading. *)
Theorem X20_field_types_loaded config processor handler parser :
  NewParser RecordReaderRegistry FieldTypeRegistry config processor handler = inr parser →
  Forall (fun recDef =>
            Forall (fun fldDef =>
                      ∃ typeFunc rawType,
                        FieldTypeRegistry !! fd_TypeName fldDef = Some typeFunc ∧
                        typeFunc rawType = (fd_FieldType fldDef, None))
                   (FieldDefinitions recDef))
         (RecordDefinitions parser).
Proof.
  unfold NewParser.
  destruct (Unmarshal_items _ (doc_RecordDefinitions config)) as [|recDefs] eqn:E.
  - destruct (ConfigurationError (Some e)); discriminate.
  - intros [= <-]. simpl.
    eapply Unmarshal_items_Forall; [|exact E]. intros item recDef Hrec.
    apply (RecordDefinition_fields_loaded RecordReaderRegistry FieldTypeRegistry) in Hrec.
    eapply Forall_impl; [exact Hrec|]. intros fldDef [fitem Hf].
    destruct (FieldDefinition_type_returned FieldTypeRegistry fitem fldDef Hf)
      as (raw & typeFunc & _ & _ & _ & Hreg & Hty).
    eauto.
Qed.

End LoadingTheorems.

(** ** The date field type *)

(** X21.  A field definition of the type [Date] is loaded only from an
    object whose [FieldType] is an object with the key [Format]: its field
    type then parses with that format.  Without the [FieldType] key, or
    without [Format] in it, the loading fails. *)
Theorem X21_Date_requires_Format
        (time_Parse : string → string → Value * option error)
        (FieldTypeRegistry : gmap string FieldTypeUnmarshalFunc) data fldDef :
  FieldTypeRegistry !! "Date" = Some (Unmarshal_DateFieldType time_Parse) →
  FieldDefinition_UnmarshalJSON FieldTypeRegistry data = inr fldDef →
  fd_TypeName fldDef = "Date" →
  ∃ rawFieldDef rawType rawFormat format,
    Unmarshal_map data = inr rawFieldDef ∧
    Unmarshal_raw_map (rawFieldDef !! "FieldType") = inr rawType ∧
    rawType !! "Format" = Some rawFormat ∧
    Unmarshal_string rawFormat EmptyString = inr format ∧
    fd_FieldType fldDef = Some (DateFieldType time_Parse format).
Proof.
  intros Hreg Hload Hdate.
  destruct (FieldDefinition_type_returned FieldTypeRegistry data fldDef Hload)
    as (rawFieldDef & typeFunc & Hmap & _ & _ & Hty & Hret).
  rewrite Hdate, Hreg in Hty. injection Hty as <-.
  unfold Unmarshal_DateFieldType in Hret.
  destruct (Unmarshal_raw_map (rawFieldDef !! "FieldType")) as [|rawType] eqn:Eraw;
    [discriminate|].
  destruct (rawType !! "Format") as [rawFormat|] eqn:Ef; [|discriminate].
  destruct (Unmarshal_string rawFormat EmptyString) as [|format] eqn:Es; [discriminate|].
  injection Hret as <-. exists rawFieldDef, rawType, rawFormat, format. auto.
Qed.

(** * The further theorems at concrete inputs *)

(** X1 on a header line of the invoice schema. *)
Lemma X1_witness :
  @None error = None ∧
  length ["010"; "INV01"] = length (Coordinates {| Coordinates := [Coord 0 3; Coord 3 8] |}) ∧
  Forall2 (fun coord value =>
             in_capacity (bytes_of_string "010INV01") coord ∧
             String.list_byte_of_string value
             = take (Z.to_nat (End coord - Start coord))
                    (drop (Z.to_nat (Start coord))
                       (elems (bytes_of_string "010INV01")
                        ++ spare (bytes_of_string "010INV01"))))
          (Coordinates {| Coordinates := [Coord 0 3; Coord 3 8] |}) ["010"; "INV01"].
Proof.
  apply (X1_FixedWidth_Read_returns {| Coordinates := [Coord 0 3; Coord 3 8] |}
           (bytes_of_string "010INV01") ["010"; "INV01"] None).
  reflexivity.
Defined.

(** X3 on a header line of the invoice schema. *)
Lemma X3_witness :
  ∃ values,
    FixedWidthRecordReader_Read {| Coordinates := [Coord 0 3; Coord 3 8] |}
      (bytes_of_string "010INV01") = Val (values, None) ∧
    mjoin (String.list_byte_of_string <$> values) = elems (bytes_of_string "010INV01").
Proof.
  apply (X3_FixedWidth_Read_tiling {| Coordinates := [Coord 0 3; Coord 3 8] |}
           (bytes_of_string "010INV01")).
  simpl. repeat split; lia.
Defined.

(** X5 on the invoice schema: the line with the number 0001 is found
    below its header. *)
Lemma X5_witness :
  in_unit (heap after_line) 0 1 ∧
  ∃ r, heap after_line !! 1 = Some r ∧ Name r = "InvoiceLine" ∧
    Forall (fun match_ => ∃ fld, GetField r (fld_Name match_) = (fld, None) ∧
                                 Field_equal same_value fld match_ = true)
           [line_number "0001"].
Proof.
  apply (X5_FindRecord_sound same_value 2 (heap after_line) 0 "InvoiceLine"
           [line_number "0001"] 1).
  vm_compute. reflexivity.
Defined.

(** X6 on the invoice schema: there is no line with the number 9999. *)
Lemma X6_witness :
  FindRecord same_value 2 (heap after_line) 0 "InvoiceLine" [line_number "9999"]
    = Some (Val None) ∧
  ¬ wanted same_value "InvoiceLine" [line_number "9999"] line_record.
Proof.
  split; [vm_compute; reflexivity|].
  apply (X6_FindRecord_nil same_value 2 (heap after_line) 0 "InvoiceLine"
           [line_number "9999"]) with (q := 1%nat).
  - vm_compute. reflexivity.
  - intros q r _ Hq HN. destruct q as [|[|q]]; vm_compute in Hq.
    + injection Hq as <-. vm_compute in HN. discriminate.
    + injection Hq as <-. vm_compute. discriminate.
    + discriminate.
  - eapply unit_child; [apply unit_root | vm_compute; reflexivity |].
    apply (bool_decide_unpack _). vm_compute. reflexivity.
  - vm_compute. reflexivity.
Defined.

(** X7 on the invoice schema: a header has no line number. *)
Lemma X7_witness :
  FindRecord same_value (S 1) (heap after_line) 0 "InvoiceHeader"
    ([] ++ line_number "0001" :: []) = Some (Val None).
Proof.
  apply (X7_FindRecord_missing_key same_value 1 (heap after_line) 0 header_record
           "InvoiceHeader" [] (line_number "0001") []).
  - vm_compute. reflexivity.
  - vm_compute. reflexivity.
  - constructor.
  - apply (bool_decide_unpack _). vm_compute. reflexivity.
Defined.

(** X8 on the invoice schema, after a header, a line and a second
    header. *)
Lemma X8_witness :
  forward (heap after_second_header) ∧
  ∃ v, ∀ fuel, (length (heap after_second_header) - 0 ≤ fuel)%nat →
    FindRecord same_value fuel (heap after_second_header) 0 "InvoiceLine" []
    = Some (Val v).
Proof.
  apply (X8_FindRecord_ends_after_Parse prefix_Match (invoices DefaultErrorHandler)
           same_value (lines ["010INV01"; "0300001"; "010INV02"])).
  - vm_compute. reflexivity.
  - repeat constructor; discriminate.
  - vm_compute. lia.
Defined.

(** X9 on a split type that is its own parent type. *)
Lemma X9_witness :
  Children <$> heap linked !! length (heap initial) = Some [length (heap initial)] ∧
  ∀ fuel recordName matches, recordName ≠ rd_Name Link →
    FindRecord same_value fuel (heap linked) (length (heap initial)) recordName matches
    = None.
Proof.
  apply (X9_own_parent_within_split chained same_value Link (bytes_of_string "x")
           initial linked).
  - vm_compute. reflexivity.
  - reflexivity.
  - reflexivity.
Defined.

(** X10 on the invoice schema. *)
Lemma X10_witness :
  shaped (SplitOnRecordName (invoices DefaultErrorHandler)) (heap after_second_header) ∧
  heap (final_state (Parse prefix_Match (invoices DefaultErrorHandler)
                       (lines ["010INV01"; "0300001"; "010INV02"])))
  = heap after_second_header.
Proof.
  apply (X10_Parse_heap_shaped prefix_Match (invoices DefaultErrorHandler)).
  vm_compute. reflexivity.
Defined.

(** X12 on the invoice schema. *)
Lemma X12_witness :
  schema_kept (invoices DefaultErrorHandler) (heap after_second_header) ∧
  ∀ q r, heap after_second_header !! q = Some r →
    ∃ recDef, recDef ∈ RecordDefinitions (invoices DefaultErrorHandler) ∧
      Name r = rd_Name recDef ∧
      ∀ fldDef, fldDef ∈ FieldDefinitions recDef →
        ∃ fld, GetField r (fd_Name fldDef) = (fld, None) ∧ fld_Name fld = fd_Name fldDef.
Proof.
  apply (X12_heap_follows_schema prefix_Match (invoices DefaultErrorHandler)
           (lines ["010INV01"; "0300001"; "010INV02"])).
  vm_compute. reflexivity.
Defined.

(** X13 on the invoice schema: three lines, two of them recognized. *)
Lemma X13_witness :
  lineNum after_noise = length (lines ["010INV01"; "999"; "0300001"]) ∧
  length (heap after_noise)
  = length (filter (fun data => recognized prefix_Match (invoices DefaultErrorHandler) data
                                = true)
                   (lines ["010INV01"; "999"; "0300001"])).
Proof.
  apply (X13_one_record_per_recognized_line prefix_Match (invoices DefaultErrorHandler)).
  vm_compute. reflexivity.
Defined.

(** X14 on the invoice schema: the line 999 after a header. *)
Lemma X14_witness :
  is_Panicked (scan_line prefix_Match (invoices DefaultErrorHandler)
                 (bytes_of_string "999") after_header) = false ∧
  heap (final_state (scan_line prefix_Match (invoices DefaultErrorHandler)
                       (bytes_of_string "999") after_header)) = heap after_header ∧
  lastRecords (final_state (scan_line prefix_Match (invoices DefaultErrorHandler)
                              (bytes_of_string "999") after_header))
  = lastRecords after_header ∧
  splitRec (final_state (scan_line prefix_Match (invoices DefaultErrorHandler)
                           (bytes_of_string "999") after_header)) = splitRec after_header ∧
  lineNum (final_state (scan_line prefix_Match (invoices DefaultErrorHandler)
                          (bytes_of_string "999") after_header)) = S (lineNum after_header) ∧
  processed (calls (final_state (scan_line prefix_Match (invoices DefaultErrorHandler)
                                   (bytes_of_string "999") after_header)))
  = processed (calls after_header) ∧
  (Forall (fun recDef =>
             p_ErrorHandler (invoices DefaultErrorHandler)
               (ConfigurationError (Match prefix_Match recDef (bytes_of_string "999")).2)
             = None)
          (RecordDefinitions (invoices DefaultErrorHandler)) →
   scan_line prefix_Match (invoices DefaultErrorHandler) (bytes_of_string "999") after_header
   = Next tt (tried prefix_Match (RecordDefinitions (invoices DefaultErrorHandler))
                (bytes_of_string "999") (with_lineNum (S (lineNum after_header)) after_header))).
Proof.
  apply (X14_unrecognized_line_skipped prefix_Match (invoices DefaultErrorHandler)).
  vm_compute. reflexivity.
Defined.

(** X15 on a line with one value for two field definitions. *)
Lemma X15_witness :
  stops_at_first_error (Parse prefix_Match strict (lines ["a"])).
Proof.
  apply (X15_default_handler_first_error prefix_Match strict). reflexivity.
Defined.

(** X16 on the invoice schema. *)
Lemma X16_witness :
  ∃ err st, Parse prefix_Match (invoices DefaultErrorHandler)
              (lines ["010INV01"; "0300001"; "010INV02"]) = Returned err st.
Proof.
  apply (X16_default_handler_no_panic prefix_Match (invoices DefaultErrorHandler)).
  - reflexivity.
  - unfold lines. rewrite !fmap_cons, fmap_nil.
    repeat apply Forall_cons_2; try apply Forall_nil_2;
      unfold readable; cbn [RecordDefinitions invoices];
      repeat apply Forall_cons_2; try apply Forall_nil_2;
      intros Hm; try (vm_compute in Hm; discriminate Hm);
      (split; [eexists; split; [reflexivity | vm_compute; discriminate]
              | cbn [FieldDefinitions InvoiceHeader InvoiceLine InvoiceLineDist];
                repeat apply Forall_cons_2; try apply Forall_nil_2;
                eexists; reflexivity]).
Defined.

(** X17 on the parser loaded from the document whose reader configuration
    does not decode. *)
Lemma X17_witness :
  scan_line prefix_Match careless_parser (bytes_of_string "abc") initial
  = Panicked (tried prefix_Match ([] ++ [careless_definition]) (bytes_of_string "abc")
                (with_lineNum (S (lineNum initial)) initial)) ∧
  is_Panicked (Parse_from prefix_Match careless_parser initial
                 (bytes_of_string "abc" :: lines ["def"])) = true.
Proof.
  apply (X17_reader_panic_panics prefix_Match careless_parser [] careless_definition []).
  - vm_compute. reflexivity.
  - constructor.
  - split; vm_compute; reflexivity.
  - left. vm_compute. reflexivity.
Defined.

(** X19 on the document whose names are registered. *)
Lemma X19_witness :
  SplitOnRecordName known_parser = doc_SplitOnRecordName known_document ∧
  Forall2 (fun item recDef =>
             ∃ rawRecDef readerName rawReader readerFunc,
               Unmarshal_map item = inr rawRecDef ∧
               is_Some (rawRecDef !! "Name") ∧
               mustUnmarshalString rawRecDef "ReaderName" EmptyString = inr readerName ∧
               rawRecDef !! "RecordReader" = Some rawReader ∧
               init_RecordReaderRegistry !! readerName = Some readerFunc ∧
               rd_RecordReader recDef = (readerFunc rawReader).1 ∧
               ReaderName recDef = EmptyString)
          (doc_RecordDefinitions known_document) (RecordDefinitions known_parser) ∧
  (@None RecordProcessor = None → ∀ h record, p_RecordProcessor known_parser h record = None) ∧
  (@None ErrorHandler = None → p_ErrorHandler known_parser = DefaultErrorHandler).
Proof.
  apply (X19_NewParser_loaded init_RecordReaderRegistry init_FieldTypeRegistry
           known_document None None known_parser).
  vm_compute. reflexivity.
Defined.

(** X20 on the document whose names are registered. *)
Lemma X20_witness :
  Forall (fun recDef =>
            Forall (fun fldDef =>
                      ∃ typeFunc rawType,
                        init_FieldTypeRegistry !! fd_TypeName fldDef = Some typeFunc ∧
                        typeFunc rawType = (fd_FieldType fldDef, None))
                   (FieldDefinitions recDef))
         (RecordDefinitions known_parser).
Proof.
  apply (X20_field_types_loaded init_RecordReaderRegistry init_FieldTypeRegistry
           known_document None None known_parser).
  vm_compute. reflexivity.
Defined.

(** X21 on a date field with the format of a day. *)
Lemma X21_witness :
  ∃ rawFieldDef rawType rawFormat format,
    Unmarshal_map date_field_document = inr rawFieldDef ∧
    Unmarshal_raw_map (rawFieldDef !! "FieldType") = inr rawType ∧
    rawType !! "Format" = Some rawFormat ∧
    Unmarshal_string rawFormat EmptyString = inr format ∧
    fd_FieldType date_field = Some (DateFieldType verbatim_Parse format).
Proof.
  apply (X21_Date_requires_Format verbatim_Parse dated_FieldTypeRegistry
           date_field_document date_field).
  - vm_compute. reflexivity.
  - vm_compute. reflexivity.
  - reflexivity.
Defined.
